(** * Scanorama: panoramic stitching of single-cell datasets

    A shallow embedding of [scanorama/scanorama.py]: mutual nearest
    neighbour matching, the alignment table, panorama construction and the
    kernel-weighted bias correction, together with the properties that the
    design document states about them.

    Conventions of the embedding.
    - Python integers that index cells (rows) are [Z]; dataset indices,
      which always come out of [range(len(datasets))], are [nat].
    - A Python [set] of index pairs is a [gset (Z * Z)]; iterating over it
      visits [elements s], one fixed order.
    - A Python [dict] is a [gmap], except [table1], whose iteration order is
      observable in [find_alignments] and which is kept as an association
      list in insertion order.
    - A two-dimensional numpy array is a record of its column count and its
      rows; its entries are real numbers, so that the arithmetic is the exact
      one that the floating-point code approximates.  Rounding, overflow and
      underflow of [float64] are outside the embedding: a statement about
      the entries of a computed array is a statement about exact arithmetic.
    - A raised exception or a failed [assert] is [None]. *)

From Stdlib Require Import Reals Lra Lia ZArith QArith Qminmax List Permutation Sorted.
From stdpp Require Import gmap list fin_maps sets option.
From stdpp Require sorting.

(** ** numpy arrays *)

Module np.

Record ndarray := mk_ndarray { shape1 : nat; data : list (list R) }.

Definition shape0 (a : ndarray) : nat := length (data a).

(** Every row of an array has [shape1] entries. *)
Definition wf (a : ndarray) : Prop :=
  Forall (λ r, length r = shape1 a) (data a).

(** [np.concatenate(arrays)] along axis 0: at least one array is needed and
    all of them must agree on the second axis. *)
Definition concatenate (arrays : list ndarray) : option ndarray :=
  match arrays with
  | [] => None
  | a :: _ =>
      if forallb (λ b, Nat.eqb (shape1 b) (shape1 a)) arrays
      then Some (mk_ndarray (shape1 a) (concat (data <$> arrays)))
      else None
  end.

(** Integer indexing of one axis of length [n]: a negative index counts from
    the end, anything outside [-n, n) is an [IndexError]. *)
Definition norm_index (n : nat) (i : Z) : option nat :=
  if decide (0 ≤ i < Z.of_nat n)%Z then Some (Z.to_nat i)
  else if decide (- Z.of_nat n ≤ i < 0)%Z then Some (Z.to_nat (Z.of_nat n + i))
  else None.

(** [a[idx, :]] for a list of row indices. *)
Definition take_rows (a : ndarray) (idx : list Z) : option ndarray :=
  rows ← mapM (λ i, k ← norm_index (shape0 a) i; data a !! k) idx;
  Some (mk_ndarray (shape1 a) rows).

(** [a[lo:hi, :]] for [0 <= lo <= hi]. *)
Definition slice_rows (a : ndarray) (lo hi : nat) : ndarray :=
  mk_ndarray (shape1 a) (take (hi - lo) (drop lo (data a))).

Definition same_shape (a b : ndarray) : bool :=
  Nat.eqb (shape0 a) (shape0 b) && Nat.eqb (shape1 a) (shape1 b).

(** Element-wise binary operations on arrays of one shape (numpy would also
    broadcast an axis of length one; such calls are outside the model and
    count as shape errors). *)
Definition elementwise (f : R → R → R) (a b : ndarray) : option ndarray :=
  if same_shape a b
  then Some (mk_ndarray (shape1 a) (zip_with (zip_with f) (data a) (data b)))
  else None.

Definition add := elementwise Rplus.
Definition sub := elementwise Rminus.

(** numpy does not raise on a zero denominator: it warns and the entry is
    [nan] or an infinity.  The entry here is then the real [x * / 0]; no
    statement below depends on what that real is. *)
Definition div := elementwise Rdiv.

Definition zeros (n d : nat) : ndarray :=
  mk_ndarray d (replicate n (replicate d 0%R)).

Definition zeros1 (n : nat) : list R := replicate n 0%R.

(** Sum of a one-dimensional array. *)
Definition vsum (v : list R) : R := foldr Rplus 0%R v.

(** [np.sum(a, axis=1)]. *)
Definition sum_axis1 (a : ndarray) : list R := vsum <$> data a.

(** Element-wise sum of two one-dimensional arrays of one length. *)
Definition vadd (u v : list R) : option (list R) :=
  if Nat.eqb (length u) (length v) then Some (zip_with Rplus u v) else None.

(** Column [c] of an array. *)
Definition column (a : ndarray) (c : nat) : list R :=
  (λ r, nth c r 0%R) <$> data a.

(** [a.T]. *)
Definition transpose (a : ndarray) : ndarray :=
  mk_ndarray (shape0 a) (column a <$> seq 0 (shape1 a)).

(** [np.tile(v, (reps, 1))]: [reps] copies of the row [v]. *)
Definition tile (v : list R) (reps : nat) : ndarray :=
  mk_ndarray (length v) (replicate reps v).

(** Inner product of two vectors of one length. *)
Definition inner (u v : list R) : R := vsum (zip_with Rmult u v).

(** [np.dot(a, b)] for two-dimensional [a] and [b]. *)
Definition dot (a b : ndarray) : option ndarray :=
  if Nat.eqb (shape1 a) (shape0 b)
  then Some (mk_ndarray (shape1 b)
               ((λ r, (λ c, inner r (column b c)) <$> seq 0 (shape1 b)) <$> data a))
  else None.

(** Entry [(p, c)] of an array, [0] outside it. *)
Definition entry (a : ndarray) (p c : nat) : R :=
  nth c (nth p (data a) []) 0%R.

End np.

(** ** scikit-learn's [rbf_kernel] *)

Module sklearn.

(** Squared Euclidean distance of two points. *)
Definition sqdist (x y : list R) : R :=
  np.vsum (zip_with (λ a b, ((a - b) * (a - b))%R) x y).

(** [rbf_kernel(X, Y, gamma)]: [K[a, b] = exp(-gamma * |X[a] - Y[b]|^2)].
    scikit-learn validates both arrays before it computes anything: an array
    without a row or without a column is refused with a [ValueError], and
    so are two arrays that differ in their number of columns. *)
Definition rbf_kernel (X Y : np.ndarray) (gamma : R) : option np.ndarray :=
  guard (0 < np.shape0 X ∧ 0 < np.shape1 X);;
  guard (0 < np.shape0 Y ∧ 0 < np.shape1 Y);;
  if Nat.eqb (np.shape1 X) (np.shape1 Y)
  then Some (np.mk_ndarray (np.shape0 Y)
               ((λ x, (λ y, exp (- gamma * sqdist x y)) <$> np.data Y) <$> np.data X))
  else None.

End sklearn.

(** ** The [intervaltree] package, as far as [fill_table] uses it *)

Module IntervalTree.

Record Interval (D : Type) := mkInterval { begin : Z; end_ : Z; data : D }.
Arguments mkInterval {D} _ _ _.
Arguments begin {D} _.
Arguments end_ {D} _.
Arguments data {D} _.

#[global] Instance Interval_eq_dec {D} `{EqDecision D} : EqDecision (Interval D).
Proof. solve_decision. Defined.

(** A tree is a set of intervals: no interval is stored twice. *)
Abbreviation t D := (list (Interval D)).

Definition empty {D} : t D := [].

(** [tree[lo:hi] = d].  An interval already present is not added again; an
    interval with [hi <= lo] is null and refused with a [ValueError]. *)
Definition setitem {D} `{EqDecision D} (lo hi : Z) (d : D) (tree : t D) : option (t D) :=
  let iv := mkInterval lo hi d in
  if decide (iv ∈ tree) then Some tree
  else if decide (hi ≤ lo)%Z then None
  else Some (tree ++ [iv]).

(** [tree[p]]: the intervals that contain the point [p] ([begin <= p < end]). *)
Definition at_ {D} (p : Z) (tree : t D) : list (Interval D) :=
  filter (λ iv, (begin iv ≤ p < end_ iv)%Z) tree.

End IntervalTree.

(** ** Helpers for Python's lists and loops *)

(** A [for] loop whose body may raise: the accumulator is threaded through
    the elements from left to right and the first failure ends the loop. *)
Fixpoint foldlM {A B} (f : B → A → option B) (b : B) (l : list A) : option B :=
  match l with
  | [] => Some b
  | x :: l' => b' ← f b x; foldlM f b' l'
  end.

(** [l.remove(x)]: drops the first element equal to [x]; a [ValueError] when
    there is none. *)
Fixpoint remove_first {A} `{EqDecision A} (x : A) (l : list A) : option (list A) :=
  match l with
  | [] => None
  | y :: l' => if decide (y = x) then Some l' else (y ::.) <$> remove_first x l'
  end.

(** [range(lo, hi)] as a list of Python integers. *)
Definition py_range (lo hi : nat) : list Z := Z.of_nat <$> seq lo (hi - lo).

(** [float(a) / b] for two counts; division by zero raises. *)
Definition py_div (a b : nat) : option Q :=
  if decide (b = 0) then None else Some (Z.of_nat a # Pos.of_nat b).

(** Reversed pairs of a match set: [set([ (b, a) for a, b in m ])]. *)
Definition swap_pairs (m : gset (Z * Z)) : gset (Z * Z) :=
  list_to_set ((λ ab, (ab.2, ab.1)) <$> elements m).

(** [len(set([ idx for idx, _ in m ]))] and its mirror image. *)
Definition distinct_fst (m : gset (Z * Z)) : nat :=
  size (list_to_set (fst <$> elements m) : gset Z).
Definition distinct_snd (m : gset (Z * Z)) : nat :=
  size (list_to_set (snd <$> elements m) : gset Z).

(** The metrics of an Annoy index. *)
Inductive annoy_metric := angular | euclidean | manhattan | hamming | dot_metric.

(** Default parameters. *)
Definition ALPHA : Q := 1 # 10.
Definition APPROX : bool := true.
Definition KNN : nat := 20.
Definition SIGMA : R := 150%R.
Definition VISIT_CAP : nat := 3.

(** A match table: for a directed dataset pair, the matched local indices. *)
Abbreviation match_table := (gmap (nat * nat) (gset (Z * Z))).

(** The score table in the order in which its keys were inserted. *)
Abbreviation score_table := (list ((nat * nat) * Q)).

(** Comparison of scores is decidable. *)
#[global] Instance Qlt_decision (x y : Q) : Decision (x < y)%Q.
Proof. destruct (Qlt_le_dec x y) as [H|H]; [left | right]; [done | by apply Qle_not_lt]. Defined.

(** The shared mutable state of the loop of [assemble]. *)
Record assembly := mk_assembly {
  st_datasets : list np.ndarray;
  st_expr_datasets : option (list np.ndarray);
  st_panoramas : list (list nat);
  st_ds_assembled : gmap nat nat
}.

(** ** Concrete inputs for the examples at the end *)

(** An exact search that reports the single reference point for the single
    query point. *)
Definition one_point_search (knn p : nat) (ref query : np.ndarray)
    : option (list (list Z)) := Some [[0%Z]].

Definition no_annoy (m : annoy_metric) (n_trees : nat) (ref : np.ndarray)
    (v : list R) (knn : nat) : option (list Z) := None.

Definition one_point : np.ndarray := np.mk_ndarray 1 [[0%R]].

(** Row normalisation leaves a row of norm 0 or 1 as it is; on the inputs
    below it is the identity. *)
Definition normalize_unit (a : np.ndarray) : np.ndarray := a.

Definition three_points : list np.ndarray := [one_point; one_point; one_point].


(** Two blocks of two points each on a line. *)
Definition moving_block : np.ndarray := np.mk_ndarray 1 [[0%R]; [1%R]].
Definition reference_block : np.ndarray := np.mk_ndarray 1 [[2%R]; [3%R]].

(** Three matched points on the line with their bias vectors, and a block
    of matched points that has the column of the line and no row. *)
Definition matched_points : np.ndarray := np.mk_ndarray 1 [[0%R]; [1%R]; [1%R]].
Definition matched_bias : np.ndarray := np.mk_ndarray 1 [[2%R]; [1%R]; [2%R]].
Definition no_points : np.ndarray := np.mk_ndarray 1 [].

(** Three datasets on a line, and the exact search for one neighbour on
    them as a table: for each concatenation of reference datasets that
    [find_alignments_table] searches (told apart by its number of rows), the
    index of the reference point nearest to each query point.  The queries
    of dataset 0 go to the 5 rows of datasets 1 and 2, those of dataset 1
    to the 4 rows of dataset 0 and to the 2 rows of dataset 2, and those of
    dataset 2 to the 7 rows of datasets 0 and 1. *)
Definition line_datasets : list np.ndarray :=
  [np.mk_ndarray 1 [[24%R]; [100%R]; [11%R]; [101%R]];
   np.mk_ndarray 1 [[20%R]; [(-20)%R]; [1500%R]];
   np.mk_ndarray 1 [[10%R]; [1000%R]]].

Definition line_search (knn p : nat) (ref query : np.ndarray)
    : option (list (list Z)) :=
  match np.shape0 ref with
  | 5 => Some [[0%Z]; [0%Z]; [3%Z]; [0%Z]]
  | 4 => Some [[0%Z]; [2%Z]; [3%Z]]
  | 2 => Some [[0%Z]; [0%Z]; [1%Z]]
  | 7 => Some [[2%Z]; [6%Z]]
  | _ => None
  end.

(** The scores and the mutual matches of [line_datasets]. *)
Definition line_scores : score_table :=
  [((0, 1), 1 # 3); ((0, 2), 1 # 2); ((1, 2), 1 # 2)].

Definition line_matches : match_table :=
  {[ (0, 1) := {[ (0%Z, 0%Z) ]}; (0, 2) := {[ (2%Z, 0%Z) ]};
     (1, 2) := {[ (2%Z, 1%Z) ]} ]}.

(** Three datasets on a line whose mutual matches form a triangle: the point
    of dataset 0 matches the point of dataset 1 and the second point of
    dataset 2, and the point of dataset 1 matches the first point of
    dataset 2.  Every pair has alignment score 1. *)
Definition triangle_datasets : list np.ndarray :=
  [np.mk_ndarray 1 [[0%R]]; np.mk_ndarray 1 [[1%R]]; np.mk_ndarray 1 [[3%R]; [5%R]]].

Definition triangle_matches : match_table :=
  {[ (0, 1) := {[ (0%Z, 0%Z) ]}; (0, 2) := {[ (0%Z, 1%Z) ]};
     (1, 2) := {[ (0%Z, 0%Z) ]} ]}.

Definition triangle_scores : score_table :=
  [((0, 1), 1%Q); ((0, 2), 1%Q); ((1, 2), 1%Q)].

(** The states of [assemble] on the triangle: at the start, after the edge
    [(1, 2)], after the edge [(0, 2)], which leaves all three datasets in one
    panorama, and after the edge [(0, 1)]. *)
Definition triangle_start : assembly :=
  mk_assembly triangle_datasets None [] ∅.

Definition triangle_after_12 : assembly :=
  mk_assembly
    [np.mk_ndarray 1 [[0%R]]; np.mk_ndarray 1 [[3%R]]; np.mk_ndarray 1 [[3%R]; [5%R]]]
    None [[2; 1]]
    (<[2 := 1]> (<[1 := 1]> ∅)).

Definition triangle_after_02 : assembly :=
  mk_assembly
    [np.mk_ndarray 1 [[4%R]]; np.mk_ndarray 1 [[3%R]]; np.mk_ndarray 1 [[3%R]; [5%R]]]
    None [[2; 1; 0]]
    (<[2 := 2]> (<[1 := 1]> (<[0 := 1]> ∅))).

Definition triangle_after_01 : assembly :=
  mk_assembly
    [np.mk_ndarray 1 [[3%R]]; np.mk_ndarray 1 [[2%R]]; np.mk_ndarray 1 [[2%R]; [4%R]]]
    None [[2; 1; 0]]
    (<[2 := 2]> (<[1 := 2]> (<[0 := 2]> ∅))).

(** The state of [assemble] on [three_points] after its one edge [(0, 1)]. *)
Definition pair_assembled : assembly :=
  mk_assembly three_points None [[0; 1]] (<[1 := 1]> (<[0 := 1]> ∅)).

(** An approximate index that returns the reference point 0 for every query. *)
Definition annoy_first (m : annoy_metric) (n_trees : nat) (ref : np.ndarray)
    (v : list R) (knn : nat) : option (list Z) := Some [0%Z].

Definition two_points : list np.ndarray := [one_point; one_point].

(** Two datasets of one cell and three columns each, with numeric gene
    identifiers; the first gene list names gene 5 twice. *)
Definition gene_datasets : list np.ndarray :=
  [np.mk_ndarray 3 [[1%R; 2%R; 3%R]]; np.mk_ndarray 3 [[4%R; 5%R; 6%R]]].

Definition gene_lists : list (list nat) := [[5; 3; 5]; [3; 7; 5]].

Definition merged_datasets : list np.ndarray :=
  [np.mk_ndarray 2 [[2%R; 1%R]]; np.mk_ndarray 2 [[4%R; 6%R]]].

(** A reduction that returns the matrix as it is. *)
Definition reduce_identity (X : np.ndarray) (k : nat) : option np.ndarray := Some X.

Definition flat_dispersion (X : np.ndarray) : option (list R) :=
  Some (replicate (np.shape1 X) 0%R).

Definition argsort_identity (l : list R) : list nat := seq 0 (length l).

(** A stand-in for scikit-learn's [normalize] with its input check: a matrix
    without a row or without a column is refused.  (Any other matrix is
    handed back as it is; the example below does not get that far.) *)
Definition normalize_checked (a : np.ndarray) : option np.ndarray :=
  guard (0 < np.shape0 a ∧ 0 < np.shape1 a);; Some a.

(** ** Gene lists and preprocessing *)

(** More default parameters. *)
Definition DIMRED : nat := 100.
Definition HVG : nat := 0.

(** [a[:, idx]] for a list of column indices; an index outside the columns
    is an [IndexError]. *)
Definition take_cols (a : np.ndarray) (idx : list nat) : option np.ndarray :=
  guard (Forall (λ k, k < np.shape1 a) idx);;
  Some (np.mk_ndarray (length idx)
          ((λ row, (λ k, nth k row 0%R) <$> idx) <$> np.data a)).

Section Preprocessing.

(** Genes are values that can be hashed and compared, such as strings or
    numeric identifiers; [gene_le] is their order, the one of [sorted],
    [np.unique] and [np.argsort]. *)
Context {G : Type} `{Countable G}.
Variable gene_le : relation G.
Context `{!RelDecision gene_le, !TotalOrder gene_le}.

(** [utils.reduce_dimensionality(X, dim_red_k)] and [utils.dispersion(X)]
    are defined in another module, [np.argsort] on numbers and [normalize]
    in libraries.  scikit-learn's [normalize(ds, axis=1)] validates its
    argument first and raises a [ValueError] for some matrices, among them
    those without a column. *)
Variable reduce_dimensionality : np.ndarray → nat → option np.ndarray.
Variable dispersion : np.ndarray → option (list R).
Variable argsort : list R → list nat.
Variable normalize : np.ndarray → option np.ndarray.

(** [sorted(s)] for a set of genes. *)
Definition sorted_genes (s : gset G) : list G :=
  sorting.merge_sort gene_le (elements s).

(** The index of the first occurrence of [g] in [l]. *)
Definition first_index (g : G) (l : list G) : nat :=
  from_option fst 0 (list_find (λ x, x = g) l).

(** [np.unique(gene_list, return_index=True)]: the sorted distinct genes
    and, for each of them, the index of its first occurrence. *)
Definition unique (gene_list : list G) : list G * list nat :=
  let uniq_genes := sorted_genes (list_to_set gene_list) in
  (uniq_genes, (λ g, first_index g gene_list) <$> uniq_genes).

(** [np.argsort] on an array of genes: the indices in the order of their
    genes, which [by_gene] compares.  (The order among equal genes is not
    fixed by numpy; the array sorted here has none.) *)
Definition by_gene (a b : G * nat) : Prop := gene_le a.1 b.1.

#[global] Instance by_gene_dec : RelDecision by_gene :=
  λ a b, decide_rel gene_le a.1 b.1.

Definition argsort_genes (l : list G) : list nat :=
  snd <$> sorting.merge_sort by_gene (zip l (seq 0 (length l))).

(** The body of the first loop of [merge_datasets]; [exit(1)] when no gene
    is left. *)
Definition keep_step (keep_genes : gset G) (gene_list : list G) : option (gset G) :=
  let keep_genes :=
    if decide (size keep_genes = 0) then list_to_set gene_list
    else keep_genes ∩ list_to_set gene_list in
  if decide (size keep_genes = 0) then None else Some keep_genes.

(** "Find genes in common." *)
Definition common_genes (genes : list (list G)) : option (gset G) :=
  foldlM keep_step ∅ genes.

(** The body of the second loop of [merge_datasets] for one dataset and its
    gene list: "Remove duplicate genes", "Do gene filtering" and the
    assertion. *)
Definition filter_genes (keep_genes : gset G) (ret_genes : list G)
    (ds : np.ndarray) (gene_list : list G) : option np.ndarray :=
  let '(uniq_genes, uniq_idx) := unique gene_list in
  ds ← take_cols ds uniq_idx;
  let gene_sort_idx := argsort_genes uniq_genes in
  let gene_idx :=
    filter (λ idx, default false ((λ g, bool_decide (g ∈ keep_genes))
                                    <$> uniq_genes !! idx))
           gene_sort_idx in
  ds ← take_cols ds gene_idx;
  picked ← mapM (λ idx, uniq_genes !! idx) gene_idx;
  guard (picked = ret_genes);;
  Some ds.

(** Put datasets into a single matrix with the intersection of all genes.
    The list [datasets] is updated in place and returned.  Without
    [ds_names] the function prints no more than the number of genes. *)
Definition merge_datasets (datasets : list np.ndarray) (genes : list (list G))
    : option (list np.ndarray * list G) :=
  keep_genes ← common_genes genes;
  let ret_genes := sorted_genes keep_genes in
  datasets ← foldlM (λ datasets i,
                gene_list ← genes !! i;
                ds ← datasets !! i;
                ds ← filter_genes keep_genes ret_genes ds gene_list;
                Some (<[i := ds]> datasets))
             datasets (seq 0 (length datasets));
  Some (datasets, ret_genes).

(** The rows of [X] from [base] on, cut into blocks with the row counts of
    [datasets]. *)
Fixpoint split_rows (X : np.ndarray) (base : nat) (datasets : list np.ndarray)
    : list np.ndarray :=
  match datasets with
  | [] => []
  | ds :: rest =>
      np.slice_rows X base (base + np.shape0 ds)
        :: split_rows X (base + np.shape0 ds) rest
  end.

(** Randomized SVD.  The rows of the reduced matrix are handed out to the
    datasets in their order. *)
Definition dimensionality_reduce (datasets : list np.ndarray) (dimred : nat)
    : option (list np.ndarray) :=
  X ← np.concatenate datasets;
  X ← reduce_dimensionality X dimred;
  Some (foldl (λ '(datasets_dimred, base) ds,
                 (datasets_dimred
                    ++ [np.slice_rows X base (base + np.shape0 ds)],
                  base + np.shape0 ds))
              ([], 0) datasets).1.

(** "Only keep highly variable genes": the block of [process_data] under
    [if hvg > 0 and hvg < len(genes)].  The number of genes kept is the
    constant [HVG] of the module. *)
Definition highly_variable (datasets : list np.ndarray) (genes : list G)
    : option (list np.ndarray * list G) :=
  X ← np.concatenate datasets;
  disp ← dispersion X;
  top ← mapM (λ k, genes !! k) (take HVG (reverse (argsort disp)));
  let top_genes : gset G := list_to_set top in
  let gene_idx :=
    fst <$> filter (λ ig : nat * G, ig.2 ∈ top_genes) (imap pair genes) in
  datasets ← mapM (λ ds, take_cols ds gene_idx) datasets;
  Some (datasets, sorted_genes top_genes).

(** The result of [process_data], and the list [datasets] of the caller as
    the function leaves it when it returns. *)
Record processed := mk_processed {
  pr_result : list np.ndarray;
  pr_genes : list G;
  pr_datasets : list np.ndarray
}.

(** Normalize and reduce dimensionality.  [datasets] is updated in place;
    [dimensionality_reduce] is called without [dimred]. *)
Definition process_data (datasets : list np.ndarray) (genes : list G)
    (hvg dimred : Z) : option processed :=
  '(datasets, genes) ←
     (if decide (0 < hvg ∧ hvg < Z.of_nat (length genes))%Z
      then highly_variable datasets genes
      else Some (datasets, genes));
  datasets ← mapM normalize datasets;
  if decide (0 < dimred)%Z then
    datasets_dimred ← dimensionality_reduce datasets DIMRED;
    Some (mk_processed datasets_dimred genes datasets)
  else Some (mk_processed datasets genes datasets).

End Preprocessing.

Section Scanorama.

(** The neighbour searches are external capabilities.
    [kneighbors knn p ref query] is
    [NearestNeighbors(knn, p=p).fit(ref).kneighbors(query)], one list of
    reference indices per query row; [annoy_nns metric n_trees ref v knn] is
    [get_nns_by_vector(v, knn, search_k=-1)] on an index built over the rows
    of [ref].  Either may raise. *)
Variable kneighbors : nat → nat → np.ndarray → np.ndarray → option (list (list Z)).
Variable annoy_nns : annoy_metric → nat → np.ndarray → list R → nat → option (list Z).

(** [sklearn.preprocessing.normalize(ds, axis=1)] keeps the shape. *)
Variable normalize : np.ndarray → np.ndarray.
Hypothesis normalize_shape0 : ∀ a, np.shape0 (normalize a) = np.shape0 a.
Hypothesis normalize_shape1 : ∀ a, np.shape1 (normalize a) = np.shape1 a.

(** The loop shared by [nn] and [nn_approx]:
    [for a, b in zip(range(n), ind): for b_i in b: match.add((a, b_i))]. *)
Definition match_of_ind (n : nat) (ind : list (list Z)) : gset (Z * Z) :=
  foldl (λ acc ab, foldl (λ acc b_i, {[ (ab.1, b_i) ]} ∪ acc) acc ab.2)
        ∅ (zip (py_range 0 n) ind).

(** Exact nearest neighbors search. *)
Definition nn (ds1 ds2 : np.ndarray) (knn metric_p : nat) : option (gset (Z * Z)) :=
  ind ← kneighbors knn metric_p ds2 ds1;
  Some (match_of_ind (np.shape0 ds1) ind).

(** Approximate nearest neighbors. *)
Definition nn_approx (ds1 ds2 : np.ndarray) (knn : nat) (metric : annoy_metric)
    (n_trees : nat) : option (gset (Z * Z)) :=
  ind ← mapM (λ v, annoy_nns metric n_trees ds2 v knn) (np.data ds1);
  Some (match_of_ind (np.shape0 ds1) ind).

(** The directional match set from [ds1] to [ds2], as [mnn] computes it. *)
Definition directional (ds1 ds2 : np.ndarray) (knn : nat) (approx : bool)
    : option (gset (Z * Z)) :=
  if approx then nn_approx ds1 ds2 knn manhattan 10 else nn ds1 ds2 knn 2.

(** Find mutual nearest neighbors. *)
Definition mnn (ds1 ds2 : np.ndarray) (knn : nat) (approx : bool)
    : option (gset (Z * Z)) :=
  match1 ← directional ds1 ds2 knn approx;
  match2 ← directional ds2 ds1 knn approx;
  Some (match1 ∩ swap_pairs match2).

(** The two interval trees of [fill_table]: dataset [base_ds + j] owns the
    offsets [pos, pos + n_cells) of the concatenation, and [pos] is where
    its rows start. *)
Fixpoint build_itrees (datasets : list np.ndarray) (base_ds j : nat) (pos : Z)
    (itree_ds_idx : IntervalTree.t nat) (itree_pos_base : IntervalTree.t Z)
    : option (IntervalTree.t nat * IntervalTree.t Z) :=
  match datasets with
  | [] => Some (itree_ds_idx, itree_pos_base)
  | ds :: rest =>
      let n_cells := Z.of_nat (np.shape0 ds) in
      t1 ← IntervalTree.setitem pos (pos + n_cells) (base_ds + j) itree_ds_idx;
      t2 ← IntervalTree.setitem pos (pos + n_cells) pos itree_pos_base;
      build_itrees rest base_ds (S j) (pos + n_cells) t1 t2
  end.

(** The body of the loop over [match] in [fill_table], with its three
    assertions. *)
Definition store_match (itree_ds_idx : IntervalTree.t nat)
    (itree_pos_base : IntervalTree.t Z) (i : nat)
    (table : match_table) (dr : Z * Z) : option match_table :=
  let '(d, r) := dr in
  let interval := IntervalTree.at_ r itree_ds_idx in
  guard (length interval = 1);;
  j ← IntervalTree.data <$> head interval;
  let interval := IntervalTree.at_ r itree_pos_base in
  guard (length interval = 1);;
  base ← IntervalTree.data <$> head interval;
  let table := if decide ((i, j) ∈ dom table) then table else <[(i, j) := ∅]> table in
  let table := alter (λ s, {[ (d, r - base)%Z ]} ∪ s) (i, j) table in
  guard (0 ≤ r - base)%Z;;
  Some table.

(** Populate a table that stores nearest neighbors between datasets. *)
Definition fill_table (table : match_table) (i : nat) (curr_ds : np.ndarray)
    (datasets : list np.ndarray) (base_ds knn : nat) (approx : bool)
    : option match_table :=
  curr_ref ← np.concatenate datasets;
  match_ ← (if approx then nn_approx curr_ds curr_ref knn manhattan 10
            else nn curr_ds curr_ref knn 1);
  '(itree_ds_idx, itree_pos_base) ←
     build_itrees datasets base_ds 0 0 IntervalTree.empty IntervalTree.empty;
  foldlM (store_match itree_ds_idx itree_pos_base i) table (elements match_).

(** The first loop of [find_alignments_table]: every dataset is searched
    against the datasets before it and against the datasets after it. *)
Definition fill_tables (datasets : list np.ndarray) (knn : nat) (approx : bool)
    : option match_table :=
  foldlM (λ table i,
            curr_ds ← datasets !! i;
            table ← (if decide (0 < length (take i datasets))
                     then fill_table table i curr_ds (take i datasets) 0 knn approx
                     else Some table);
            if decide (0 < length (drop (S i) datasets))
            then fill_table table i curr_ds (drop (S i) datasets) (S i) knn approx
            else Some table)
         ∅ (seq 0 (length datasets)).

(** The pairs [(i, j)] in the order of the two nested loops over
    [range(len(datasets))]. *)
Definition index_pairs (n : nat) : list (nat * nat) :=
  i ← seq 0 n; j ← seq 0 n; [(i, j)].

(** The body of the second loop of [find_alignments_table]. *)
Definition score_pair (datasets : list np.ndarray) (table : match_table)
    (acc : match_table * score_table) (ij : nat * nat)
    : option (match_table * score_table) :=
  let '(i, j) := ij in
  let '(matches, table1) := acc in
  if decide (j ≤ i) then Some acc
  else match table !! (i, j), table !! (j, i) with
       | Some match_ij, Some t_ji =>
           let match_ji := swap_pairs t_ji in
           let mutual := match_ij ∩ match_ji in
           ds_i ← datasets !! i;
           ds_j ← datasets !! j;
           s_i ← py_div (distinct_fst mutual) (np.shape0 ds_i);
           s_j ← py_div (distinct_snd mutual) (np.shape0 ds_j);
           Some (<[(i, j) := mutual]> matches, table1 ++ [((i, j), Qmax s_i s_j)])
       | _, _ => Some acc
       end.

(** Count all mutual nearest neighbors between datasets. *)
Definition score_tables (datasets : list np.ndarray) (table : match_table)
    : option (match_table * score_table) :=
  foldlM (score_pair datasets table) (∅, []) (index_pairs (length datasets)).

(** Fill table of alignment scores.  The printed copy [table_print] of the
    scores is left out. *)
Definition find_alignments_table (datasets : list np.ndarray) (knn : nat)
    (approx prenormalized : bool) : option (score_table * match_table) :=
  let datasets := if prenormalized then datasets else normalize <$> datasets in
  table ← fill_tables datasets knn approx;
  '(matches, table1) ← score_tables datasets table;
  Some (table1, matches).

(** [sorted(items, key=operator.itemgetter(1))]: a stable sort by score, as
    an insertion sort that puts an item before the items of equal score that
    follow it in the input. *)
Fixpoint insert_by_score (x : (nat * nat) * Q) (l : score_table) : score_table :=
  match l with
  | [] => [x]
  | y :: l' => if Qle_bool x.2 y.2 then x :: l else y :: insert_by_score x l'
  end.

Definition sorted_by_score (items : score_table) : score_table :=
  foldr insert_by_score [] items.

(** The comprehension of [find_alignments], with the scores kept. *)
Definition alignments_scored (table1 : score_table) (alpha : Q) : score_table :=
  filter (λ kv, negb (Qle_bool kv.2 alpha)) (reverse (sorted_by_score table1)).

Definition alignments_of (table1 : score_table) (alpha : Q) : list (nat * nat) :=
  fst <$> alignments_scored table1 alpha.

(** Find the matching pairs of cells between datasets. *)
Definition find_alignments (datasets : list np.ndarray) (knn : nat)
    (approx : bool) (alpha : Q) (prenormalized : bool)
    : option (list (nat * nat) * match_table) :=
  '(table1, matches) ← find_alignments_table datasets knn approx prenormalized;
  Some (alignments_of table1 alpha, matches).

(** [[ panoramas[p] for p in range(len(panoramas)) if i in panoramas[p] ]].
    The comprehension collects references to the member lists; a reference
    is the position [p], so that a later update through it is an update of
    [panoramas] itself. *)
Definition containing (panoramas : list (list nat)) (i : nat) : list nat :=
  filter (λ p, i ∈ default [] (panoramas !! p)) (seq 0 (length panoramas)).

(** The body of the loop over the alignments in [connect]. *)
Definition connect_step (acc : list (list nat) * gset nat) (ij : nat * nat)
    : option (list (list nat) * gset nat) :=
  let '(panoramas, connected) := acc in
  let '(i, j) := ij in
  let panoramas_i := containing panoramas i in
  guard (length panoramas_i ≤ 1);;
  let panoramas_j := containing panoramas j in
  guard (length panoramas_j ≤ 1);;
  let '(panoramas, panoramas_i) :=
    if decide (length panoramas_i = 0 ∧ length panoramas_j = 0)
    then (panoramas ++ [[i]], [length panoramas])
    else (panoramas, panoramas_i) in
  panoramas ←
    match panoramas_i, panoramas_j with
    | [], [] => None
    | [], pj :: _ => Some (alter (λ l, l ++ [i]) pj panoramas)
    | pi :: _, [] => Some (alter (λ l, l ++ [j]) pi panoramas)
    | pi :: _, pj :: _ =>
        l_i ← panoramas !! pi;
        l_j ← panoramas !! pj;
        if decide (l_i ≠ l_j)
        then remove_first l_j (alter (λ l, l ++ l_j) pi panoramas)
        else Some panoramas
    end;
  Some (panoramas, {[ j ]} ∪ ({[ i ]} ∪ connected)).

(** The panoramas for a given list of alignments over [n] datasets. *)
Definition connect_alignments (n : nat) (alignments : list (nat * nat))
    : option (list (list nat)) :=
  '(panoramas, connected) ← foldlM connect_step ([], ∅) alignments;
  Some (foldl (λ panoramas i,
                 if decide (i ∈ connected) then panoramas else panoramas ++ [[i]])
              panoramas (seq 0 n)).

(** Find connections between datasets to identify panoramas. *)
Definition connect (datasets : list np.ndarray) (knn : nat) (approx : bool)
    (alpha : Q) : option (list (list nat)) :=
  '(alignments, _) ← find_alignments datasets knn approx alpha false;
  connect_alignments (length datasets) alignments.

(** To reduce memory usage, split bias computation into batches: the loop
    of [batch_bias].  Each turn with a positive [batch_size] moves [base]
    forward, so [fuel = match_ds.shape[0]] turns are enough; running out of
    fuel stands for the loop that never ends ([batch_size = 0]). *)
Fixpoint batch_loop (fuel : nat) (curr_ds match_ds bias : np.ndarray)
    (batch_size : nat) (gamma : R) (base : nat)
    (avg_bias : np.ndarray) (denom : list R) : option (np.ndarray * list R) :=
  if decide (base < np.shape0 match_ds) then
    match fuel with
    | 0 => None
    | S fuel' =>
        let batch_idx :=
          py_range base (Nat.min (base + batch_size) (np.shape0 match_ds)) in
        chunk ← np.take_rows match_ds batch_idx;
        weights ← sklearn.rbf_kernel curr_ds chunk gamma;
        bias_chunk ← np.take_rows bias batch_idx;
        num ← np.dot weights bias_chunk;
        avg_bias ← np.add avg_bias num;
        denom ← np.vadd denom (np.sum_axis1 weights);
        batch_loop fuel' curr_ds match_ds bias batch_size gamma
                   (base + batch_size) avg_bias denom
    end
  else Some (avg_bias, denom).

Definition batch_bias (curr_ds match_ds bias : np.ndarray)
    (batch_size : option nat) (sigma : R) : option np.ndarray :=
  match batch_size with
  | None =>
      weights ← sklearn.rbf_kernel curr_ds match_ds (0.5 * sigma)%R;
      num ← np.dot weights bias;
      np.div num
        (np.transpose (np.tile (np.sum_axis1 weights) (np.shape1 curr_ds)))
  | Some batch_size =>
      let avg_bias := np.zeros (np.shape0 curr_ds) (np.shape1 curr_ds) in
      let denom := np.zeros1 (np.shape0 curr_ds) in
      '(avg_bias, denom) ←
         batch_loop (np.shape0 match_ds) curr_ds match_ds bias batch_size
                    (0.5 * sigma)%R 0 avg_bias denom;
      np.div avg_bias (np.transpose (np.tile denom (np.shape1 curr_ds)))
  end.

(** Compute nonlinear translation vectors between dataset and a reference.
    With [cn] the source converts between sparse and dense storage, which
    does not change the entries. *)
Definition transform (curr_ds curr_ref : np.ndarray) (ds_ind ref_ind : list Z)
    (sigma : R) (cn : bool) (batch_size : option nat) : option np.ndarray :=
  match_ds ← np.take_rows curr_ds ds_ind;
  match_ref ← np.take_rows curr_ref ref_ind;
  bias ← np.sub match_ref match_ds;
  batch_bias curr_ds match_ds bias batch_size sigma.

(** [ds_assembled[i]] once the key is present. *)
Definition visits (counts : gmap nat nat) (i : nat) : nat := default 0 (counts !! i).

(** [if not i in ds_assembled: ds_assembled[i] = 0] and then
    [ds_assembled[i] += 1]. *)
Definition visit (i : nat) (counts : gmap nat nat) : gmap nat nat :=
  let counts := if decide (i ∈ dom counts) then counts else <[i := 0]> counts in
  alter S i counts.

(** [[ datasets[p] for p in panorama ]], concatenated. *)
Definition concat_members (datasets : list np.ndarray) (panorama : list nat)
    : option np.ndarray :=
  members ← mapM (λ p, datasets !! p) panorama;
  np.concatenate members.

(** The match list of dataset [i] against the concatenation of a panorama:
    the mutual matches of [i] with every member [p], the member side moved
    by the offset [base] of [p] in the concatenation. *)
Definition matches_to_panorama (datasets : list np.ndarray) (matches : match_table)
    (i : nat) (panorama : list nat) : option (list (Z * Z)) :=
  fst <$> foldlM (λ '(match_, base) p,
            ds_p ← datasets !! p;
            let match_ :=
              if decide (i < p ∧ (i, p) ∈ dom matches)
              then match_ ++ ((λ ab, (ab.1, ab.2 + base)%Z)
                                <$> elements (default ∅ (matches !! (i, p))))
              else if decide (p < i ∧ (p, i) ∈ dom matches)
              then match_ ++ ((λ ab, (ab.2, ab.1 + base)%Z)
                                <$> elements (default ∅ (matches !! (p, i))))
              else match_ in
            Some (match_, (base + Z.of_nat (np.shape0 ds_p))%Z))
         ([], 0%Z) panorama.

(** "Map dataset i to panorama j": the branch of [assemble] for a dataset
    [i] without a panorama and the panorama referenced by [pj].  The source
    has this text twice, the second time with [i] and [j] exchanged. *)
Definition map_to_panorama (matches : match_table) (sigma : R)
    (batch_size : option nat) (st : assembly) (i pj : nat) : option assembly :=
  let datasets := st_datasets st in
  panorama ← st_panoramas st !! pj;
  curr_ds ← datasets !! i;
  curr_ref ← concat_members datasets panorama;
  match_ ← matches_to_panorama datasets matches i panorama;
  let ds_ind := fst <$> match_ in
  let ref_ind := snd <$> match_ in
  bias ← transform curr_ds curr_ref ds_ind ref_ind sigma false batch_size;
  corrected ← np.add curr_ds bias;
  let datasets := <[i := corrected]> datasets in
  expr_datasets ←
    match st_expr_datasets st with
    | Some (e :: es) =>
        let expr_datasets := e :: es in
        curr_ds ← expr_datasets !! i;
        curr_ref ← concat_members expr_datasets panorama;
        bias ← transform curr_ds curr_ref ds_ind ref_ind sigma true batch_size;
        corrected ← np.add curr_ds bias;
        Some (Some (<[i := corrected]> expr_datasets))
    | other => Some other
    end;
  Some (mk_assembly datasets expr_datasets
          (alter (λ l, l ++ [i]) pj (st_panoramas st)) (st_ds_assembled st)).

(** "Find base indices into each panorama": the offset of dataset [i] in the
    concatenation of [panorama] (the whole length when [i] is no member). *)
Fixpoint base_index (datasets : list np.ndarray) (i : nat) (panorama : list nat)
    (base : Z) : option Z :=
  match panorama with
  | [] => Some base
  | p :: rest =>
      if decide (p = i) then Some base
      else ds_p ← datasets !! p;
           base_index datasets i rest (base + Z.of_nat (np.shape0 ds_p))%Z
  end.

(** The first loop of "Find matching indices" in the merge branch: the
    matches of [i] and [j], with [i] at its offset [base] in its own
    panorama and [j] at [base_j]. *)
Definition merge_matches_i (datasets : list np.ndarray) (matches : match_table)
    (i j : nat) (base_j : Z) (panorama_i : list nat) (match_ : list (Z * Z))
    : option (list (Z * Z)) :=
  fst <$> foldlM (λ '(match_, base) p,
            ds_p ← datasets !! p;
            let match_ :=
              if decide (p = i ∧ j < p ∧ (j, p) ∈ dom matches)
              then match_ ++ ((λ ab, (ab.2 + base, ab.1 + base_j)%Z)
                                <$> elements (default ∅ (matches !! (j, p))))
              else if decide (p = i ∧ p < j ∧ (p, j) ∈ dom matches)
              then match_ ++ ((λ ab, (ab.1 + base, ab.2 + base_j)%Z)
                                <$> elements (default ∅ (matches !! (p, j))))
              else match_ in
            Some (match_, (base + Z.of_nat (np.shape0 ds_p))%Z))
         (match_, 0%Z) panorama_i.

(** The second loop, over the panorama of [j]. *)
Definition merge_matches_j (datasets : list np.ndarray) (matches : match_table)
    (i j : nat) (base_i : Z) (panorama_j : list nat) (match_ : list (Z * Z))
    : option (list (Z * Z)) :=
  fst <$> foldlM (λ '(match_, base) p,
            ds_p ← datasets !! p;
            let match_ :=
              if decide (p = j ∧ i < p ∧ (i, p) ∈ dom matches)
              then match_ ++ ((λ ab, (ab.1 + base_i, ab.2 + base)%Z)
                                <$> elements (default ∅ (matches !! (i, p))))
              else if decide (p = j ∧ p < i ∧ (p, i) ∈ dom matches)
              then match_ ++ ((λ ab, (ab.2 + base_i, ab.1 + base)%Z)
                                <$> elements (default ∅ (matches !! (p, i))))
              else match_ in
            Some (match_, (base + Z.of_nat (np.shape0 ds_p))%Z))
         (match_, 0%Z) panorama_j.

(** Writing the corrected concatenation back, member by member:
    [datasets[p] = curr_ds[base:(base + n_cells), :]]. *)
Definition write_back (curr_ds : np.ndarray) (datasets : list np.ndarray)
    (panorama : list nat) : option (list np.ndarray) :=
  fst <$> foldlM (λ '(datasets, base) p,
            ds_p ← datasets !! p;
            let n_cells := np.shape0 ds_p in
            Some (<[p := np.slice_rows curr_ds base (base + n_cells)]> datasets,
                  base + n_cells))
         (datasets, 0) panorama.

(** "Merge two panoramas together": the last branch of [assemble], taken
    whenever both datasets have a panorama. *)
Definition merge_panoramas (matches : match_table) (sigma : R)
    (batch_size : option nat) (realign : bool) (st : assembly) (i j pi pj : nat)
    : option assembly :=
  let datasets := st_datasets st in
  let panoramas := st_panoramas st in
  panorama_i ← panoramas !! pi;
  panorama_j ← panoramas !! pj;
  curr_ds ← concat_members datasets panorama_i;
  curr_ref ← concat_members datasets panorama_j;
  base_i ← base_index datasets i panorama_i 0;
  base_j ← base_index datasets j panorama_j 0;
  match_ ← merge_matches_i datasets matches i j base_j panorama_i [];
  match_ ← merge_matches_j datasets matches i j base_i panorama_j match_;
  let ds_ind := fst <$> match_ in
  let ref_ind := snd <$> match_ in
  bias ← transform curr_ds curr_ref ds_ind ref_ind sigma false batch_size;
  curr_ds ← np.add curr_ds bias;
  datasets ← write_back curr_ds datasets panorama_i;
  expr_datasets ←
    match st_expr_datasets st with
    | Some expr_datasets =>
        if realign then
          curr_ds ← concat_members expr_datasets panorama_i;
          curr_ref ← concat_members expr_datasets panorama_j;
          bias ← transform curr_ds curr_ref ds_ind ref_ind sigma true batch_size;
          curr_ds ← np.add curr_ds bias;
          Some <$> write_back curr_ds expr_datasets panorama_i
        else Some (Some expr_datasets)
    | None => Some None
    end;
  panoramas ←
    (if decide (panorama_i ≠ panorama_j)
     then remove_first panorama_j (alter (λ l, l ++ panorama_j) pi panoramas)
     else Some panoramas);
  Some (mk_assembly datasets expr_datasets panoramas (st_ds_assembled st)).

(** The body of the loop over the alignments in [assemble]. *)
Definition assemble_step (matches : match_table) (sigma : R)
    (batch_size : option nat) (realign : bool) (st : assembly) (ij : nat * nat)
    : option assembly :=
  let '(i, j) := ij in
  let counts := visit j (visit i (st_ds_assembled st)) in
  let st := mk_assembly (st_datasets st) (st_expr_datasets st) (st_panoramas st) counts in
  if decide (VISIT_CAP < visits counts i ∧ VISIT_CAP < visits counts j) then Some st
  else
    let panoramas := st_panoramas st in
    let panoramas_i := containing panoramas i in
    guard (length panoramas_i ≤ 1);;
    let panoramas_j := containing panoramas j in
    guard (length panoramas_j ≤ 1);;
    if decide (length panoramas_i = 0 ∧ length panoramas_j = 0) then
      ds_i ← st_datasets st !! i;
      ds_j ← st_datasets st !! j;
      let '(i, j) := if decide (np.shape0 ds_i < np.shape0 ds_j) then (j, i) else (i, j) in
      let st := mk_assembly (st_datasets st) (st_expr_datasets st)
                            (panoramas ++ [[i]]) counts in
      map_to_panorama matches sigma batch_size st j (length panoramas)
    else
      match panoramas_i, panoramas_j with
      | [], [] => None
      | [], pj :: _ => map_to_panorama matches sigma batch_size st i pj
      | pi :: _, [] => map_to_panorama matches sigma batch_size st j pi
      | pi :: _, pj :: _ =>
          merge_panoramas matches sigma batch_size realign st i j pi pj
      end.

(** The loop of [assemble] over given alignments. *)
Definition assemble_loop (matches : match_table) (sigma : R)
    (batch_size : option nat) (realign : bool) (st : assembly)
    (alignments : list (nat * nat)) : option assembly :=
  foldlM (assemble_step matches sigma batch_size realign) st alignments.

(** Finds alignments between datasets and uses them to construct panoramas.
    "Merges" datasets by correcting gene expression values. *)
Definition assemble (datasets : list np.ndarray) (knn : nat) (sigma : R)
    (approx : bool) (alpha : Q) (expr_datasets : option (list np.ndarray))
    (batch_size : option nat) (realign : bool) : option assembly :=
  if decide (length datasets = 1)
  then Some (mk_assembly datasets expr_datasets [] ∅)
  else
    '(alignments, matches) ← find_alignments datasets knn approx alpha false;
    assemble_loop matches sigma batch_size realign
                  (mk_assembly datasets expr_datasets [] ∅) alignments.


(** ** Notions used to state the properties *)

(** The two orders on scored pairs. *)
Definition ascending (x y : (nat * nat) * Q) : Prop := (x.2 <= y.2)%Q.
Definition descending (x y : (nat * nat) * Q) : Prop := (y.2 <= x.2)%Q.

(** The number of rows of the concatenation of [datasets]. *)
Definition total_cells (datasets : list np.ndarray) : nat :=
  sum_list (np.shape0 <$> datasets).

(** The intervals that [build_itrees] adds for [datasets], the first of them
    starting at [pos] and tagged with [f j pos]. *)
Fixpoint itree_intervals {D} (f : nat → Z → D) (datasets : list np.ndarray)
    (j : nat) (pos : Z) : IntervalTree.t D :=
  match datasets with
  | [] => []
  | ds :: rest =>
      let n_cells := Z.of_nat (np.shape0 ds) in
      IntervalTree.mkInterval pos (pos + n_cells) (f j pos)
        :: itree_intervals f rest (S j) (pos + n_cells)
  end.

(** The member lists of [panoramas] are duplicate-free, pairwise disjoint and
    cover exactly the set [members]: the concatenation of the lists has no
    duplicate and the same elements as [members]. *)
Definition partition_of (panoramas : list (list nat)) (members : gset nat) : Prop :=
  NoDup (concat panoramas) ∧ ∀ x, x ∈ concat panoramas ↔ x ∈ members.

(** [panoramas] partitions the dataset indices [0 .. n-1]: every index is in
    exactly one panorama, and two different panoramas share no element. *)
Definition is_partition (panoramas : list (list nat)) (n : nat) : Prop :=
  (∀ d, d < n → length (filter (λ l, d ∈ l) panoramas) = 1)
  ∧ (∀ p q l l' x, p ≠ q → panoramas !! p = Some l → panoramas !! q = Some l' →
       x ∈ l → x ∈ l' → False).

(** Every entry [table[(i, j)]] belongs to an existing, non-empty dataset
    [i], and the first component of each of its pairs is a row of it. *)
Definition table_rows_ok (datasets : list np.ndarray) (table : match_table) : Prop :=
  ∀ i j m, table !! (i, j) = Some m →
    ∃ ds_i, datasets !! i = Some ds_i
            ∧ 0 < np.shape0 ds_i
            ∧ ∀ d x, (d, x) ∈ m → (0 ≤ d < Z.of_nat (np.shape0 ds_i))%Z.

(** The mutual match set of the pair [(i, j)]:
    [table[(i, j)] & set([ (b, a) for a, b in table[(j, i)] ])]. *)
Definition mutual_of (table : match_table) (i j : nat) : gset (Z * Z) :=
  default ∅ (table !! (i, j)) ∩ swap_pairs (default ∅ (table !! (j, i))).

(** The alignment score in the words of the design document: the larger of
    (distinct matched points in [i] / size of [i]) and (distinct matched
    points in [j] / size of [j]). *)
Definition alignment_score (size_i size_j : nat) (mutual : gset (Z * Z)) : Q :=
  Qmax (inject_Z (Z.of_nat (distinct_fst mutual)) / inject_Z (Z.of_nat size_i))
       (inject_Z (Z.of_nat (distinct_snd mutual)) / inject_Z (Z.of_nat size_j)).

(** An entry [((i, j), v)] of the score table is as the design document
    describes it: [i < j], both directed tables exist, and [v] is the
    alignment score of the mutual matches, a number between 0 and 1. *)
Definition score_entry_ok (datasets : list np.ndarray) (table : match_table)
    (kv : (nat * nat) * Q) : Prop :=
  let '((i, j), v) := kv in
  i < j < length datasets
  ∧ is_Some (table !! (i, j)) ∧ is_Some (table !! (j, i))
  ∧ ∃ ds_i ds_j,
      datasets !! i = Some ds_i ∧ datasets !! j = Some ds_j
      ∧ 0 < np.shape0 ds_i ∧ 0 < np.shape0 ds_j
      ∧ (v == alignment_score (np.shape0 ds_i) (np.shape0 ds_j) (mutual_of table i j))%Q
      ∧ (0 <= v <= 1)%Q.

(** The kernel weights of one point [x] against the points [ys]. *)
Definition kernel_row (gamma : R) (x : list R) (ys : list (list R)) : list R :=
  (λ y, exp (- gamma * sklearn.sqdist x y)) <$> ys.

(** Row by row, the weighted sums of the bias vectors [bs] (with [d]
    columns) and the sums of the weights, for the points [xs] against the
    matched points [ys]. *)
Definition numerator_rows (gamma : R) (xs ys : list (list R)) (d : nat)
    (bs : list (list R)) : list (list R) :=
  (λ x, (λ c, np.inner (kernel_row gamma x ys) ((λ r, nth c r 0%R) <$> bs))
          <$> seq 0 d) <$> xs.

Definition denominator_rows (gamma : R) (xs ys : list (list R)) : list R :=
  (λ x, np.vsum (kernel_row gamma x ys)) <$> xs.

(** The result of [batch_bias]: every weighted sum divided by the sum of the
    weights of its row. *)
Definition smoothed_bias (curr_ds match_ds bias : np.ndarray) (sigma : R) : np.ndarray :=
  np.mk_ndarray (np.shape1 curr_ds)
    (zip_with (zip_with Rdiv)
       (numerator_rows (0.5 * sigma) (np.data curr_ds) (np.data match_ds)
          (np.shape1 curr_ds) (np.data bias))
       ((λ s, replicate (np.shape1 curr_ds) s)
          <$> denominator_rows (0.5 * sigma) (np.data curr_ds) (np.data match_ds))).

(** The Nadaraya–Watson estimate in the words of the design document.  The
    weight between a point [p] of the moving block and a matched moving-side
    point [m] is [exp(-0.5·sigma·‖p − m‖²)]. *)
Definition sq_norm (v : list R) : R := np.vsum ((λ a, a * a)%R <$> v).

Definition kernel_weight (sigma : R) (p m : list R) : R :=
  exp (- 0.5 * sigma * sq_norm (zip_with Rminus p m)).

(** The smoothed bias at [p] in column [c]: the average of the bias vectors
    [r − m] of the matched pairs [(m, r)] (moving-side point, reference-side
    point), weighted by [kernel_weight sigma p m] and normalized by the sum
    of the weights. *)
Definition nadaraya_watson (sigma : R) (p : list R)
    (matched : list (list R * list R)) (c : nat) : R :=
  (np.vsum ((λ mr, kernel_weight sigma p mr.1 * (nth c mr.2 0 - nth c mr.1 0)) <$> matched)
   / np.vsum ((λ mr, kernel_weight sigma p mr.1) <$> matched))%R.

(** The mutual matches of the datasets [i] and [j] as pairs (row of [i], row
    of [j]).  The match table holds them under the key with the smaller
    dataset index first. *)
Definition matches_between (matches : match_table) (i j : nat) : list (Z * Z) :=
  if decide (i < j) then elements (default ∅ (matches !! (i, j)))
  else if decide (j < i)
       then (λ ab, (ab.2, ab.1)) <$> elements (default ∅ (matches !! (j, i)))
       else [].

(** Matched rows moved to where their datasets start in a concatenation. *)
Definition shifted (base_i base_j : Z) (m : list (Z * Z)) : list (Z * Z) :=
  (λ ab, (ab.1 + base_i, ab.2 + base_j)%Z) <$> m.

(** ** Notions used to state further properties *)

(** Two dataset indices share a panorama. *)
Definition together (panoramas : list (list nat)) (x y : nat) : Prop :=
  ∃ l, l ∈ panoramas ∧ x ∈ l ∧ y ∈ l.

(** Two dataset indices are joined by a chain of alignment edges, taken in
    either direction. *)
Definition linked (alignments : list (nat * nat)) : relation nat :=
  rtsc (λ x y, (x, y) ∈ alignments).

(** Every panorama of [panoramas] is contained in one of [panoramas']. *)
Definition grown (panoramas panoramas' : list (list nat)) : Prop :=
  ∀ l, l ∈ panoramas → ∃ l', l' ∈ panoramas' ∧ l ⊆ l'.

(** Any two members of one panorama are joined by a chain of edges. *)
Definition chained (alignments : list (nat * nat)) (panoramas : list (list nat))
    : Prop :=
  ∀ l x y, l ∈ panoramas → x ∈ l → y ∈ l → linked alignments x y.

(** An entry [matches[(i, j)]] is the mutual match set of a pair [i < j]
    for which both directed tables exist. *)
Definition matches_entry_ok (table : match_table) (i j : nat) (m : gset (Z * Z))
    : Prop :=
  i < j ∧ is_Some (table !! (i, j)) ∧ is_Some (table !! (j, i))
  ∧ m = mutual_of table i j.

(** The arrays of two lists have the same shapes, position by position. *)
Definition same_shapes (ds ds' : list np.ndarray) : Prop :=
  Forall2 (λ a b, np.shape0 b = np.shape0 a ∧ np.shape1 b = np.shape1 a) ds ds'.

(** The number of rows of [datasets[p]]. *)
Definition rows_at (datasets : list np.ndarray) (p : nat) : nat :=
  from_option np.shape0 0 (datasets !! p).

(** ** [assemble_accum] *)

(** The body of the loop of [assemble_accum] for the index [i]: dataset
    [j = i + 1] is corrected against the concatenation of the datasets
    before it. *)
Definition accum_step (knn : nat) (sigma : R) (approx : bool)
    (batch_size : option nat) (datasets : list np.ndarray) (i : nat)
    : option (list np.ndarray) :=
  let j := i + 1 in
  ds1 ← datasets !! j;
  ds2 ← np.concatenate (take (i + 1) datasets);
  match_ ← mnn ds1 ds2 knn approx;
  let ds_ind := fst <$> elements match_ in
  let ref_ind := snd <$> elements match_ in
  bias ← transform ds1 ds2 ds_ind ref_ind sigma false batch_size;
  corrected ← np.add ds1 bias;
  Some (<[j := corrected]> datasets).

(** Non-optimal dataset assembly.  Simply accumulate datasets into a
    reference. *)
Definition assemble_accum (datasets : list np.ndarray) (knn : nat) (sigma : R)
    (approx : bool) (batch_size : option nat) : option (list np.ndarray) :=
  if decide (length datasets = 1) then Some datasets
  else foldlM (accum_step knn sigma approx batch_size) datasets
              (seq 0 (length datasets - 1)).

(** Dataset [j] of [result] is the dataset [ds1] corrected against the
    concatenation of the datasets of [result] before it. *)
Definition accumulated (knn : nat) (sigma : R) (approx : bool)
    (batch_size : option nat) (result : list np.ndarray) (j : nat)
    (ds1 : np.ndarray) : Prop :=
  ∃ ds2 match_ bias corrected,
    np.concatenate (take j result) = Some ds2
    ∧ mnn ds1 ds2 knn approx = Some match_
    ∧ transform ds1 ds2 (fst <$> elements match_) (snd <$> elements match_)
        sigma false batch_size = Some bias
    ∧ np.add ds1 bias = Some corrected
    ∧ result !! j = Some corrected.

(** The number of times [d] is an endpoint in a list of edges. *)
Definition degree (alignments : list (nat * nat)) (d : nat) : nat :=
  sum_list_with (λ ij, (if decide (ij.1 = d) then 1 else 0)
                       + (if decide (ij.2 = d) then 1 else 0))
                alignments.

(** * Properties *)


(** *** Thresholding and ordering of the alignments *)

Lemma above_threshold_iff (alpha v : Q) :
  negb (Qle_bool v alpha) ↔ (alpha < v)%Q.
Proof.
  destruct (Qle_bool v alpha) eqn:E; simpl.
  - apply Qle_bool_iff in E. split; [done | intros H; by apply Qlt_not_le in H].
  - split; [intros _ | done]. apply Qnot_le_lt. intros H.
    apply Qle_bool_iff in H. congruence.
Qed.

Lemma insert_by_score_perm x l : insert_by_score x l ≡ₚ x :: l.
Proof.
  induction l as [|y l IH]; simpl; [done |].
  destruct (Qle_bool x.2 y.2); [done |].
  rewrite IH. apply Permutation_swap.
Qed.

Lemma sorted_by_score_perm items : sorted_by_score items ≡ₚ items.
Proof.
  induction items as [|x l IH]; simpl; [done |].
  by rewrite insert_by_score_perm, IH.
Qed.

Lemma insert_by_score_sorted x l :
  StronglySorted ascending l → StronglySorted ascending (insert_by_score x l).
Proof.
  induction 1 as [|y l Hl IH Hy]; simpl.
  - repeat constructor.
  - destruct (Qle_bool x.2 y.2) eqn:E.
    + apply Qle_bool_iff in E. constructor; [by constructor |].
      constructor; [done |].
      eapply Forall_impl; [| exact Hy]. intros z Hz. unfold ascending in *.
      by eapply Qle_trans.
    + constructor; [done |].
      rewrite insert_by_score_perm. constructor; [| done].
      unfold ascending. apply Qlt_le_weak, Qnot_le_lt. intros H.
      apply Qle_bool_iff in H. congruence.
Qed.

Lemma sorted_by_score_sorted items : StronglySorted ascending (sorted_by_score items).
Proof.
  induction items as [|x l IH]; simpl; [constructor |].
  by apply insert_by_score_sorted.
Qed.

Lemma StronglySorted_snoc {A} (R : A → A → Prop) l x :
  StronglySorted R l → Forall (λ y, R y x) l → StronglySorted R (l ++ [x]).
Proof.
  induction 1 as [|y l Hl IH Hy]; intros Hx; simpl.
  - repeat constructor.
  - inversion_clear Hx as [|? ? Hyx Hx']. constructor; [by apply IH |].
    apply Forall_app. split; [done | by constructor].
Qed.

Lemma StronglySorted_reverse {A} (R : A → A → Prop) l :
  StronglySorted R l → StronglySorted (flip R) (reverse l).
Proof.
  induction 1 as [|y l Hl IH Hy]; [constructor |].
  rewrite reverse_cons. apply StronglySorted_snoc; [done |].
  by rewrite Forall_reverse.
Qed.

Lemma StronglySorted_filter {A} (R : A → A → Prop) (P : A → Prop)
    `{∀ x, Decision (P x)} l :
  StronglySorted R l → StronglySorted R (filter P l).
Proof.
  induction 1 as [|y l Hl IH Hy]; [constructor |].
  rewrite filter_cons. case_decide; [| done].
  constructor; [done |].
  rewrite list.Forall_forall in Hy |- *.
  intros z Hz%list_elem_of_filter. apply Hy, Hz.
Qed.

Lemma filter_sublist_mono {A} (P Q : A → Prop)
    `{∀ x, Decision (P x)} `{∀ x, Decision (Q x)} l :
  (∀ x, P x → Q x) → filter P l `sublist_of` filter Q l.
Proof.
  intros HPQ. induction l as [|x l IH]; [done |].
  rewrite !filter_cons. repeat case_decide.
  - by constructor.
  - naive_solver.
  - by constructor.
  - done.
Qed.

Lemma alignments_scored_spec (table1 : score_table) (alpha : Q) :
  alignments_scored table1 alpha ≡ₚ filter (λ kv, alpha < kv.2)%Q table1
  ∧ StronglySorted descending (alignments_scored table1 alpha).
Proof.
  split.
  - unfold alignments_scored.
    rewrite reverse_Permutation, sorted_by_score_perm.
    induction table1 as [|kv l IH]; [done |].
    rewrite !filter_cons.
    destruct (decide (negb (Qle_bool kv.2 alpha))) as [Hb|Hb];
      destruct (decide (alpha < kv.2)%Q) as [Hq|Hq];
      rewrite above_threshold_iff in Hb; try done.
    by rewrite IH.
  - unfold alignments_scored. apply StronglySorted_filter.
    apply (StronglySorted_reverse ascending), sorted_by_score_sorted.
Qed.

(** C4.  For every score table that [find_alignments_table] computes,
    [find_alignments] returns, next to the matches of the table, exactly the
    pairs whose score is strictly greater than the threshold [alpha] (as
    many times as the table holds them, and none with a score at most
    [alpha]), and it returns them sorted by score in descending order. *)
Theorem find_alignments_threshold_sorted (datasets : list np.ndarray) (knn : nat)
    (approx : bool) (alpha : Q) (prenormalized : bool)
    (table1 : score_table) (matches : match_table) :
  find_alignments_table datasets knn approx prenormalized = Some (table1, matches) →
  ∃ scored : score_table,
    find_alignments datasets knn approx alpha prenormalized
    = Some (fst <$> scored, matches)
    ∧ scored ≡ₚ filter (λ kv, alpha < kv.2)%Q table1
    ∧ StronglySorted descending scored.
Proof.
  intros Htable. exists (alignments_scored table1 alpha).
  split; [| apply alignments_scored_spec].
  unfold find_alignments. rewrite Htable. done.
Qed.

(** C8.  Decreasing [alpha] cannot shrink the result: for
    [alpha1 <= alpha2] every edge returned with threshold [alpha2] is also
    returned with threshold [alpha1], and the number of returned edges does
    not decrease. *)
Theorem find_alignments_alpha_monotone (table1 : score_table) (alpha1 alpha2 : Q) :
  (alpha1 <= alpha2)%Q →
  alignments_of table1 alpha2 ⊆ alignments_of table1 alpha1
  ∧ length (alignments_of table1 alpha2) ≤ length (alignments_of table1 alpha1).
Proof.
  intros Hle.
  assert (alignments_of table1 alpha2 `sublist_of` alignments_of table1 alpha1) as Hsub.
  { unfold alignments_of, alignments_scored. apply fmap_sublist.
    apply filter_sublist_mono. intros kv. rewrite !above_threshold_iff.
    intros H. by eapply Qle_lt_trans. }
  split; [| by apply sublist_length].
  intros x Hx. by eapply elem_of_sublist.
Qed.

(** *** Mutual nearest neighbours *)

Lemma elem_of_swap_pairs (m : gset (Z * Z)) (a b : Z) :
  (a, b) ∈ swap_pairs m ↔ (b, a) ∈ m.
Proof.
  unfold swap_pairs. rewrite elem_of_list_to_set, list_elem_of_fmap. split.
  - intros [[b' a'] [Heq Hin]]. simpl in Heq. inversion Heq; subst.
    by apply elem_of_elements.
  - intros Hin. exists (b, a). split; [done | by apply elem_of_elements].
Qed.

(** C3.  Every pair [(a, b)] of the mutual match set returned by [mnn] is
    in the directional match set from the first dataset to the second, and
    its reverse [(b, a)] is in the directional match set from the second
    dataset to the first. *)
Theorem mnn_mutual (ds1 ds2 : np.ndarray) (knn : nat) (approx : bool)
    (mutual : gset (Z * Z)) (a b : Z) :
  mnn ds1 ds2 knn approx = Some mutual →
  (a, b) ∈ mutual →
  ∃ match1 match2,
    directional ds1 ds2 knn approx = Some match1
    ∧ directional ds2 ds1 knn approx = Some match2
    ∧ (a, b) ∈ match1 ∧ (b, a) ∈ match2.
Proof.
  unfold mnn. intros Hmnn Hab.
  destruct (directional ds1 ds2 knn approx) as [match1|]; [| done].
  destruct (directional ds2 ds1 knn approx) as [match2|]; [| done].
  simpl in Hmnn. injection Hmnn as <-.
  apply elem_of_intersection in Hab as [H1 H2].
  exists match1, match2. split_and!; [done | done | done |].
  by apply elem_of_swap_pairs.
Qed.

(** *** The visit cap of [assemble] *)

(** C9.  When, after the two increments, the visit counters of both [i] and
    [j] exceed the cap of 3, the edge [(i, j)] is skipped: the step succeeds
    and changes neither a coordinate matrix, nor an expression matrix, nor
    the panoramas; only the counters are updated. *)
Theorem assemble_visit_cap (matches : match_table) (sigma : R)
    (batch_size : option nat) (realign : bool) (st : assembly) (i j : nat) :
  3 < visits (visit j (visit i (st_ds_assembled st))) i →
  3 < visits (visit j (visit i (st_ds_assembled st))) j →
  ∃ st',
    assemble_step matches sigma batch_size realign st (i, j) = Some st'
    ∧ st_datasets st' = st_datasets st
    ∧ st_expr_datasets st' = st_expr_datasets st
    ∧ st_panoramas st' = st_panoramas st
    ∧ st_ds_assembled st' = visit j (visit i (st_ds_assembled st)).
Proof.
  intros Hi Hj. unfold assemble_step, VISIT_CAP.
  rewrite decide_True by done. eauto 10.
Qed.

(** *** The interval lookup of [fill_table] *)

Lemma foldlM_cons {A B} (f : B → A → option B) (b : B) (x : A) (l : list A) :
  foldlM f b (x :: l) = f b x ≫= λ b', foldlM f b' l.
Proof. reflexivity. Qed.

Lemma foldlM_is_Some {A B} (f : B → A → option B) (l : list A) (b : B) :
  (∀ b x, x ∈ l → is_Some (f b x)) → is_Some (foldlM f b l).
Proof.
  revert b. induction l as [|x l IH]; intros b Hf; simpl; [by eexists |].
  destruct (Hf b x) as [b' Hb']; [by left |]. rewrite Hb'. simpl.
  apply IH. intros b0 y Hy. apply Hf. by right.
Qed.

Lemma length_concat_data (l : list np.ndarray) :
  length (concat (np.data <$> l)) = total_cells l.
Proof.
  unfold total_cells. induction l as [|x l IH]; [reflexivity |].
  rewrite !fmap_cons. simpl. rewrite length_app. by rewrite IH.
Qed.

Lemma concatenate_shape0 (datasets : list np.ndarray) (a : np.ndarray) :
  np.concatenate datasets = Some a → np.shape0 a = total_cells datasets.
Proof.
  unfold np.concatenate. destruct datasets as [|d ds]; [done |].
  destruct (forallb _ _); [| done]. intros [= <-].
  exact (length_concat_data (d :: ds)).
Qed.

Lemma build_itrees_intervals (datasets : list np.ndarray) (base_ds j : nat) (pos : Z)
    (t1 : IntervalTree.t nat) (t2 : IntervalTree.t Z) :
  Forall (λ ds, 0 < np.shape0 ds) datasets →
  Forall (λ iv, IntervalTree.end_ iv ≤ pos)%Z t1 →
  Forall (λ iv, IntervalTree.end_ iv ≤ pos)%Z t2 →
  build_itrees datasets base_ds j pos t1 t2
  = Some (t1 ++ itree_intervals (λ j _, base_ds + j) datasets j pos,
          t2 ++ itree_intervals (λ _ pos, pos) datasets j pos).
Proof.
  intros Hne. revert j pos t1 t2.
  induction Hne as [|ds rest Hds Hrest IH]; intros j pos t1 t2 H1 H2; simpl.
  { by rewrite !app_nil_r. }
  assert (∀ D (d : D) (t : IntervalTree.t D),
            Forall (λ iv, IntervalTree.end_ iv ≤ pos)%Z t →
            IntervalTree.mkInterval pos (pos + Z.of_nat (np.shape0 ds)) d ∉ t) as Hfresh.
  { intros D d t Ht Hin. rewrite list.Forall_forall in Ht.
    specialize (Ht _ Hin). simpl in Ht. lia. }
  unfold IntervalTree.setitem.
  rewrite decide_False by by apply Hfresh.
  rewrite decide_False by lia. simpl.
  rewrite decide_False by by apply Hfresh.
  rewrite decide_False by lia. simpl.
  rewrite IH.
  - by rewrite <- !app_assoc.
  - apply Forall_app. split; [| repeat constructor; simpl; lia].
    eapply Forall_impl; [| exact H1]. simpl. intros; lia.
  - apply Forall_app. split; [| repeat constructor; simpl; lia].
    eapply Forall_impl; [| exact H2]. simpl. intros; lia.
Qed.

Lemma at_itree_intervals_before {D} (f : nat → Z → D) (datasets : list np.ndarray)
    (j : nat) (pos r : Z) :
  (r < pos)%Z → IntervalTree.at_ r (itree_intervals f datasets j pos) = [].
Proof.
  revert j pos. induction datasets as [|ds rest IH]; intros j pos Hr; [done |].
  simpl. unfold IntervalTree.at_. rewrite filter_cons. simpl.
  rewrite decide_False by lia. apply IH. lia.
Qed.

Lemma at_itree_intervals_unique {D} (f : nat → Z → D) (datasets : list np.ndarray)
    (j : nat) (pos r : Z) :
  (pos ≤ r < pos + Z.of_nat (total_cells datasets))%Z →
  ∃ iv, IntervalTree.at_ r (itree_intervals f datasets j pos) = [iv]
        ∧ (pos ≤ IntervalTree.begin iv ≤ r)%Z
        ∧ (r < IntervalTree.end_ iv)%Z
        ∧ ∃ k, IntervalTree.data iv = f (j + k) (IntervalTree.begin iv)
               ∧ k < length datasets.
Proof.
  revert j pos. induction datasets as [|ds rest IH]; intros j pos Hr.
  { unfold total_cells in Hr. simpl in Hr. lia. }
  unfold total_cells in Hr. rewrite fmap_cons in Hr. simpl in Hr.
  fold (total_cells rest) in Hr.
  simpl. unfold IntervalTree.at_. rewrite filter_cons. simpl.
  destruct (decide (pos ≤ r < pos + Z.of_nat (np.shape0 ds))%Z) as [Hin|Hout].
  - eexists. split.
    + f_equal. apply (at_itree_intervals_before f rest (S j)). lia.
    + simpl. split; [lia |]. split; [lia |]. exists 0. split; [| lia].
      by rewrite Nat.add_0_r.
  - destruct (IH (S j) (pos + Z.of_nat (np.shape0 ds))%Z) as (iv & Hiv & Hb & He & k & Hk & Hlt).
    { lia. }
    exists iv. split; [exact Hiv |]. split; [lia |]. split; [done |].
    exists (S k). split; [| simpl; lia].
    by rewrite Hk, Nat.add_succ_comm.
Qed.

Lemma store_match_is_Some (datasets : list np.ndarray) (base_ds i : nat)
    (table : match_table) (d r : Z) :
  (0 ≤ r < Z.of_nat (total_cells datasets))%Z →
  is_Some (store_match (itree_intervals (λ j _, base_ds + j) datasets 0 0%Z)
                       (itree_intervals (λ _ pos, pos) datasets 0 0%Z)
                       i table (d, r)).
Proof.
  intros Hr. unfold store_match.
  destruct (at_itree_intervals_unique (λ j _, base_ds + j) datasets 0 0%Z r)
    as (iv1 & -> & _); [lia |].
  destruct (at_itree_intervals_unique (λ (_ : nat) (pos : Z), pos) datasets 0 0%Z r)
    as (iv2 & -> & Hb & _ & k & Hk & _); [lia |].
  simpl. rewrite option_guard_True by (rewrite Hk; lia). by eexists.
Qed.

(** C10.  In [fill_table], when every dataset of the reference list is
    non-empty and every neighbour index returned by the search lies in
    [0, total reference size), the two interval trees are built, every
    matched global offset [r] lies in exactly one interval of each of them
    (both [len(interval) == 1] assertions hold), the owner is one of the
    reference datasets, the recovered local offset [r - base] is not
    negative, and so [fill_table] runs to its end. *)
Theorem fill_table_interval_lookup (table : match_table) (i : nat)
    (curr_ds : np.ndarray) (datasets : list np.ndarray) (base_ds knn : nat)
    (approx : bool) (curr_ref : np.ndarray) (match_ : gset (Z * Z)) :
  Forall (λ ds, 0 < np.shape0 ds) datasets →
  np.concatenate datasets = Some curr_ref →
  (if approx then nn_approx curr_ds curr_ref knn manhattan 10
   else nn curr_ds curr_ref knn 1) = Some match_ →
  (∀ d r, (d, r) ∈ match_ → (0 ≤ r < Z.of_nat (np.shape0 curr_ref))%Z) →
  ∃ itree_ds_idx itree_pos_base,
    build_itrees datasets base_ds 0 0 IntervalTree.empty IntervalTree.empty
    = Some (itree_ds_idx, itree_pos_base)
    ∧ (∀ d r, (d, r) ∈ match_ →
         ∃ owner start,
           IntervalTree.at_ r itree_ds_idx = [owner]
           ∧ IntervalTree.at_ r itree_pos_base = [start]
           ∧ base_ds ≤ IntervalTree.data owner < base_ds + length datasets
           ∧ (0 ≤ r - IntervalTree.data start)%Z)
    ∧ is_Some (fill_table table i curr_ds datasets base_ds knn approx).
Proof.
  intros Hne Hcat Hsearch Hrange.
  pose proof (concatenate_shape0 _ _ Hcat) as Hshape. rewrite Hshape in Hrange.
  pose proof (build_itrees_intervals datasets base_ds 0 0 [] []
                Hne (Forall_nil _) (Forall_nil _)) as Hbuild.
  simpl in Hbuild.
  eexists _, _. split; [exact Hbuild |]. split.
  - intros d r Hdr. specialize (Hrange d r Hdr).
    destruct (at_itree_intervals_unique (λ j _, base_ds + j) datasets 0 0%Z r)
      as (iv1 & Hiv1 & _ & _ & k1 & Hk1 & Hlt1); [lia |].
    destruct (at_itree_intervals_unique (λ (_ : nat) (pos : Z), pos) datasets 0 0%Z r)
      as (iv2 & Hiv2 & Hb & _ & k2 & Hk2 & _); [lia |].
    exists iv1, iv2. split_and!; [done | done | | | ].
    + rewrite Hk1. lia.
    + rewrite Hk1. lia.
    + rewrite Hk2. lia.
  - unfold fill_table. rewrite Hcat. simpl. rewrite Hsearch. simpl.
    unfold IntervalTree.empty. rewrite Hbuild. simpl.
    apply foldlM_is_Some. intros tb [d r] Hdr.
    apply store_match_is_Some, (Hrange d), elem_of_elements, Hdr.
Qed.

(** *** Panoramas *)

Lemma elem_of_concat {A} (ls : list (list A)) (x : A) :
  x ∈ concat ls ↔ ∃ l, l ∈ ls ∧ x ∈ l.
Proof.
  rewrite list_elem_of_In, in_concat. split; intros (l & H1 & H2); exists l.
  - by rewrite !list_elem_of_In.
  - by rewrite <- !list_elem_of_In.
Qed.

Lemma elem_of_concat_lookup {A} (ls : list (list A)) (p : nat) (l : list A) (x : A) :
  ls !! p = Some l → x ∈ l → x ∈ concat ls.
Proof.
  intros Hp Hx. apply elem_of_concat. exists l. split; [| done].
  by eapply list_elem_of_lookup_2.
Qed.

Lemma concat_Permutation {A} (ls ls' : list (list A)) :
  ls ≡ₚ ls' → concat ls ≡ₚ concat ls'.
Proof.
  induction 1 as [|l ls ls' _ IH|l1 l2 ls|ls1 ls2 ls3 _ IH1 _ IH2]; simpl.
  - done.
  - by rewrite IH.
  - rewrite !app_assoc. f_equiv. apply Permutation_app_comm.
  - by etransitivity.
Qed.

Lemma NoDup_concat_lookup {A} (ls : list (list A)) (p q : nat) (l l' : list A) (x : A) :
  NoDup (concat ls) → p ≠ q → ls !! p = Some l → ls !! q = Some l' →
  x ∈ l → x ∈ l' → False.
Proof.
  revert p q. induction ls as [|a ls IH]; intros p q Hnd Hpq Hp Hq Hx Hx'; [done |].
  simpl in Hnd. apply list.NoDup_app in Hnd as (_ & Hdisj & Hnd).
  destruct p as [|p], q as [|q]; simpl in Hp, Hq; simplify_eq.
  - eapply Hdisj; [done |]. by eapply elem_of_concat_lookup.
  - eapply Hdisj; [done |]. by eapply elem_of_concat_lookup.
  - eapply (IH p q); eauto.
Qed.

Lemma concat_alter_app {A} (ls : list (list A)) (p : nat) (l extra : list A) :
  ls !! p = Some l →
  concat (alter (λ l, l ++ extra) p ls) ≡ₚ extra ++ concat ls.
Proof.
  revert p. induction ls as [|a ls IH]; intros p Hp; [done |].
  destruct p as [|p]; simpl in *.
  - rewrite <- app_assoc. rewrite (Permutation_app_comm a).
    rewrite <- !app_assoc. do 1 f_equiv. apply Permutation_app_comm.
  - rewrite (IH p Hp). rewrite !app_assoc. f_equiv. apply Permutation_app_comm.
Qed.

Lemma remove_first_Permutation {A} `{EqDecision A} (x : A) (l l' : list A) :
  remove_first x l = Some l' → l ≡ₚ x :: l'.
Proof.
  revert l'. induction l as [|y l IH]; intros l' H; simpl in H; [done |].
  destruct (decide (y = x)) as [->|Hne].
  - by injection H as <-.
  - destruct (remove_first x l) as [l0|]; [| done]. simpl in H.
    injection H as <-. rewrite (IH l0 eq_refl). apply Permutation_swap.
Qed.

Lemma remove_first_is_Some {A} `{EqDecision A} (x : A) (l : list A) :
  x ∈ l → is_Some (remove_first x l).
Proof.
  induction 1 as [|y z l Hin IH]; simpl.
  - rewrite decide_True by done. by eexists.
  - destruct (decide (z = y)); [by eexists |].
    destruct IH as [l' ->]. by eexists.
Qed.

Lemma containing_spec (panoramas : list (list nat)) (i p : nat) :
  p ∈ containing panoramas i ↔ ∃ l, panoramas !! p = Some l ∧ i ∈ l.
Proof.
  unfold containing. rewrite list_elem_of_filter, elem_of_seq. split.
  - intros [Hin _]. destruct (panoramas !! p) as [l|]; simpl in Hin.
    + by exists l.
    + by apply elem_of_nil in Hin.
  - intros (l & Hp & Hin). rewrite Hp. split; [done |].
    apply lookup_lt_Some in Hp. lia.
Qed.

Lemma containing_nil (panoramas : list (list nat)) (i : nat) :
  containing panoramas i = [] ↔ i ∉ concat panoramas.
Proof.
  split.
  - intros Hnil Hin. apply elem_of_concat in Hin as (l & Hl & Hin).
    apply list_elem_of_lookup in Hl as [p Hp].
    assert (p ∈ containing panoramas i) as Hc by (apply containing_spec; eauto).
    rewrite Hnil in Hc. by apply elem_of_nil in Hc.
  - intros Hnot. destruct (containing panoramas i) as [|p rest] eqn:E; [done |].
    assert (p ∈ containing panoramas i) as Hc by (rewrite E; left).
    apply containing_spec in Hc as (l & Hp & Hin).
    destruct Hnot. by eapply elem_of_concat_lookup.
Qed.

Lemma containing_length (panoramas : list (list nat)) (i : nat) :
  NoDup (concat panoramas) → length (containing panoramas i) ≤ 1.
Proof.
  intros Hnd.
  assert (NoDup (containing panoramas i)) as Hc.
  { unfold containing. apply list.NoDup_filter, NoDup_seq. }
  destruct (containing panoramas i) as [|p [|q rest]] eqn:E; simpl; [lia | lia |].
  exfalso.
  assert (p ∈ containing panoramas i) as Hp by (rewrite E; left).
  assert (q ∈ containing panoramas i) as Hq by (rewrite E; right; left).
  apply containing_spec in Hp as (l & Hp & Hin).
  apply containing_spec in Hq as (l' & Hq & Hin').
  apply (NoDup_concat_lookup panoramas p q l l' i); try done.
  intros ->. apply list.NoDup_cons in Hc as [Hc _]. apply Hc. left.
Qed.

Lemma containing_head (panoramas : list (list nat)) (i p : nat) (rest : list nat) :
  containing panoramas i = p :: rest → ∃ l, panoramas !! p = Some l ∧ i ∈ l.
Proof. intros E. apply containing_spec. rewrite E. left. Qed.

Lemma connect_step_partition (panoramas : list (list nat))
    (connected : gset nat) (i j : nat) :
  partition_of panoramas connected →
  i ≠ j →
  ∃ panoramas',
    connect_step (panoramas, connected) (i, j)
    = Some (panoramas', {[ j ]} ∪ ({[ i ]} ∪ connected))
    ∧ partition_of panoramas' ({[ j ]} ∪ ({[ i ]} ∪ connected)).
Proof.
  clear normalize_shape0 normalize_shape1.
  intros [Hnd Hmem] Hij. unfold connect_step.
  rewrite option_guard_True by by apply containing_length. simpl.
  rewrite option_guard_True by by apply containing_length. simpl.
  destruct (containing panoramas i) as [|pi rest_i] eqn:Ei;
    destruct (containing panoramas j) as [|pj rest_j] eqn:Ej; simpl.
  - (* neither dataset has a panorama *)
    apply containing_nil in Ei, Ej.
    eexists. split; [reflexivity |].
    rewrite alter_app_r_alt by lia. rewrite Nat.sub_diag. simpl.
    split.
    + rewrite concat_app. simpl.
      apply list.NoDup_app. split; [done |]. split.
      * intros x Hx Hx'. apply elem_of_cons in Hx' as [->|Hx']; [done |].
        apply list_elem_of_singleton in Hx' as ->. done.
      * apply list.NoDup_cons. split; [| apply NoDup_singleton].
        by intros ->%list_elem_of_singleton.
    + intros x. rewrite concat_app, elem_of_app. simpl.
      rewrite Hmem. rewrite elem_of_cons, list_elem_of_singleton. set_solver.
  - (* only [j] has a panorama *)
    apply containing_nil in Ei. apply containing_head in Ej as (l_j & Hpj & Hj).
    eexists. split; [reflexivity |].
    pose proof (concat_alter_app panoramas pj l_j [i] Hpj) as Hperm.
    assert (j ∈ connected) by (apply Hmem; by eapply elem_of_concat_lookup).
    split.
    + rewrite Hperm. simpl. by apply list.NoDup_cons.
    + intros x. rewrite Hperm. simpl. rewrite elem_of_cons, Hmem. set_solver.
  - (* only [i] has a panorama *)
    apply containing_nil in Ej. apply containing_head in Ei as (l_i & Hpi & Hi).
    eexists. split; [reflexivity |].
    pose proof (concat_alter_app panoramas pi l_i [j] Hpi) as Hperm.
    assert (i ∈ connected) by (apply Hmem; by eapply elem_of_concat_lookup).
    split.
    + rewrite Hperm. simpl. by apply list.NoDup_cons.
    + intros x. rewrite Hperm. simpl. rewrite elem_of_cons, Hmem. set_solver.
  - (* both have a panorama *)
    apply containing_head in Ei as (l_i & Hpi & Hi).
    apply containing_head in Ej as (l_j & Hpj & Hj).
    rewrite Hpi, Hpj. simpl.
    assert (i ∈ connected) by (by apply Hmem, (elem_of_concat_lookup _ pi l_i)).
    assert (j ∈ connected) by (by apply Hmem, (elem_of_concat_lookup _ pj l_j)).
    assert ({[ j ]} ∪ ({[ i ]} ∪ connected) = connected) as Hc by set_solver.
    destruct (decide (l_i ≠ l_j)) as [Hne|Heq].
    + assert (pi ≠ pj) as Hp by (intros ->; congruence).
      destruct (remove_first_is_Some l_j (alter (λ l, l ++ l_j) pi panoramas))
        as [panoramas' Hrm].
      { eapply list_elem_of_lookup_2. by rewrite list_lookup_alter_ne. }
      rewrite Hrm. simpl. eexists. split; [reflexivity |].
      apply remove_first_Permutation, concat_Permutation in Hrm.
      rewrite concat_alter_app in Hrm by done. simpl in Hrm.
      apply Permutation_app_inv_l in Hrm.
      rewrite Hc. split.
      * by rewrite <- Hrm.
      * intros x. by rewrite <- Hrm.
    + simpl. eexists. split; [reflexivity |]. by rewrite Hc.
Qed.

Lemma connect_loop_partition (n : nat) (alignments : list (nat * nat))
    (panoramas : list (list nat)) (connected : gset nat) :
  partition_of panoramas connected →
  (∀ x, x ∈ connected → x < n) →
  Forall (λ ij, ij.1 ≠ ij.2 ∧ ij.1 < n ∧ ij.2 < n) alignments →
  ∃ panoramas' connected',
    foldlM connect_step (panoramas, connected) alignments
    = Some (panoramas', connected')
    ∧ partition_of panoramas' connected'
    ∧ ∀ x, x ∈ connected' → x < n.
Proof.
  intros Hpart Hlt Hal. revert panoramas connected Hpart Hlt.
  induction Hal as [|[i j] alignments (Hij & Hi & Hj) _ IH];
    intros panoramas connected Hpart Hlt.
  { by exists panoramas, connected. }
  simpl in Hij, Hi, Hj. rewrite foldlM_cons.
  destruct (connect_step_partition panoramas connected i j Hpart Hij)
    as (panoramas' & -> & Hpart').
  simpl. apply IH; [done |].
  intros x. rewrite !elem_of_union, !elem_of_singleton.
  intros [->|[->|Hx]]; auto.
Qed.

Lemma concat_add_singletons (connected : gset nat) (l : list nat)
    (panoramas : list (list nat)) :
  concat (foldl (λ panoramas i,
                   if decide (i ∈ connected) then panoramas else panoramas ++ [[i]])
                panoramas l)
  = concat panoramas ++ filter (λ i, i ∉ connected) l.
Proof.
  revert panoramas. induction l as [|i l IH]; intros panoramas; simpl.
  { by rewrite app_nil_r. }
  rewrite IH, filter_cons.
  destruct (decide (i ∈ connected)) as [Hin|Hout].
  - by rewrite decide_False by tauto.
  - rewrite decide_True by done. rewrite concat_app. simpl.
    by rewrite <- app_assoc.
Qed.

Lemma connect_alignments_concat (n : nat) (alignments : list (nat * nat)) :
  Forall (λ ij, ij.1 ≠ ij.2 ∧ ij.1 < n ∧ ij.2 < n) alignments →
  ∃ panoramas,
    connect_alignments n alignments = Some panoramas
    ∧ concat panoramas ≡ₚ seq 0 n.
Proof.
  clear normalize_shape0 normalize_shape1.
  intros Hal. unfold connect_alignments.
  destruct (connect_loop_partition n alignments [] ∅) as (ps & c & -> & [Hnd Hmem] & Hlt).
  - split; [constructor |]. intros x. simpl. set_solver.
  - set_solver.
  - done.
  - simpl. eexists. split; [reflexivity |].
    rewrite concat_add_singletons.
    rewrite <- (filter_app_complement (λ i, i ∈ c) (seq 0 n)) at 2.
    f_equiv. apply NoDup_Permutation.
    + done.
    + apply list.NoDup_filter, NoDup_seq.
    + intros x. rewrite Hmem, list_elem_of_filter, elem_of_seq.
      split; [| tauto]. intros Hx. specialize (Hlt x Hx). split; [done | lia].
Qed.

Lemma filter_member_nil (panoramas : list (list nat)) (d : nat) :
  d ∉ concat panoramas → filter (λ l, d ∈ l) panoramas = [].
Proof.
  induction panoramas as [|l ps IH]; [done |]. simpl. intros Hd.
  rewrite elem_of_app in Hd. rewrite filter_cons.
  rewrite decide_False by tauto. apply IH. tauto.
Qed.

Lemma filter_member_one (panoramas : list (list nat)) (d : nat) :
  NoDup (concat panoramas) → d ∈ concat panoramas →
  length (filter (λ l, d ∈ l) panoramas) = 1.
Proof.
  induction panoramas as [|l ps IH]; simpl; intros Hnd Hd.
  { by apply elem_of_nil in Hd. }
  apply list.NoDup_app in Hnd as (_ & Hdisj & Hnd).
  rewrite filter_cons. destruct (decide (d ∈ l)) as [Hl|Hl].
  - simpl. rewrite filter_member_nil; [done |]. by apply Hdisj.
  - apply IH; [done |]. apply elem_of_app in Hd. tauto.
Qed.

Lemma partition_of_concat (panoramas : list (list nat)) (n : nat) :
  concat panoramas ≡ₚ seq 0 n → is_partition panoramas n.
Proof.
  intros Hperm.
  assert (NoDup (concat panoramas)) as Hnd by (rewrite Hperm; apply NoDup_seq).
  split.
  - intros d Hd. apply filter_member_one; [done |].
    rewrite Hperm. apply elem_of_seq. lia.
  - intros p q l l' x. by apply NoDup_concat_lookup.
Qed.

(** *** The alignment table *)

Lemma foldlM_invariant {A B} (P : B → Prop) (f : B → A → option B)
    (l : list A) (b b' : B) :
  P b →
  (∀ b x b', x ∈ l → P b → f b x = Some b' → P b') →
  foldlM f b l = Some b' → P b'.
Proof.
  revert b. induction l as [|x l IH]; intros b Hb Hstep; simpl.
  { by intros [= <-]. }
  destruct (f b x) as [b1|] eqn:E; [| done]. simpl.
  apply IH.
  - eapply Hstep; [| done | done]. left.
  - intros b0 y b0' Hy. apply Hstep. by right.
Qed.

Lemma match_of_ind_fst (n : nat) (ind : list (list Z)) (d r : Z) :
  (d, r) ∈ match_of_ind n ind → (0 ≤ d < Z.of_nat n)%Z.
Proof.
  unfold match_of_ind.
  assert (∀ (a : Z) (b : list Z) (acc : gset (Z * Z)),
            (d, r) ∈ foldl (λ acc b_i, {[ (a, b_i) ]} ∪ acc) acc b →
            (d, r) ∈ acc ∨ d = a) as Hinner.
  { intros a b. induction b as [|b_i b IH]; intros acc; simpl; [auto |].
    intros [Hin| ->]%IH; [| auto].
    apply elem_of_union in Hin as [Hin%elem_of_singleton|Hin]; [| auto].
    right. congruence. }
  assert (∀ (l : list (Z * list Z)) (acc : gset (Z * Z)),
            (d, r) ∈ foldl (λ acc ab, foldl (λ acc b_i, {[ (ab.1, b_i) ]} ∪ acc) acc ab.2)
                           acc l →
            (d, r) ∈ acc ∨ d ∈ l.*1) as Houter.
  { induction l as [|[a b] l IH]; intros acc; simpl; [auto |].
    intros [Hin|Hin]%IH.
    - apply Hinner in Hin as [Hin| ->]; [auto |]. right. left.
    - right. by right. }
  intros [Hin|Hin]%Houter; [by apply not_elem_of_empty in Hin |].
  assert (d ∈ py_range 0 n) as Hd.
  { clear -Hin. revert Hin. generalize (py_range 0 n). intros l. revert ind.
    induction l as [|z l IH]; intros [|b ind]; simpl; try by intros ?%elem_of_nil.
    intros [->|Hin]%elem_of_cons; [left | right; eauto]. }
  unfold py_range in Hd. apply list_elem_of_fmap in Hd as (k & -> & Hk).
  apply elem_of_seq in Hk. lia.
Qed.

Lemma store_match_rows_ok (datasets : list np.ndarray) (ds_i : np.ndarray)
    (t1 : IntervalTree.t nat) (t2 : IntervalTree.t Z) (i : nat)
    (table table' : match_table) (d r : Z) :
  table_rows_ok datasets table →
  datasets !! i = Some ds_i →
  (0 ≤ d < Z.of_nat (np.shape0 ds_i))%Z →
  store_match t1 t2 i table (d, r) = Some table' →
  table_rows_ok datasets table'.
Proof.
  intros Hok Hi Hd. unfold store_match. intros Hst.
  destruct (head (IntervalTree.at_ r t1)) as [iv1|]; simplify_option_eq;
    match goal with
    | |- context [(r - IntervalTree.data ?iv)%Z] =>
        set (x := (r - IntervalTree.data iv)%Z)
    end;
    set (j := IntervalTree.data iv1) in *;
    intros i' j' m Hm;
    (destruct (decide ((i', j') = (i, j))) as [[= -> ->]|Hne];
     [rewrite lookup_alter_eq in Hm | rewrite lookup_alter_ne in Hm by done]).
  - match goal with H : (i, j) ∈ dom table |- _ =>
      apply elem_of_dom in H as [m0 Hm0] end.
    rewrite Hm0 in Hm. simpl in Hm. injection Hm as <-.
    destruct (Hok i j m0 Hm0) as (ds & Hds & _ & Hrows).
    rewrite Hi in Hds. injection Hds as <-.
    exists ds_i. split; [done |]. split; [lia |]. intros d' x' Hin.
    apply elem_of_union in Hin as [Hin%elem_of_singleton|Hin]; [congruence |].
    by eapply Hrows.
  - by eapply Hok.
  - rewrite lookup_insert_eq in Hm. simpl in Hm. injection Hm as <-.
    exists ds_i. split; [done |]. split; [lia |]. intros d' x' Hin.
    apply elem_of_union in Hin as [Hin%elem_of_singleton|Hin]; [congruence |].
    by apply not_elem_of_empty in Hin.
  - rewrite lookup_insert_ne in Hm by done. by eapply Hok.
Qed.

Lemma size_list_to_set_le (l : list Z) : size (list_to_set l : gset Z) ≤ length l.
Proof.
  clear normalize_shape0 normalize_shape1.
  induction l as [|z l IH]; simpl; [done |].
  rewrite size_union_alt.
  rewrite size_singleton.
  assert (list_to_set l ∖ {[z]} ⊆ (list_to_set l : gset Z)) as Hsub by set_solver.
  apply subseteq_size in Hsub. lia.
Qed.

Lemma distinct_bound (m : gset (Z * Z)) (f : Z * Z → Z) (n : nat) :
  (∀ p, p ∈ m → (0 ≤ f p < Z.of_nat n)%Z) →
  size (list_to_set (f <$> elements m) : gset Z) ≤ n.
Proof.
  intros Hm.
  assert ((list_to_set (f <$> elements m) : gset Z) ⊆ list_to_set (py_range 0 n)) as Hsub.
  { intros z. rewrite !elem_of_list_to_set, list_elem_of_fmap.
    intros (p & -> & Hp%elem_of_elements). specialize (Hm p Hp).
    unfold py_range. apply list_elem_of_fmap. exists (Z.to_nat (f p)).
    split; [lia |]. apply elem_of_seq. lia. }
  apply subseteq_size in Hsub. etransitivity; [exact Hsub |].
  etransitivity; [apply size_list_to_set_le |].
  unfold py_range. rewrite length_fmap, length_seq. lia.
Qed.

Lemma py_div_spec (a n : nat) :
  0 < n → a ≤ n →
  ∃ q, py_div a n = Some q
       ∧ (q == inject_Z (Z.of_nat a) / inject_Z (Z.of_nat n))%Q
       ∧ (0 <= q <= 1)%Q.
Proof.
  intros Hn Ha. unfold py_div. rewrite decide_False by lia.
  eexists. split; [reflexivity |].
  assert (Z.pos (Pos.of_nat n) = Z.of_nat n) as Hpos.
  { rewrite <- positive_nat_Z, Nat2Pos.id by lia. done. }
  split; [| split].
  - rewrite <- Hpos. unfold Qeq, Qdiv, Qmult, Qinv, inject_Z. simpl. lia.
  - unfold Qle. simpl. lia.
  - unfold Qle. simpl. lia.
Qed.

Lemma mutual_of_rows (datasets : list np.ndarray) (table : match_table)
    (i j : nat) :
  table_rows_ok datasets table →
  is_Some (table !! (i, j)) → is_Some (table !! (j, i)) →
  ∃ ds_i ds_j,
    datasets !! i = Some ds_i ∧ datasets !! j = Some ds_j
    ∧ 0 < np.shape0 ds_i ∧ 0 < np.shape0 ds_j
    ∧ distinct_fst (mutual_of table i j) ≤ np.shape0 ds_i
    ∧ distinct_snd (mutual_of table i j) ≤ np.shape0 ds_j.
Proof.
  intros Hok [t_ij Hij] [t_ji Hji].
  destruct (Hok i j t_ij Hij) as (di & Hdi & Hni & Hri).
  destruct (Hok j i t_ji Hji) as (dj & Hdj & Hnj & Hrj).
  exists di, dj. split_and!; try done.
  - apply distinct_bound. intros [d x] Hin. unfold mutual_of in Hin.
    rewrite Hij in Hin. simpl in Hin.
    apply elem_of_intersection in Hin as [Hin _]. simpl. exact (Hri d x Hin).
  - apply distinct_bound. intros [d x] Hin. unfold mutual_of in Hin.
    rewrite Hji in Hin. simpl in Hin.
    apply elem_of_intersection in Hin as [_ Hin].
    apply (proj1 (elem_of_swap_pairs _ _ _)) in Hin. simpl. exact (Hrj x d Hin).
Qed.

Lemma score_pair_spec (datasets : list np.ndarray) (table : match_table)
    (matches : match_table) (table1 : score_table) (i j : nat) :
  table_rows_ok datasets table →
  (i < j ∧ is_Some (table !! (i, j)) ∧ is_Some (table !! (j, i))
   ∧ ∃ v, score_pair datasets table (matches, table1) (i, j)
          = Some (<[(i, j) := mutual_of table i j]> matches, table1 ++ [((i, j), v)])
          ∧ score_entry_ok datasets table ((i, j), v))
  ∨ (¬ (i < j ∧ is_Some (table !! (i, j)) ∧ is_Some (table !! (j, i)))
     ∧ score_pair datasets table (matches, table1) (i, j) = Some (matches, table1)).
Proof.
  intros Hok. unfold score_pair.
  destruct (decide (j ≤ i)) as [Hle|Hlt]; [right; split; [lia | done] |].
  destruct (table !! (i, j)) as [t_ij|] eqn:Hij; cycle 1.
  { right. split; [| done]. intros (_ & [? ?] & _). done. }
  destruct (table !! (j, i)) as [t_ji|] eqn:Hji; cycle 1.
  { right. split; [| done]. intros (_ & _ & [? ?]). done. }
  left. split; [lia |]. split; [by eexists |]. split; [by eexists |].
  destruct (mutual_of_rows datasets table i j Hok)
    as (ds_i & ds_j & Hi & Hj & Hni & Hnj & Hbi & Hbj).
  { rewrite Hij. by eexists. }
  { rewrite Hji. by eexists. }
  assert (t_ij ∩ swap_pairs t_ji = mutual_of table i j) as Hmut.
  { unfold mutual_of. by rewrite Hij, Hji. }
  rewrite Hmut, Hi, Hj. simpl.
  destruct (py_div_spec _ _ Hni Hbi) as (s_i & -> & Hsi & Hsi0 & Hsi1).
  destruct (py_div_spec _ _ Hnj Hbj) as (s_j & -> & Hsj & Hsj0 & Hsj1).
  simpl. eexists. split; [reflexivity |].
  unfold score_entry_ok. split.
  { split; [lia |]. by eapply lookup_lt_Some. }
  rewrite Hij, Hji. split; [by eexists |]. split; [by eexists |].
  exists ds_i, ds_j. split_and!; try done.
  - unfold alignment_score. by apply Q.max_compat.
  - eapply Qle_trans; [exact Hsi0 | apply Q.le_max_l].
  - by apply Q.max_lub.
Qed.

Lemma score_loop_spec (datasets : list np.ndarray) (table : match_table)
    (pairs : list (nat * nat)) (matches : match_table) (table1 : score_table) :
  table_rows_ok datasets table →
  Forall (score_entry_ok datasets table) table1 →
  ∃ matches' table1',
    foldlM (score_pair datasets table) (matches, table1) pairs
    = Some (matches', table1')
    ∧ Forall (score_entry_ok datasets table) table1'
    ∧ (∀ kv, kv ∈ table1 → kv ∈ table1')
    ∧ (∀ i j, matches !! (i, j) = Some (mutual_of table i j) →
              matches' !! (i, j) = Some (mutual_of table i j))
    ∧ (∀ i j, (i, j) ∈ pairs → i < j →
              is_Some (table !! (i, j)) → is_Some (table !! (j, i)) →
              matches' !! (i, j) = Some (mutual_of table i j)
              ∧ ∃ v, ((i, j), v) ∈ table1').
Proof.
  intros Hok. revert matches table1.
  induction pairs as [|[i j] pairs IH]; intros matches table1 Hall.
  { exists matches, table1. split_and!; try done.
    intros i j Hin. by apply elem_of_nil in Hin. }
  rewrite foldlM_cons.
  destruct (score_pair_spec datasets table matches table1 i j Hok)
    as [(Hlt & Hij & Hji & v & -> & Hv)|[Hnot ->]]; simpl.
  - destruct (IH (<[(i, j) := mutual_of table i j]> matches) (table1 ++ [((i, j), v)]))
      as (matches' & table1' & -> & Hall' & Hmono & Hkeep & Hnew).
    { apply Forall_app. split; [done | by constructor]. }
    exists matches', table1'. split_and!; try done.
    + intros kv Hkv. apply Hmono, elem_of_app. by left.
    + intros i' j' Hm. apply Hkeep.
      destruct (decide ((i, j) = (i', j'))) as [[= -> ->]|Hne].
      * by rewrite lookup_insert_eq.
      * by rewrite lookup_insert_ne.
    + intros i' j' [[= -> ->]|Hin]%elem_of_cons Hlt' Hij' Hji'.
      * split.
        -- apply Hkeep. by rewrite lookup_insert_eq.
        -- exists v. apply Hmono, elem_of_app. right. left.
      * by apply Hnew.
  - destruct (IH matches table1 Hall)
      as (matches' & table1' & -> & Hall' & Hmono & Hkeep & Hnew).
    exists matches', table1'. split_and!; try done.
    intros i' j' [[= -> ->]|Hin]%elem_of_cons Hlt' Hij' Hji'.
    + destruct Hnot. done.
    + by apply Hnew.
Qed.

Lemma elem_of_index_pairs (n i j : nat) : i < n → j < n → (i, j) ∈ index_pairs n.
Proof.
  intros Hi Hj. unfold index_pairs.
  apply list_elem_of_bind. exists i. split; [| apply elem_of_seq; lia].
  apply list_elem_of_bind. exists j. split; [left | apply elem_of_seq; lia].
Qed.

Lemma score_tables_spec (datasets : list np.ndarray) (table : match_table) :
  table_rows_ok datasets table →
  ∃ matches table1,
    score_tables datasets table = Some (matches, table1)
    ∧ Forall (score_entry_ok datasets table) table1
    ∧ (∀ i j, i < j →
              is_Some (table !! (i, j)) → is_Some (table !! (j, i)) →
              matches !! (i, j) = Some (mutual_of table i j)
              ∧ ∃ v, ((i, j), v) ∈ table1).
Proof.
  intros Hok. unfold score_tables.
  destruct (score_loop_spec datasets table (index_pairs (length datasets)) ∅ [] Hok)
    as (matches & table1 & Hrun & Hall & _ & _ & Hnew); [constructor |].
  exists matches, table1. split_and!; try done.
  intros i j Hlt Hij Hji. apply Hnew; try done.
  destruct Hij as [t_ij Hij], Hji as [t_ji Hji].
  destruct (Hok _ _ _ Hij) as (? & ?%lookup_lt_Some & _).
  destruct (Hok _ _ _ Hji) as (? & ?%lookup_lt_Some & _).
  by apply elem_of_index_pairs.
Qed.

Lemma directional_search_rows (curr_ds curr_ref : np.ndarray) (knn : nat)
    (approx : bool) (match_ : gset (Z * Z)) (d r : Z) :
  (if approx then nn_approx curr_ds curr_ref knn manhattan 10
   else nn curr_ds curr_ref knn 1) = Some match_ →
  (d, r) ∈ match_ → (0 ≤ d < Z.of_nat (np.shape0 curr_ds))%Z.
Proof.
  unfold nn_approx, nn. intros Hsearch Hin.
  destruct approx; simplify_option_eq; by eapply match_of_ind_fst.
Qed.

Lemma fill_table_rows_ok (all : list np.ndarray) (table table' : match_table)
    (i : nat) (curr_ds : np.ndarray) (datasets : list np.ndarray)
    (base_ds knn : nat) (approx : bool) :
  table_rows_ok all table →
  all !! i = Some curr_ds →
  fill_table table i curr_ds datasets base_ds knn approx = Some table' →
  table_rows_ok all table'.
Proof.
  intros Hok Hi. unfold fill_table. intros Hfill.
  destruct (np.concatenate datasets) as [curr_ref|]; [| done]. simpl in Hfill.
  destruct (if approx then _ else _) as [match_|] eqn:Hsearch; [| done].
  simpl in Hfill.
  destruct (build_itrees _ _ _ _ _ _) as [[t1 t2]|]; [| done]. simpl in Hfill.
  revert Hfill. apply foldlM_invariant; [done |].
  intros tb [d r] tb' Hdr%elem_of_elements Htb.
  apply store_match_rows_ok with (ds_i := curr_ds); [done | done |].
  by eapply directional_search_rows.
Qed.

Lemma fill_tables_rows_ok (datasets : list np.ndarray) (knn : nat) (approx : bool)
    (table : match_table) :
  fill_tables datasets knn approx = Some table → table_rows_ok datasets table.
Proof.
  unfold fill_tables. apply foldlM_invariant.
  { intros i j m Hm. by rewrite lookup_empty in Hm. }
  intros tb i tb' _ Htb Hstep.
  destruct (datasets !! i) as [curr_ds|] eqn:Hi; [| done]. simpl in Hstep.
  destruct (if decide (0 < length (take i datasets)) then _ else _)
    as [tb1|] eqn:Hfirst; [| done]. simpl in Hstep.
  assert (table_rows_ok datasets tb1) as Htb1.
  { destruct (decide (0 < length (take i datasets))).
    - by eapply fill_table_rows_ok.
    - by injection Hfirst as <-. }
  destruct (decide (0 < length (drop (S i) datasets))).
  - by eapply fill_table_rows_ok.
  - by injection Hstep as <-.
Qed.

Lemma find_alignments_table_spec (datasets : list np.ndarray) (knn : nat)
    (approx prenormalized : bool) (table : match_table) :
  fill_tables (if prenormalized then datasets else normalize <$> datasets) knn approx
  = Some table →
  ∃ table1 matches,
    find_alignments_table datasets knn approx prenormalized = Some (table1, matches)
    ∧ Forall (score_entry_ok
                (if prenormalized then datasets else normalize <$> datasets) table)
             table1
    ∧ (∀ i j, i < j →
              is_Some (table !! (i, j)) → is_Some (table !! (j, i)) →
              matches !! (i, j) = Some (mutual_of table i j)
              ∧ ∃ v, ((i, j), v) ∈ table1).
Proof.
  intros Hfill. unfold find_alignments_table. rewrite Hfill. simpl.
  destruct (score_tables_spec _ _ (fill_tables_rows_ok _ _ _ _ Hfill))
    as (matches & table1 & -> & Hall & Hnew).
  simpl. by exists table1, matches.
Qed.

Lemma lookup_normalized (datasets : list np.ndarray) (prenormalized : bool)
    (i : nat) (ds' : np.ndarray) :
  (if prenormalized then datasets else normalize <$> datasets) !! i = Some ds' →
  ∃ ds, datasets !! i = Some ds ∧ np.shape0 ds' = np.shape0 ds.
Proof.
  destruct prenormalized; [by exists ds' |].
  rewrite list_lookup_fmap. destruct (datasets !! i) as [ds|]; [| done].
  simpl. intros [= <-]. exists ds. by rewrite normalize_shape0.
Qed.


Lemma alignments_scored_subset (table1 : score_table) (alpha : Q)
    (kv : (nat * nat) * Q) :
  kv ∈ alignments_scored table1 alpha → kv ∈ table1.
Proof.
  unfold alignments_scored. intros [_ Hin]%list_elem_of_filter.
  by rewrite elem_of_reverse, sorted_by_score_perm in Hin.
Qed.

(** C2.  For every list of datasets, on the edge list that
    [find_alignments] produces for it, [connect] returns panoramas that
    partition the dataset indices [0 .. N-1]: every index is in exactly one
    panorama and the panoramas are pairwise disjoint; taken together the
    panoramas list every index once and nothing else. *)
Theorem connect_partition (datasets : list np.ndarray) (knn : nat) (approx : bool)
    (alpha : Q) (alignments : list (nat * nat)) (matches : match_table) :
  find_alignments datasets knn approx alpha false = Some (alignments, matches) →
  ∃ panoramas,
    connect datasets knn approx alpha = Some panoramas
    ∧ is_partition panoramas (length datasets)
    ∧ concat panoramas ≡ₚ seq 0 (length datasets).
Proof.
  intros Hfind. unfold connect. rewrite Hfind. simpl.
  unfold find_alignments in Hfind.
  destruct (find_alignments_table datasets knn approx false)
    as [[table1 matches']|] eqn:Htable; [| done].
  simpl in Hfind. injection Hfind as <- <-.
  unfold find_alignments_table in Htable.
  destruct (fill_tables (normalize <$> datasets) knn approx) as [table|] eqn:Hfill;
    [| done].
  destruct (find_alignments_table_spec datasets knn approx false table Hfill)
    as (table1' & matches'' & Hrun & Hall & _).
  unfold find_alignments_table in Hrun. rewrite Hfill in Hrun.
  rewrite Hrun in Htable. injection Htable as -> ->.
  destruct (connect_alignments_concat (length datasets) (alignments_of table1 alpha))
    as (panoramas & Hconn & Hperm).
  { unfold alignments_of. rewrite list.Forall_forall.
    intros [i j] ([[i' j'] v] & [= <- <-] & Hin%alignments_scored_subset)%list_elem_of_fmap.
    rewrite list.Forall_forall in Hall.
    destruct (Hall _ Hin) as (Hlt & _). rewrite length_fmap in Hlt. simpl. lia. }
  exists panoramas. split; [done |]. split; [| done].
  by apply partition_of_concat.
Qed.

(** *** Kernel regression *)

Lemma vsum_app (u v : list R) : np.vsum (u ++ v) = (np.vsum u + np.vsum v)%R.
Proof.
  unfold np.vsum. induction u as [|x u IH]; simpl; [lra |]. rewrite IH. lra.
Qed.

Lemma inner_app (u1 u2 v1 v2 : list R) :
  length u1 = length v1 →
  np.inner (u1 ++ u2) (v1 ++ v2) = (np.inner u1 v1 + np.inner u2 v2)%R.
Proof.
  intros Hlen. unfold np.inner. rewrite zip_with_app by done. apply vsum_app.
Qed.

Lemma fmap_nth_seq {A} (l : list A) (d : A) :
  (λ c, nth c l d) <$> seq 0 (length l) = l.
Proof.
  induction l as [|x l IH]; [done |]. simpl. f_equal.
  rewrite <- IH at 2. rewrite <- fmap_S_seq, <- list_fmap_compose. done.
Qed.

Lemma zip_with_fmap_same {A B C D} (f : B → C → D) (g : A → B) (h : A → C)
    (l : list A) :
  zip_with f (g <$> l) (h <$> l) = (λ x, f (g x) (h x)) <$> l.
Proof. by rewrite zip_with_fmap_l, zip_with_fmap_r, zip_with_diag. Qed.

Lemma numerator_rows_app (gamma : R) (xs ys1 ys2 : list (list R)) (d : nat)
    (bs1 bs2 : list (list R)) :
  length ys1 = length bs1 →
  zip_with (zip_with Rplus) (numerator_rows gamma xs ys1 d bs1)
                            (numerator_rows gamma xs ys2 d bs2)
  = numerator_rows gamma xs (ys1 ++ ys2) d (bs1 ++ bs2).
Proof.
  intros Hlen. unfold numerator_rows. rewrite zip_with_fmap_same.
  apply list_fmap_ext. intros _ x _. rewrite zip_with_fmap_same.
  apply list_fmap_ext. intros _ c _.
  unfold kernel_row. rewrite !fmap_app.
  rewrite inner_app by by rewrite !length_fmap. done.
Qed.

Lemma denominator_rows_app (gamma : R) (xs ys1 ys2 : list (list R)) :
  zip_with Rplus (denominator_rows gamma xs ys1) (denominator_rows gamma xs ys2)
  = denominator_rows gamma xs (ys1 ++ ys2).
Proof.
  unfold denominator_rows. rewrite zip_with_fmap_same.
  apply list_fmap_ext. intros _ x _. unfold kernel_row.
  by rewrite fmap_app, vsum_app.
Qed.

Lemma fmap_const_replicate {A B} (f : A → B) (y : B) (l : list A) :
  (∀ x, f x = y) → f <$> l = replicate (length l) y.
Proof.
  intros Hf. induction l as [|x l IH]; [done |]. by rewrite fmap_cons, Hf, IH.
Qed.

Lemma numerator_rows_nil (gamma : R) (xs : list (list R)) (d : nat) :
  numerator_rows gamma xs [] d [] = replicate (length xs) (replicate d 0%R).
Proof.
  unfold numerator_rows. apply fmap_const_replicate. intros x.
  replace (replicate d 0%R) with (replicate (length (seq 0 d)) 0%R)
    by (by rewrite length_seq).
  by apply fmap_const_replicate.
Qed.

Lemma denominator_rows_nil (gamma : R) (xs : list (list R)) :
  denominator_rows gamma xs [] = replicate (length xs) 0%R.
Proof. unfold denominator_rows. by apply fmap_const_replicate. Qed.

Lemma rbf_kernel_data (X Y : np.ndarray) (gamma : R) :
  0 < np.shape0 X →
  0 < np.shape1 X →
  0 < np.shape0 Y →
  np.shape1 X = np.shape1 Y →
  sklearn.rbf_kernel X Y gamma
  = Some (np.mk_ndarray (np.shape0 Y)
            ((λ x, kernel_row gamma x (np.data Y)) <$> np.data X)).
Proof.
  intros HX0 HX1 HY0 Heq. unfold sklearn.rbf_kernel.
  rewrite !option_guard_True by (split; lia).
  rewrite Heq, Nat.eqb_refl. done.
Qed.

Lemma rbf_kernel_refuses (X Y : np.ndarray) (gamma : R) :
  np.shape0 X = 0 ∨ np.shape1 X = 0 ∨ np.shape0 Y = 0 →
  sklearn.rbf_kernel X Y gamma = None.
Proof.
  intros Hempty. unfold sklearn.rbf_kernel.
  repeat case_guard; simpl; try done. lia.
Qed.

Lemma dot_kernel_data (gamma : R) (xs : list (list R)) (Y B : np.ndarray) :
  np.shape0 Y = np.shape0 B →
  np.dot (np.mk_ndarray (np.shape0 Y) ((λ x, kernel_row gamma x (np.data Y)) <$> xs)) B
  = Some (np.mk_ndarray (np.shape1 B)
            (numerator_rows gamma xs (np.data Y) (np.shape1 B) (np.data B))).
Proof.
  intros Heq. unfold np.dot. simpl. rewrite Heq, Nat.eqb_refl.
  unfold numerator_rows, np.column. by rewrite <- list_fmap_compose.
Qed.

Lemma sum_axis1_kernel_data (gamma : R) (xs : list (list R)) (Y : np.ndarray) :
  np.sum_axis1 (np.mk_ndarray (np.shape0 Y) ((λ x, kernel_row gamma x (np.data Y)) <$> xs))
  = denominator_rows gamma xs (np.data Y).
Proof. unfold np.sum_axis1, denominator_rows. simpl. by rewrite <- list_fmap_compose. Qed.

Lemma transpose_tile_data (v : list R) (d : nat) :
  np.transpose (np.tile v d)
  = np.mk_ndarray d ((λ s, replicate d s) <$> v).
Proof.
  unfold np.transpose, np.tile, np.shape0, np.column. simpl.
  rewrite length_replicate. f_equal.
  rewrite <- (fmap_nth_seq v 0%R) at 2. rewrite <- list_fmap_compose.
  apply list_fmap_ext. intros _ c _. simpl. by rewrite fmap_replicate.
Qed.

Lemma length_numerator_rows gamma xs ys d bs :
  length (numerator_rows gamma xs ys d bs) = length xs.
Proof. unfold numerator_rows. by rewrite length_fmap. Qed.

Lemma length_denominator_rows gamma xs ys :
  length (denominator_rows gamma xs ys) = length xs.
Proof. unfold denominator_rows. by rewrite length_fmap. Qed.

Lemma div_smoothed (curr_ds match_ds bias : np.ndarray) (sigma : R) :
  np.div (np.mk_ndarray (np.shape1 curr_ds)
            (numerator_rows (0.5 * sigma) (np.data curr_ds) (np.data match_ds)
               (np.shape1 curr_ds) (np.data bias)))
         (np.transpose
            (np.tile (denominator_rows (0.5 * sigma) (np.data curr_ds) (np.data match_ds))
                     (np.shape1 curr_ds)))
  = Some (smoothed_bias curr_ds match_ds bias sigma).
Proof.
  rewrite transpose_tile_data. unfold np.div, np.elementwise, np.same_shape, np.shape0.
  simpl. rewrite length_numerator_rows, length_fmap, length_denominator_rows.
  by rewrite !Nat.eqb_refl.
Qed.

Lemma batch_bias_unbatched (curr_ds match_ds bias : np.ndarray) (sigma : R) :
  0 < np.shape0 curr_ds →
  0 < np.shape1 curr_ds →
  0 < np.shape0 match_ds →
  np.shape1 curr_ds = np.shape1 match_ds →
  np.shape0 match_ds = np.shape0 bias →
  np.shape1 bias = np.shape1 curr_ds →
  batch_bias curr_ds match_ds bias None sigma
  = Some (smoothed_bias curr_ds match_ds bias sigma).
Proof.
  intros Hc0 Hc1 Hm0 H1 H0 Hb. unfold batch_bias.
  rewrite rbf_kernel_data by done. simpl.
  rewrite dot_kernel_data by done. simpl.
  rewrite sum_axis1_kernel_data, Hb. apply div_smoothed.
Qed.

#[local] Arguments sklearn.rbf_kernel : simpl never.
#[local] Arguments np.dot : simpl never.
#[local] Arguments np.add : simpl never.
#[local] Arguments np.sub : simpl never.
#[local] Arguments np.div : simpl never.
#[local] Arguments np.vadd : simpl never.
#[local] Arguments np.take_rows : simpl never.
#[local] Arguments np.concatenate : simpl never.
#[local] Arguments np.sum_axis1 : simpl never.
#[local] Arguments np.transpose : simpl never.
#[local] Arguments np.tile : simpl never.
#[local] Arguments np.zeros : simpl never.
#[local] Arguments np.zeros1 : simpl never.
#[local] Arguments py_range : simpl never.

Lemma norm_index_of_nat (n k : nat) : k < n → np.norm_index n (Z.of_nat k) = Some k.
Proof.
  intros Hk. unfold np.norm_index. rewrite decide_True by lia.
  by rewrite Nat2Z.id.
Qed.

Lemma take_rows_seq (l : list (list R)) (lo len : nat) :
  lo + len ≤ length l →
  Forall2 (λ i row, (k ← np.norm_index (length l) i; l !! k) = Some row)
          (Z.of_nat <$> seq lo len) (take len (drop lo l)).
Proof.
  revert lo. induction len as [|len IH]; intros lo Hlen; [constructor |].
  destruct (lookup_lt_is_Some_2 l lo) as [x Hx]; [lia |].
  rewrite (drop_S l x lo Hx). simpl. constructor.
  - rewrite norm_index_of_nat by lia. done.
  - apply IH. lia.
Qed.

Lemma take_rows_range (a : np.ndarray) (lo hi : nat) :
  hi ≤ np.shape0 a →
  np.take_rows a (py_range lo hi)
  = Some (np.mk_ndarray (np.shape1 a) (take (hi - lo) (drop lo (np.data a)))).
Proof.
  intros Hhi. unfold np.take_rows, py_range.
  assert (mapM (λ i, k ← np.norm_index (np.shape0 a) i; np.data a !! k)
               (Z.of_nat <$> seq lo (hi - lo))
          = Some (take (hi - lo) (drop lo (np.data a)))) as ->; [| done].
  destruct (decide (lo ≤ hi)) as [Hlo|Hlo]; cycle 1.
  { replace (hi - lo) with 0 by lia. done. }
  apply mapM_Some_2, take_rows_seq. unfold np.shape0 in Hhi. lia.
Qed.

Lemma take_chunk {A} (l : list A) (n base batch_size : nat) :
  n = length l → base < n →
  take (Nat.min (base + batch_size) n - base) (drop base l)
  = take batch_size (drop base l).
Proof.
  intros -> Hbase. destruct (decide (base + batch_size ≤ length l)) as [Hle|Hgt].
  - f_equal. lia.
  - rewrite !take_ge; [done | | ]; rewrite length_drop; lia.
Qed.

Lemma batch_loop_spec (fuel : nat) (curr_ds match_ds bias : np.ndarray)
    (batch_size : nat) (gamma : R) (base : nat) :
  0 < np.shape0 curr_ds →
  0 < np.shape1 curr_ds →
  np.shape1 curr_ds = np.shape1 match_ds →
  np.shape0 match_ds = np.shape0 bias →
  np.shape1 bias = np.shape1 curr_ds →
  1 ≤ batch_size →
  np.shape0 match_ds ≤ fuel + base →
  batch_loop fuel curr_ds match_ds bias batch_size gamma base
    (np.mk_ndarray (np.shape1 curr_ds)
       (numerator_rows gamma (np.data curr_ds) (take base (np.data match_ds))
          (np.shape1 curr_ds) (take base (np.data bias))))
    (denominator_rows gamma (np.data curr_ds) (take base (np.data match_ds)))
  = Some (np.mk_ndarray (np.shape1 curr_ds)
            (numerator_rows gamma (np.data curr_ds) (np.data match_ds)
               (np.shape1 curr_ds) (np.data bias)),
          denominator_rows gamma (np.data curr_ds) (np.data match_ds)).
Proof.
  intros Hc0 Hc1 H1 H0 Hb Hbs. revert base.
  induction fuel as [|fuel IH]; intros base Hfuel.
  - simpl. rewrite decide_False by lia.
    rewrite !take_ge by (unfold np.shape0 in *; lia). done.
  - simpl. destruct (decide (base < np.shape0 match_ds)) as [Hlt|Hge]; cycle 1.
    { rewrite !take_ge by (unfold np.shape0 in *; lia). done. }
    rewrite !take_rows_range by lia. simpl.
    rewrite !take_chunk by (unfold np.shape0 in *; lia).
    rewrite rbf_kernel_data; [| done | done | | done]; cycle 1.
    { unfold np.shape0 in *. simpl. rewrite length_take, length_drop. lia. }
    simpl.
    set (chunk := np.mk_ndarray (np.shape1 match_ds)
                    (take batch_size (drop base (np.data match_ds)))).
    set (bias_chunk := np.mk_ndarray (np.shape1 bias)
                         (take batch_size (drop base (np.data bias)))).
    assert (np.shape0 chunk = np.shape0 bias_chunk) as Hchunk.
    { unfold np.shape0 in *. simpl. rewrite !length_take, !length_drop. lia. }
    pose proof (dot_kernel_data gamma (np.data curr_ds) chunk bias_chunk Hchunk) as Hdot.
    pose proof (sum_axis1_kernel_data gamma (np.data curr_ds) chunk) as Hsum.
    simpl in Hdot, Hsum. rewrite Hdot. simpl. rewrite Hsum. clear Hdot Hsum.
    unfold np.add, np.elementwise, np.same_shape, np.vadd, np.shape0. simpl.
    rewrite !length_numerator_rows, !length_denominator_rows, Hb, !Nat.eqb_refl.
    simpl.
    rewrite numerator_rows_app, denominator_rows_app, !take_take_drop.
    + apply IH. lia.
    + unfold np.shape0 in *. rewrite !length_take. lia.
Qed.

Lemma batch_bias_batched (curr_ds match_ds bias : np.ndarray) (batch_size : nat)
    (sigma : R) :
  0 < np.shape0 curr_ds →
  0 < np.shape1 curr_ds →
  np.shape1 curr_ds = np.shape1 match_ds →
  np.shape0 match_ds = np.shape0 bias →
  np.shape1 bias = np.shape1 curr_ds →
  1 ≤ batch_size →
  batch_bias curr_ds match_ds bias (Some batch_size) sigma
  = Some (smoothed_bias curr_ds match_ds bias sigma).
Proof.
  intros Hc0 Hc1 H1 H0 Hb Hbs. unfold batch_bias.
  pose proof (batch_loop_spec (np.shape0 match_ds) curr_ds match_ds bias batch_size
                (0.5 * sigma) 0 Hc0 Hc1 H1 H0 Hb Hbs) as Hloop.
  rewrite !take_0, numerator_rows_nil, denominator_rows_nil in Hloop.
  unfold np.zeros, np.zeros1, np.shape0 in *. rewrite Hloop by lia. simpl.
  apply div_smoothed.
Qed.

Lemma batch_bias_refused (curr_ds match_ds bias : np.ndarray)
    (batch_size : option nat) (sigma : R) :
  np.shape0 curr_ds = 0 ∨ np.shape1 curr_ds = 0 →
  0 < np.shape0 match_ds →
  batch_bias curr_ds match_ds bias batch_size sigma = None.
Proof.
  intros Hempty Hm0.
  assert (∀ Y gamma, sklearn.rbf_kernel curr_ds Y gamma = None) as Hrefused.
  { intros Y gamma. apply rbf_kernel_refuses.
    destruct Hempty as [Hrows|Hcols]; [by left | by right; left]. }
  unfold batch_bias. destruct batch_size as [batch_size|].
  - destruct (np.shape0 match_ds) as [|fuel] eqn:Hrows; [lia |].
    simpl. rewrite decide_True by lia.
    destruct (np.take_rows match_ds _) as [chunk|]; [| done]. simpl.
    by rewrite Hrefused.
  - by rewrite Hrefused.
Qed.

(** C7, as the code has it.  For a block of at least one matched point and
    a bias matrix with one row per matched point, both with the columns of
    the moving block, and every batch size of at least 1, [batch_bias] with
    that batch size has the outcome of the unbatched [batch_bias]: over the
    real numbers the chunked accumulation followed by the single division
    computes the same array, which both return when the moving block has a
    row and a column; both raise when it has not ([rbf_kernel] refuses it). *)
Theorem batch_bias_batched_unbatched (curr_ds match_ds bias : np.ndarray)
    (batch_size : nat) (sigma : R) :
  np.shape1 curr_ds = np.shape1 match_ds →
  np.shape0 match_ds = np.shape0 bias →
  np.shape1 bias = np.shape1 curr_ds →
  0 < np.shape0 match_ds →
  1 ≤ batch_size →
  batch_bias curr_ds match_ds bias (Some batch_size) sigma
  = batch_bias curr_ds match_ds bias None sigma
  ∧ (0 < np.shape0 curr_ds → 0 < np.shape1 curr_ds →
     is_Some (batch_bias curr_ds match_ds bias None sigma)).
Proof.
  intros H1 H0 Hb Hm0 Hbs.
  destruct (decide (0 < np.shape0 curr_ds ∧ 0 < np.shape1 curr_ds)) as [[Hc0 Hc1]|Hc].
  - rewrite batch_bias_batched, batch_bias_unbatched by done.
    split; [done | by eexists].
  - rewrite !batch_bias_refused by (done || lia). split; [done | intros; lia].
Qed.

Lemma take_rows_rows (a m : np.ndarray) (idx : list Z) :
  np.take_rows a idx = Some m →
  np.shape1 m = np.shape1 a
  ∧ np.shape0 m = length idx
  ∧ Forall (λ row, row ∈ np.data a) (np.data m).
Proof.
  unfold np.take_rows. intros Hm.
  destruct (mapM _ idx) as [rows|] eqn:Hrows; [| done]. simpl in Hm.
  injection Hm as <-. simpl. split; [done |]. split.
  { unfold np.shape0. simpl. symmetry. by eapply length_mapM. }
  apply mapM_Some_1 in Hrows. clear -Hrows.
  induction Hrows as [|i row idx rows Hi _ IH]; constructor; [| done].
  destruct (np.norm_index _ i) as [k|]; [| done]. simpl in Hi.
  by eapply list_elem_of_lookup_2.
Qed.

Lemma sqdist_sq_norm (x y : list R) :
  sklearn.sqdist x y = sq_norm (zip_with Rminus x y).
Proof.
  unfold sklearn.sqdist, sq_norm. f_equal.
  revert y. induction x as [|a x IH]; intros [|b y]; simpl; try done.
  by rewrite IH.
Qed.

Lemma kernel_row_weight (sigma : R) (p : list R) (ms : list (list R)) :
  kernel_row (0.5 * sigma) p ms = kernel_weight sigma p <$> ms.
Proof.
  unfold kernel_row. apply list_fmap_ext. intros _ m _.
  unfold kernel_weight. rewrite sqdist_sq_norm. f_equal. lra.
Qed.

Lemma nth_zip_with_minus (r m : list R) (c : nat) :
  length r = length m →
  nth c (zip_with Rminus r m) 0%R = (nth c r 0 - nth c m 0)%R.
Proof.
  revert m c. induction r as [|a r IH]; intros [|b m] [|c] Hlen; simpl in *;
    try done; try lra.
  apply IH. lia.
Qed.

Lemma weighted_bias_sum (sigma : R) (p : list R) (ms rs : list (list R))
    (d c : nat) :
  length ms = length rs →
  Forall (λ m, length m = d) ms →
  Forall (λ r, length r = d) rs →
  np.inner (kernel_weight sigma p <$> ms)
           ((λ b, nth c b 0%R) <$> zip_with (zip_with Rminus) rs ms)
  = np.vsum ((λ mr, kernel_weight sigma p mr.1 * (nth c mr.2 0 - nth c mr.1 0))%R
               <$> zip ms rs).
Proof.
  intros Hlen Hms. revert rs Hlen.
  induction Hms as [|m ms Hm _ IH]; intros [|r rs] Hlen Hrs; simpl in *; try done.
  inversion_clear Hrs as [|? ? Hr Hrs'].
  unfold np.inner in *. simpl. rewrite IH by (done || lia).
  rewrite nth_zip_with_minus by lia. done.
Qed.

Lemma weight_sum (sigma : R) (p : list R) (ms rs : list (list R)) :
  length ms = length rs →
  np.vsum (kernel_weight sigma p <$> ms)
  = np.vsum ((λ mr, kernel_weight sigma p mr.1) <$> zip ms rs).
Proof.
  intros Hlen. rewrite <- (fst_zip ms rs) at 1 by lia.
  by rewrite <- list_fmap_compose.
Qed.

Lemma weight_sum_pos (sigma : R) (p : list R) (ms : list (list R)) :
  ms ≠ [] → (0 < np.vsum (kernel_weight sigma p <$> ms))%R.
Proof.
  assert (∀ m, 0 < kernel_weight sigma p m)%R as Hpos by (intros m; apply exp_pos).
  assert (∀ l, 0 <= np.vsum (kernel_weight sigma p <$> l))%R as Hnonneg.
  { induction l as [|m l IH]; [unfold np.vsum; simpl; lra |].
    rewrite fmap_cons. unfold np.vsum in *. simpl.
    specialize (Hpos m). lra. }
  destruct ms as [|m ms]; [done |]. intros _.
  rewrite fmap_cons. specialize (Hnonneg ms). specialize (Hpos m).
  unfold np.vsum in *. simpl. lra.
Qed.

Lemma smoothed_bias_entry (curr_ds match_ds bias : np.ndarray) (sigma : R)
    (p c : nat) (row : list R) :
  np.data curr_ds !! p = Some row →
  c < np.shape1 curr_ds →
  np.entry (smoothed_bias curr_ds match_ds bias sigma) p c
  = (np.inner (kernel_row (0.5 * sigma) row (np.data match_ds))
              ((λ b, nth c b 0%R) <$> np.data bias)
     / np.vsum (kernel_row (0.5 * sigma) row (np.data match_ds)))%R.
Proof.
  intros Hrow Hc. unfold np.entry, smoothed_bias, numerator_rows, denominator_rows.
  simpl. rewrite <- list_fmap_compose, zip_with_fmap_same.
  erewrite (nth_lookup_Some _ p []); cycle 1.
  { rewrite list_lookup_fmap, Hrow. reflexivity. }
  simpl. rewrite zip_with_replicate_r_eq by by rewrite length_fmap, length_seq.
  rewrite <- list_fmap_compose.
  erewrite nth_lookup_Some; [reflexivity |].
  rewrite list_lookup_fmap, lookup_seq_lt by done. reflexivity.
Qed.

(** The formula that [transform] evaluates.  Over the real numbers, for
    matched index lists that select rows of the moving and of the reference
    block (at least one pair), the entry of the result for every point [p]
    of the moving block (matched or not) is the Nadaraya–Watson estimate:
    the average of the bias vectors (reference-side point − moving-side
    point) of the matches, weighted by [exp(-0.5·sigma·‖p − m‖²)] for the
    moving-side point [m] and normalized by the sum of the weights.  The
    exponential of a real number is positive, and so is the sum; the
    [float64] exponential of the code is [0.0] from about [-745] downwards,
    and where every weight of a point is [0.0] the code divides zero by
    zero, which this lemma does not describe. *)
Lemma transform_real_estimate (curr_ds curr_ref : np.ndarray)
    (ds_ind ref_ind : list Z) (sigma : R) (cn : bool) (batch_size : option nat)
    (match_ds match_ref : np.ndarray) :
  0 < np.shape0 curr_ds →
  0 < np.shape1 curr_ds →
  np.wf curr_ds →
  np.wf curr_ref →
  np.shape1 curr_ds = np.shape1 curr_ref →
  np.take_rows curr_ds ds_ind = Some match_ds →
  np.take_rows curr_ref ref_ind = Some match_ref →
  length ds_ind = length ref_ind →
  ds_ind ≠ [] →
  (∀ n, batch_size = Some n → 1 ≤ n) →
  ∃ avg_bias,
    transform curr_ds curr_ref ds_ind ref_ind sigma cn batch_size = Some avg_bias
    ∧ np.shape0 avg_bias = np.shape0 curr_ds
    ∧ np.shape1 avg_bias = np.shape1 curr_ds
    ∧ ∀ p c row,
        np.data curr_ds !! p = Some row →
        c < np.shape1 curr_ds →
        (0 < np.vsum ((λ mr, kernel_weight sigma row mr.1)
                        <$> zip (np.data match_ds) (np.data match_ref)))%R
        ∧ np.entry avg_bias p c
          = nadaraya_watson sigma row (zip (np.data match_ds) (np.data match_ref)) c.
Proof.
  intros Hc0 Hc1 Hwf Hwf_ref Hcols Hds Href Hlen Hne Hbatch.
  destruct (take_rows_rows _ _ _ Hds) as (Hs1 & Hs0 & Hrows).
  destruct (take_rows_rows _ _ _ Href) as (Hr1 & Hr0 & Hrows_ref).
  assert (Forall (λ m, length m = np.shape1 curr_ds) (np.data match_ds)) as Hms.
  { unfold np.wf in Hwf. rewrite list.Forall_forall in Hwf, Hrows |- *. auto. }
  assert (Forall (λ r, length r = np.shape1 curr_ds) (np.data match_ref)) as Hrs.
  { unfold np.wf in Hwf_ref. rewrite list.Forall_forall in Hwf_ref, Hrows_ref |- *.
    intros r Hr. rewrite Hcols. auto. }
  assert (length (np.data match_ds) = length (np.data match_ref)) as Hlen'.
  { unfold np.shape0 in *. lia. }
  set (bias := np.mk_ndarray (np.shape1 match_ref)
                 (zip_with (zip_with Rminus) (np.data match_ref) (np.data match_ds))).
  assert (np.sub match_ref match_ds = Some bias) as Hsub.
  { unfold np.sub, np.elementwise, np.same_shape.
    rewrite Hs0, Hr0, Hs1, Hlen, Hr1, Hcols, !Nat.eqb_refl. simpl.
    unfold bias. by rewrite Hr1. }
  assert (batch_bias curr_ds match_ds bias batch_size sigma
          = Some (smoothed_bias curr_ds match_ds bias sigma)) as Hbias.
  { assert (np.shape0 match_ds = np.shape0 bias) as Hb0.
    { unfold np.shape0, bias in *. simpl. rewrite length_zip_with. lia. }
    assert (np.shape1 bias = np.shape1 curr_ds) as Hb1.
    { unfold bias. simpl. congruence. }
    destruct batch_size as [n|].
    - apply batch_bias_batched; auto.
    - apply batch_bias_unbatched; auto.
      rewrite Hs0. destruct ds_ind; [done | simpl; lia]. }
  exists (smoothed_bias curr_ds match_ds bias sigma). split.
  { unfold transform. rewrite Hds, Href. simpl. rewrite Hsub. simpl. exact Hbias. }
  split.
  { unfold smoothed_bias, np.shape0. simpl.
    rewrite length_zip_with, length_numerator_rows, length_fmap, length_denominator_rows.
    lia. }
  split; [done |].
  intros p c row Hrow Hc.
  rewrite <- weight_sum by done. split.
  { apply weight_sum_pos. intros Hnil.
    unfold np.shape0 in Hs0. rewrite Hnil in Hs0. by destruct ds_ind. }
  rewrite smoothed_bias_entry with (row := row) by done.
  unfold nadaraya_watson. rewrite kernel_row_weight.
  rewrite <- weight_sum by done. unfold bias. simpl.
  by rewrite (weighted_bias_sum sigma row _ _ (np.shape1 curr_ds)).
Qed.

(** *** Edges inside one panorama *)

Lemma write_back_frame (curr_ds : np.ndarray) (panorama : list nat)
    (datasets datasets' : list np.ndarray) :
  write_back curr_ds datasets panorama = Some datasets' →
  length datasets' = length datasets
  ∧ ∀ q, q ∉ panorama → datasets' !! q = datasets !! q.
Proof.
  unfold write_back. intros Hwb.
  destruct (foldlM _ (datasets, 0) panorama) as [[ds base]|] eqn:Hfold; [| done].
  simpl in Hwb. injection Hwb as <-.
  revert Hfold. generalize 0 at 1. revert datasets.
  induction panorama as [|p panorama IH]; intros datasets base0 Hfold.
  { simpl in Hfold. injection Hfold as <- _. done. }
  rewrite foldlM_cons in Hfold. simpl in Hfold.
  destruct (datasets !! p) as [ds_p|] eqn:Hp; [| done]. simpl in Hfold.
  apply IH in Hfold as [Hlen Hframe]. split.
  - by rewrite Hlen, length_insert.
  - intros q Hq. rewrite not_elem_of_cons in Hq. destruct Hq as [Hne Hq].
    rewrite Hframe by done. by rewrite list_lookup_insert_ne.
Qed.

Lemma merge_matches_i_loop (datasets : list np.ndarray) (matches : match_table)
    (i j : nat) (base_j : Z) (panorama : list nat) (acc : list (Z * Z)) (base : Z)
    (r : list (Z * Z) * Z) :
  NoDup panorama →
  foldlM (λ '(match_, base) p,
            ds_p ← datasets !! p;
            let match_ :=
              if decide (p = i ∧ j < p ∧ (j, p) ∈ dom matches)
              then match_ ++ ((λ ab, (ab.2 + base, ab.1 + base_j)%Z)
                                <$> elements (default ∅ (matches !! (j, p))))
              else if decide (p = i ∧ p < j ∧ (p, j) ∈ dom matches)
              then match_ ++ ((λ ab, (ab.1 + base, ab.2 + base_j)%Z)
                                <$> elements (default ∅ (matches !! (p, j))))
              else match_ in
            Some (match_, (base + Z.of_nat (np.shape0 ds_p))%Z))
         (acc, base) panorama = Some r →
  (i ∉ panorama → r.1 = acc)
  ∧ (i ∈ panorama →
     ∃ base_i, base_index datasets i panorama base = Some base_i
               ∧ r.1 = acc ++ shifted base_i base_j (matches_between matches i j)).
Proof.
  clear kneighbors annoy_nns normalize normalize_shape0 normalize_shape1.
  intros Hnodup. revert acc base.
  induction Hnodup as [|p panorama Hp Hnodup IH]; intros acc base Hloop.
  { simpl in Hloop. injection Hloop as <-. split; [done |]. by intros ?%elem_of_nil. }
  rewrite foldlM_cons in Hloop. simpl in Hloop.
  destruct (datasets !! p) as [ds_p|] eqn:Hds; [| done]. simpl in Hloop.
  apply IH in Hloop as [Hout Hin].
  destruct (decide (p = i)) as [->|Hne].
  - assert (r.1 = acc ++ shifted base base_j (matches_between matches i j)) as Hr.
    { rewrite (Hout Hp). unfold shifted, matches_between.
      destruct (decide (j < i)) as [Hji|Hji].
      - rewrite (decide_False (P := i < j)) by lia.
        destruct (decide ((j, i) ∈ dom matches)) as [Hdom|Hdom].
        + rewrite decide_True by done. by rewrite <- list_fmap_compose.
        + rewrite decide_False by tauto. rewrite decide_False by lia.
          apply not_elem_of_dom in Hdom. rewrite Hdom. simpl.
          rewrite elements_empty. simpl. by rewrite app_nil_r.
      - rewrite decide_False by tauto.
        destruct (decide (i < j)) as [Hij|Hij].
        + destruct (decide ((i, j) ∈ dom matches)) as [Hdom|Hdom].
          * by rewrite decide_True by done.
          * rewrite decide_False by tauto.
            apply not_elem_of_dom in Hdom. rewrite Hdom. simpl.
            rewrite elements_empty. simpl. by rewrite app_nil_r.
        + rewrite decide_False by tauto. simpl. by rewrite app_nil_r. }
    split; [intros Hni; exfalso; apply Hni; left |].
    intros _. exists base. split; [| done].
    simpl. by rewrite decide_True.
  - rewrite !decide_False in Hout, Hin by tauto.
    split.
    + intros Hni. apply Hout. by intros ?; apply Hni; right.
    + intros Hi. apply elem_of_cons in Hi as [?|Hi]; [done |].
      destruct (Hin Hi) as (base_i & Hbase & Hr).
      exists base_i. split; [| done].
      simpl. rewrite decide_False by done. rewrite Hds. simpl. done.
Qed.

Lemma merge_matches_j_loop (datasets : list np.ndarray) (matches : match_table)
    (i j : nat) (base_i : Z) (panorama : list nat) (acc : list (Z * Z)) (base : Z)
    (r : list (Z * Z) * Z) :
  NoDup panorama →
  foldlM (λ '(match_, base) p,
            ds_p ← datasets !! p;
            let match_ :=
              if decide (p = j ∧ i < p ∧ (i, p) ∈ dom matches)
              then match_ ++ ((λ ab, (ab.1 + base_i, ab.2 + base)%Z)
                                <$> elements (default ∅ (matches !! (i, p))))
              else if decide (p = j ∧ p < i ∧ (p, i) ∈ dom matches)
              then match_ ++ ((λ ab, (ab.2 + base_i, ab.1 + base)%Z)
                                <$> elements (default ∅ (matches !! (p, i))))
              else match_ in
            Some (match_, (base + Z.of_nat (np.shape0 ds_p))%Z))
         (acc, base) panorama = Some r →
  (j ∉ panorama → r.1 = acc)
  ∧ (j ∈ panorama →
     ∃ base_j, base_index datasets j panorama base = Some base_j
               ∧ r.1 = acc ++ shifted base_i base_j (matches_between matches i j)).
Proof.
  clear kneighbors annoy_nns normalize normalize_shape0 normalize_shape1.
  intros Hnodup. revert acc base.
  induction Hnodup as [|p panorama Hp Hnodup IH]; intros acc base Hloop.
  { simpl in Hloop. injection Hloop as <-. split; [done |]. by intros ?%elem_of_nil. }
  rewrite foldlM_cons in Hloop. simpl in Hloop.
  destruct (datasets !! p) as [ds_p|] eqn:Hds; [| done]. simpl in Hloop.
  apply IH in Hloop as [Hout Hin].
  destruct (decide (p = j)) as [->|Hne].
  - assert (r.1 = acc ++ shifted base_i base (matches_between matches i j)) as Hr.
    { rewrite (Hout Hp). unfold shifted, matches_between.
      destruct (decide (i < j)) as [Hij|Hij].
      - destruct (decide ((i, j) ∈ dom matches)) as [Hdom|Hdom].
        + by rewrite decide_True by done.
        + rewrite decide_False by tauto. rewrite decide_False by lia.
          apply not_elem_of_dom in Hdom. rewrite Hdom. simpl.
          rewrite elements_empty. simpl. by rewrite app_nil_r.
      - rewrite decide_False by tauto.
        destruct (decide (j < i)) as [Hji|Hji].
        + destruct (decide ((j, i) ∈ dom matches)) as [Hdom|Hdom].
          * rewrite decide_True by done. by rewrite <- list_fmap_compose.
          * rewrite decide_False by tauto.
            apply not_elem_of_dom in Hdom. rewrite Hdom. simpl.
            rewrite elements_empty. simpl. by rewrite app_nil_r.
        + rewrite decide_False by tauto. simpl. by rewrite app_nil_r. }
    split; [intros Hni; exfalso; apply Hni; left |].
    intros _. exists base. split; [| done].
    simpl. by rewrite decide_True.
  - rewrite !decide_False in Hout, Hin by tauto.
    split.
    + intros Hni. apply Hout. by intros ?; apply Hni; right.
    + intros Hj. apply elem_of_cons in Hj as [?|Hj]; [done |].
      destruct (Hin Hj) as (base_j & Hbase & Hr).
      exists base_j. split; [| done].
      simpl. rewrite decide_False by done. rewrite Hds. simpl. done.
Qed.

Lemma merge_matches_closed (datasets : list np.ndarray) (matches : match_table)
    (i j : nat) (base_i base_j : Z) (panorama : list nat)
    (match1 match_ : list (Z * Z)) :
  NoDup panorama → i ∈ panorama → j ∈ panorama →
  base_index datasets i panorama 0 = Some base_i →
  base_index datasets j panorama 0 = Some base_j →
  merge_matches_i datasets matches i j base_j panorama [] = Some match1 →
  merge_matches_j datasets matches i j base_i panorama match1 = Some match_ →
  match_ = shifted base_i base_j (matches_between matches i j)
           ++ shifted base_i base_j (matches_between matches i j).
Proof.
  clear kneighbors annoy_nns normalize normalize_shape0 normalize_shape1.
  intros Hnodup Hi Hj Hbi Hbj Hm1 Hm.
  unfold merge_matches_i in Hm1. unfold merge_matches_j in Hm.
  destruct (foldlM _ ([], 0%Z) panorama) as [r1|] eqn:Hloop1; [| done].
  destruct (foldlM _ (match1, 0%Z) panorama) as [r2|] eqn:Hloop2; [| done].
  simpl in Hm1, Hm. injection Hm1 as <-. injection Hm as <-.
  apply (merge_matches_i_loop _ _ _ _ _ _ _ _ _ Hnodup) in Hloop1 as [_ H1].
  apply (merge_matches_j_loop _ _ _ _ _ _ _ _ _ Hnodup) in Hloop2 as [_ H2].
  destruct (H1 Hi) as (base_i' & Hbi' & Hr1).
  destruct (H2 Hj) as (base_j' & Hbj' & Hr2).
  rewrite Hr2, Hr1. simpl. congruence.
Qed.

Lemma assemble_step_both_assigned (matches : match_table) (sigma : R)
    (batch_size : option nat) (realign : bool) (st : assembly) (i j pi pj : nat) :
  ¬ (VISIT_CAP < visits (visit j (visit i (st_ds_assembled st))) i
     ∧ VISIT_CAP < visits (visit j (visit i (st_ds_assembled st))) j) →
  containing (st_panoramas st) i = [pi] →
  containing (st_panoramas st) j = [pj] →
  assemble_step matches sigma batch_size realign st (i, j)
  = merge_panoramas matches sigma batch_size realign
      (mk_assembly (st_datasets st) (st_expr_datasets st) (st_panoramas st)
         (visit j (visit i (st_ds_assembled st))))
      i j pi pj.
Proof.
  intros Hcap Hi Hj. unfold assemble_step.
  rewrite decide_False by done. simpl. rewrite Hi, Hj. simpl. done.
Qed.

Lemma merge_same_panorama (matches : match_table) (sigma : R)
    (batch_size : option nat) (realign : bool) (st st' : assembly) (i j p : nat) :
  merge_panoramas matches sigma batch_size realign st i j p p = Some st' →
  ∃ panorama curr_ds base_i base_j match1 match_ bias corrected,
    st_panoramas st !! p = Some panorama
    ∧ concat_members (st_datasets st) panorama = Some curr_ds
    ∧ base_index (st_datasets st) i panorama 0 = Some base_i
    ∧ base_index (st_datasets st) j panorama 0 = Some base_j
    ∧ merge_matches_i (st_datasets st) matches i j base_j panorama [] = Some match1
    ∧ merge_matches_j (st_datasets st) matches i j base_i panorama match1
      = Some match_
    ∧ transform curr_ds curr_ds match_.*1 match_.*2 sigma false batch_size = Some bias
    ∧ np.add curr_ds bias = Some corrected
    ∧ write_back corrected (st_datasets st) panorama = Some (st_datasets st')
    ∧ st_panoramas st' = st_panoramas st
    ∧ st_ds_assembled st' = st_ds_assembled st
    ∧ (realign = false → st_expr_datasets st' = st_expr_datasets st).
Proof.
  unfold merge_panoramas. intros Hm.
  destruct (st_panoramas st !! p) as [panorama|] eqn:Hp; [| done]. simpl in Hm.
  destruct (concat_members (st_datasets st) panorama) as [curr_ds|] eqn:Hcat;
    [| done]. simpl in Hm.
  destruct (base_index _ i panorama 0) as [base_i|] eqn:Hbi; [| done]. simpl in Hm.
  destruct (base_index _ j panorama 0) as [base_j|] eqn:Hbj; [| done]. simpl in Hm.
  destruct (merge_matches_i _ _ _ _ _ _ _) as [match1|] eqn:Hm1; [| done].
  simpl in Hm.
  destruct (merge_matches_j _ _ _ _ _ _ _) as [match_|] eqn:Hm2; [| done].
  simpl in Hm.
  destruct (transform curr_ds curr_ds _ _ _ _ _) as [bias|] eqn:Htr; [| done].
  simpl in Hm.
  destruct (np.add curr_ds bias) as [corrected|] eqn:Hadd; [| done]. simpl in Hm.
  destruct (write_back corrected _ panorama) as [datasets'|] eqn:Hwb; [| done].
  simpl in Hm.
  destruct (match st_expr_datasets st with Some _ => _ | None => _ end)
    as [expr'|] eqn:Hexpr; [| done]. simpl in Hm.
  rewrite decide_False in Hm by (intros Hne; by apply Hne).
  simpl in Hm. injection Hm as <-. simpl.
  exists panorama, curr_ds, base_i, base_j, match1, match_, bias, corrected.
  split_and!; try done.
  intros ->. destruct (st_expr_datasets st); simpl in Hexpr; congruence.
Qed.

#[local] Arguments batch_bias : simpl never.
#[local] Arguments transform : simpl never.
#[local] Arguments concat_members : simpl never.
#[local] Arguments matches_to_panorama : simpl never.
#[local] Arguments merge_matches_i : simpl never.
#[local] Arguments merge_matches_j : simpl never.
#[local] Arguments base_index : simpl never.
#[local] Arguments write_back : simpl never.
#[local] Arguments smoothed_bias : simpl never.

Lemma assemble_step_both_unassigned (matches : match_table) (sigma : R)
    (batch_size : option nat) (realign : bool) (st : assembly) (i j : nat)
    (ds_i ds_j : np.ndarray) :
  ¬ (VISIT_CAP < visits (visit j (visit i (st_ds_assembled st))) i
     ∧ VISIT_CAP < visits (visit j (visit i (st_ds_assembled st))) j) →
  containing (st_panoramas st) i = [] →
  containing (st_panoramas st) j = [] →
  st_datasets st !! i = Some ds_i →
  st_datasets st !! j = Some ds_j →
  assemble_step matches sigma batch_size realign st (i, j)
  = let seed := if decide (np.shape0 ds_i < np.shape0 ds_j) then j else i in
    let moving := if decide (np.shape0 ds_i < np.shape0 ds_j) then i else j in
    map_to_panorama matches sigma batch_size
      (mk_assembly (st_datasets st) (st_expr_datasets st)
         (st_panoramas st ++ [[seed]])
         (visit j (visit i (st_ds_assembled st))))
      moving (length (st_panoramas st)).
Proof.
  intros Hcap Hi Hj Hdi Hdj. unfold assemble_step.
  rewrite decide_False by done. simpl. rewrite Hi, Hj. simpl.
  rewrite Hdi, Hdj. simpl. by destruct (decide (np.shape0 ds_i < np.shape0 ds_j)).
Qed.

Lemma assemble_step_first_unassigned (matches : match_table) (sigma : R)
    (batch_size : option nat) (realign : bool) (st : assembly) (i j pj : nat) :
  ¬ (VISIT_CAP < visits (visit j (visit i (st_ds_assembled st))) i
     ∧ VISIT_CAP < visits (visit j (visit i (st_ds_assembled st))) j) →
  containing (st_panoramas st) i = [] →
  containing (st_panoramas st) j = [pj] →
  assemble_step matches sigma batch_size realign st (i, j)
  = map_to_panorama matches sigma batch_size
      (mk_assembly (st_datasets st) (st_expr_datasets st) (st_panoramas st)
         (visit j (visit i (st_ds_assembled st))))
      i pj.
Proof.
  intros Hcap Hi Hj. unfold assemble_step.
  rewrite decide_False by done. simpl. rewrite Hi, Hj. simpl. done.
Qed.

Lemma assemble_step_second_unassigned (matches : match_table) (sigma : R)
    (batch_size : option nat) (realign : bool) (st : assembly) (i j pi : nat) :
  ¬ (VISIT_CAP < visits (visit j (visit i (st_ds_assembled st))) i
     ∧ VISIT_CAP < visits (visit j (visit i (st_ds_assembled st))) j) →
  containing (st_panoramas st) i = [pi] →
  containing (st_panoramas st) j = [] →
  assemble_step matches sigma batch_size realign st (i, j)
  = map_to_panorama matches sigma batch_size
      (mk_assembly (st_datasets st) (st_expr_datasets st) (st_panoramas st)
         (visit j (visit i (st_ds_assembled st))))
      j pi.
Proof.
  intros Hcap Hi Hj. unfold assemble_step.
  rewrite decide_False by done. simpl. rewrite Hi, Hj. simpl. done.
Qed.

Lemma map_to_panorama_eval (matches : match_table) (sigma : R)
    (st : assembly) (i pj : nat) (panorama : list nat)
    (curr_ds curr_ref match_ds match_ref bias corrected : np.ndarray)
    (match_ : list (Z * Z)) :
  st_expr_datasets st = None →
  st_panoramas st !! pj = Some panorama →
  st_datasets st !! i = Some curr_ds →
  concat_members (st_datasets st) panorama = Some curr_ref →
  matches_to_panorama (st_datasets st) matches i panorama = Some match_ →
  np.take_rows curr_ds match_.*1 = Some match_ds →
  np.take_rows curr_ref match_.*2 = Some match_ref →
  np.sub match_ref match_ds = Some bias →
  0 < np.shape0 curr_ds →
  0 < np.shape1 curr_ds →
  0 < np.shape0 match_ds →
  np.shape1 curr_ds = np.shape1 match_ds →
  np.shape0 match_ds = np.shape0 bias →
  np.shape1 bias = np.shape1 curr_ds →
  np.add curr_ds (smoothed_bias curr_ds match_ds bias sigma) = Some corrected →
  map_to_panorama matches sigma None st i pj
  = Some (mk_assembly (<[i := corrected]> (st_datasets st)) None
            (alter (λ l, l ++ [i]) pj (st_panoramas st)) (st_ds_assembled st)).
Proof.
  intros Hexpr Hp Hi Hcat Hmatch Hds Href Hsub Hc0 Hc1 Hm0 H1 H0 Hb Hadd.
  unfold map_to_panorama.
  rewrite Hp, Hi. simpl. rewrite Hcat. simpl. rewrite Hmatch. simpl.
  unfold transform. rewrite Hds, Href. simpl. rewrite Hsub. simpl.
  rewrite batch_bias_unbatched by done. simpl. rewrite Hadd. simpl.
  by rewrite Hexpr.
Qed.

Lemma merge_same_panorama_eval (matches : match_table) (sigma : R)
    (realign : bool) (st : assembly) (i j p : nat) (panorama : list nat)
    (curr_ds match_ds match_ref bias corrected : np.ndarray)
    (base_i base_j : Z) (match1 match_ : list (Z * Z)) (datasets' : list np.ndarray) :
  st_expr_datasets st = None →
  st_panoramas st !! p = Some panorama →
  concat_members (st_datasets st) panorama = Some curr_ds →
  base_index (st_datasets st) i panorama 0 = Some base_i →
  base_index (st_datasets st) j panorama 0 = Some base_j →
  merge_matches_i (st_datasets st) matches i j base_j panorama [] = Some match1 →
  merge_matches_j (st_datasets st) matches i j base_i panorama match1 = Some match_ →
  np.take_rows curr_ds match_.*1 = Some match_ds →
  np.take_rows curr_ds match_.*2 = Some match_ref →
  np.sub match_ref match_ds = Some bias →
  0 < np.shape0 curr_ds →
  0 < np.shape1 curr_ds →
  0 < np.shape0 match_ds →
  np.shape1 curr_ds = np.shape1 match_ds →
  np.shape0 match_ds = np.shape0 bias →
  np.shape1 bias = np.shape1 curr_ds →
  np.add curr_ds (smoothed_bias curr_ds match_ds bias sigma) = Some corrected →
  write_back corrected (st_datasets st) panorama = Some datasets' →
  merge_panoramas matches sigma None realign st i j p p
  = Some (mk_assembly datasets' None (st_panoramas st) (st_ds_assembled st)).
Proof.
  intros Hexpr Hp Hcat Hbi Hbj Hm1 Hm Hds Href Hsub Hc0 Hc1 Hm0 H1 H0 Hb Hadd Hwb.
  unfold merge_panoramas.
  rewrite Hp. simpl. rewrite Hcat. simpl. rewrite Hbi, Hbj. simpl.
  rewrite Hm1. simpl. rewrite Hm. simpl.
  unfold transform. rewrite Hds, Href. simpl. rewrite Hsub. simpl.
  rewrite batch_bias_unbatched by done. simpl. rewrite Hadd. simpl.
  rewrite Hwb. simpl. rewrite Hexpr. simpl.
  by rewrite decide_False by (intros Hne; by apply Hne).
Qed.

(** C1, as the code has it.  A processed edge [(i, j)] whose two endpoints
    already belong to one and the same panorama goes through the merge
    branch: the panorama list stays as it is and no dataset outside that
    panorama is changed, but the members of the panorama are corrected once
    more.  The concatenation [curr_ds] of the members is transformed against
    itself along the matches that the two loops of the branch collect for
    [i] and [j]; in a panorama without a repeated member these are the
    mutual matches of [i] and [j], each row moved by the offset of its
    dataset in the concatenation, and the list holds them twice, once from
    each loop.  Every member receives its rows of [curr_ds + bias].  The
    expression matrices are left alone unless [realign] is set. *)
Theorem assemble_same_panorama (matches : match_table) (sigma : R)
    (batch_size : option nat) (realign : bool) (st st' : assembly) (i j p : nat) :
  ¬ (VISIT_CAP < visits (visit j (visit i (st_ds_assembled st))) i
     ∧ VISIT_CAP < visits (visit j (visit i (st_ds_assembled st))) j) →
  containing (st_panoramas st) i = [p] →
  containing (st_panoramas st) j = [p] →
  assemble_step matches sigma batch_size realign st (i, j) = Some st' →
  ∃ panorama curr_ds base_i base_j match1 match_ bias corrected,
    st_panoramas st !! p = Some panorama
    ∧ i ∈ panorama ∧ j ∈ panorama
    ∧ concat_members (st_datasets st) panorama = Some curr_ds
    ∧ base_index (st_datasets st) i panorama 0 = Some base_i
    ∧ base_index (st_datasets st) j panorama 0 = Some base_j
    ∧ merge_matches_i (st_datasets st) matches i j base_j panorama [] = Some match1
    ∧ merge_matches_j (st_datasets st) matches i j base_i panorama match1
      = Some match_
    ∧ (NoDup panorama →
       match_ = shifted base_i base_j (matches_between matches i j)
                ++ shifted base_i base_j (matches_between matches i j))
    ∧ transform curr_ds curr_ds match_.*1 match_.*2 sigma false batch_size = Some bias
    ∧ np.add curr_ds bias = Some corrected
    ∧ write_back corrected (st_datasets st) panorama = Some (st_datasets st')
    ∧ st_panoramas st' = st_panoramas st
    ∧ (∀ q, q ∉ panorama → st_datasets st' !! q = st_datasets st !! q)
    ∧ (realign = false → st_expr_datasets st' = st_expr_datasets st).
Proof.
  intros Hcap Hi Hj Hstep.
  rewrite (assemble_step_both_assigned _ _ _ _ _ _ _ p p) in Hstep by done.
  apply merge_same_panorama in Hstep
    as (panorama & curr_ds & base_i & base_j & match1 & match_ & bias & corrected
        & Hp & Hcat & Hbi & Hbj & Hm1 & Hm2 & Htr & Hadd & Hwb & Hpan & _ & Hexpr).
  simpl in *.
  destruct (containing_head _ _ _ _ Hi) as (l_i & Hli & Hin_i).
  destruct (containing_head _ _ _ _ Hj) as (l_j & Hlj & Hin_j).
  rewrite Hp in Hli, Hlj. injection Hli as <-. injection Hlj as <-.
  exists panorama, curr_ds, base_i, base_j, match1, match_, bias, corrected.
  split_and!; try done.
  - intros Hnodup. by eapply merge_matches_closed.
  - by apply (write_back_frame corrected panorama).
Qed.

(** * Further properties *)

(** *** Panoramas are the connected components of the alignment graph *)

Lemma grown_refl (panoramas : list (list nat)) : grown panoramas panoramas.
Proof. intros l Hl. by exists l. Qed.

Lemma grown_trans (ps1 ps2 ps3 : list (list nat)) :
  grown ps1 ps2 → grown ps2 ps3 → grown ps1 ps3.
Proof.
  intros H12 H23 l Hl. destruct (H12 l Hl) as (l2 & Hl2 & Hsub).
  destruct (H23 l2 Hl2) as (l3 & Hl3 & Hsub'). exists l3. split; [done |].
  by etransitivity.
Qed.

Lemma together_grown (ps ps' : list (list nat)) (x y : nat) :
  grown ps ps' → together ps x y → together ps' x y.
Proof.
  intros Hg (l & Hl & Hx & Hy). destruct (Hg l Hl) as (l' & Hl' & Hsub).
  exists l'. split; [done |]. split; by apply Hsub.
Qed.

Lemma grown_alter_app (ps : list (list nat)) (p : nat) (extra : list nat) :
  grown ps (alter (λ l, l ++ extra) p ps).
Proof.
  intros l Hl. apply list_elem_of_lookup in Hl as [q Hq].
  destruct (decide (q = p)) as [->|Hne].
  - exists (l ++ extra). split.
    + eapply list_elem_of_lookup_2. by rewrite list_lookup_alter_eq, Hq.
    + intros x Hx. apply elem_of_app. by left.
  - exists l. split; [| done].
    eapply list_elem_of_lookup_2. by rewrite list_lookup_alter_ne.
Qed.

(** What one step of [connect] does to the panoramas, whatever they were:
    no panorama loses a member, and the two endpoints of the edge end up in
    one panorama. *)
Lemma connect_step_grown (ps ps' : list (list nat)) (c c' : gset nat) (i j : nat) :
  connect_step (ps, c) (i, j) = Some (ps', c') →
  grown ps ps' ∧ together ps' i j ∧ c' = {[ j ]} ∪ ({[ i ]} ∪ c).
Proof.
  unfold connect_step. intros Hstep.
  destruct (guard (length (containing ps i) ≤ 1)) as [G1|]; [| done].
  simpl in Hstep. clear G1.
  destruct (guard (length (containing ps j) ≤ 1)) as [G2|]; [| done].
  simpl in Hstep. clear G2.
  destruct (containing ps i) as [|pi rest_i] eqn:Ei;
    destruct (containing ps j) as [|pj rest_j] eqn:Ej; simpl in Hstep.
  - injection Hstep as <- <-.
    rewrite alter_app_r_alt by lia. rewrite Nat.sub_diag. simpl.
    split; [| split; [| done]].
    + intros l Hl. exists l. split; [| done]. apply elem_of_app. by left.
    + exists [i; j]. split; [apply elem_of_app; right; left |].
      split; [left | right; left].
  - apply containing_head in Ej as (l_j & Hpj & Hj).
    injection Hstep as <- <-. split; [apply grown_alter_app |]. split; [| done].
    exists (l_j ++ [i]). split.
    + eapply list_elem_of_lookup_2. by rewrite list_lookup_alter_eq, Hpj.
    + split; apply elem_of_app; [right; left | by left].
  - apply containing_head in Ei as (l_i & Hpi & Hi).
    injection Hstep as <- <-. split; [apply grown_alter_app |]. split; [| done].
    exists (l_i ++ [j]). split.
    + eapply list_elem_of_lookup_2. by rewrite list_lookup_alter_eq, Hpi.
    + split; apply elem_of_app; [by left | right; left].
  - apply containing_head in Ei as (l_i & Hpi & Hi).
    apply containing_head in Ej as (l_j & Hpj & Hj).
    rewrite Hpi, Hpj in Hstep. simpl in Hstep.
    destruct (decide (l_i ≠ l_j)) as [Hne|Heq]; cycle 1.
    { simpl in Hstep. injection Hstep as <- <-.
      assert (l_i = l_j) as <- by (by destruct (decide (l_i = l_j))).
      split; [apply grown_refl |]. split; [| done].
      exists l_i. split; [by eapply list_elem_of_lookup_2 | done]. }
    destruct (remove_first l_j _) as [ps1|] eqn:Hrm; [| done].
    simpl in Hstep. injection Hstep as <- <-.
    apply remove_first_Permutation in Hrm.
    assert (l_i ++ l_j ∈ ps1) as Hmerged.
    { assert (l_i ++ l_j ∈ l_j :: ps1) as Hin.
      { rewrite <- Hrm. eapply list_elem_of_lookup_2.
        by rewrite list_lookup_alter_eq, Hpi. }
      apply elem_of_cons in Hin as [Heq|Hin]; [| done].
      apply (f_equal length) in Heq. rewrite length_app in Heq.
      destruct l_i; [by apply elem_of_nil in Hi | simpl in Heq; lia]. }
    split; [| split; [| done]].
    + intros l Hl.
      destruct (grown_alter_app ps pi l_j l Hl) as (l' & Hl' & Hsub).
      rewrite Hrm in Hl'. apply elem_of_cons in Hl' as [->|Hl'].
      * exists (l_i ++ l_j). split; [done |].
        intros x Hx. apply elem_of_app. right. by apply Hsub.
      * by exists l'.
    + exists (l_i ++ l_j). split; [done |].
      split; apply elem_of_app; [by left | by right].
Qed.

Lemma connect_loop_grown (alignments : list (nat * nat)) (ps ps' : list (list nat))
    (c c' : gset nat) :
  foldlM connect_step (ps, c) alignments = Some (ps', c') →
  grown ps ps'
  ∧ (∀ i j, (i, j) ∈ alignments → together ps' i j)
  ∧ (∀ x, x ∈ c' ↔ x ∈ c ∨ ∃ i j, (i, j) ∈ alignments ∧ (x = i ∨ x = j)).
Proof.
  revert ps c. induction alignments as [|[i j] alignments IH]; intros ps c Hloop.
  { simpl in Hloop. injection Hloop as <- <-. split; [apply grown_refl |].
    split; [by intros i j ?%elem_of_nil |].
    intros x. split; [by left |]. intros [Hx|(i & j & Hin & _)]; [done |].
    by apply elem_of_nil in Hin. }
  rewrite foldlM_cons in Hloop.
  destruct (connect_step (ps, c) (i, j)) as [[ps1 c1]|] eqn:Hstep; [| done].
  simpl in Hloop. apply connect_step_grown in Hstep as (Hg & Htog & ->).
  apply IH in Hloop as (Hg' & Htog' & Hc').
  split; [by eapply grown_trans |]. split.
  - intros i' j' [[= -> ->]|Hin]%elem_of_cons; [| by apply Htog'].
    by eapply together_grown.
  - intros x. rewrite Hc', !elem_of_union, !elem_of_singleton. split.
    + intros [[->|[->|Hx]]|(i' & j' & Hin & Hx)].
      * right. exists i, j. split; [left | by right].
      * right. exists i, j. split; [left | by left].
      * by left.
      * right. exists i', j'. split; [by right | done].
    + intros [Hx|(i' & j' & [[= -> ->]|Hin]%elem_of_cons & Hx)].
      * left. auto.
      * left. destruct Hx as [->| ->]; auto.
      * right. by exists i', j'.
Qed.

Lemma add_singletons_spec (connected : gset nat) (l : list nat)
    (panoramas : list (list nat)) :
  foldl (λ panoramas i,
           if decide (i ∈ connected) then panoramas else panoramas ++ [[i]])
        panoramas l
  = panoramas ++ ((λ i, [i]) <$> filter (λ i, i ∉ connected) l).
Proof.
  revert panoramas. induction l as [|i l IH]; intros panoramas; simpl.
  { by rewrite app_nil_r. }
  rewrite IH, filter_cons. destruct (decide (i ∈ connected)) as [Hin|Hout].
  - by rewrite decide_False by (intros Hn; by apply Hn).
  - rewrite decide_True by done. by rewrite fmap_cons, <- app_assoc.
Qed.

Lemma elem_of_alter_app (ps : list (list nat)) (p : nat) (extra l' : list nat) :
  l' ∈ alter (λ l, l ++ extra) p ps →
  l' ∈ ps ∨ ∃ l, ps !! p = Some l ∧ l' = l ++ extra.
Proof.
  intros [q Hq]%list_elem_of_lookup.
  destruct (decide (q = p)) as [->|Hne].
  - rewrite list_lookup_alter_eq in Hq. destruct (ps !! p) as [l|]; [| done].
    simpl in Hq. injection Hq as <-. right. by exists l.
  - rewrite list_lookup_alter_ne in Hq by done. left.
    by eapply list_elem_of_lookup_2.
Qed.

Lemma linked_edge (alignments : list (nat * nat)) (i j : nat) :
  (i, j) ∈ alignments → linked alignments i j.
Proof. intros Hin. by apply rtsc_lr. Qed.

Lemma linked_app (alignments : list (nat * nat)) (l1 l2 : list nat) (a b : nat) :
  (∀ x y, x ∈ l1 → y ∈ l1 → linked alignments x y) →
  (∀ x y, x ∈ l2 → y ∈ l2 → linked alignments x y) →
  a ∈ l1 → b ∈ l2 → linked alignments a b →
  ∀ x y, x ∈ l1 ++ l2 → y ∈ l1 ++ l2 → linked alignments x y.
Proof.
  intros H1 H2 Ha Hb Hab x y [Hx|Hx]%elem_of_app [Hy|Hy]%elem_of_app.
  - by apply H1.
  - transitivity a; [by apply H1 |]. transitivity b; [done | by apply H2].
  - transitivity b; [by apply H2 |]. transitivity a; [by symmetry | by apply H1].
  - by apply H2.
Qed.

Lemma linked_singleton (alignments : list (nat * nat)) (d x y : nat) :
  x ∈ [d] → y ∈ [d] → linked alignments x y.
Proof. intros ->%list_elem_of_singleton ->%list_elem_of_singleton. done. Qed.

Lemma connect_step_chained (alignments : list (nat * nat))
    (ps ps' : list (list nat)) (c c' : gset nat) (i j : nat) :
  (i, j) ∈ alignments →
  chained alignments ps →
  connect_step (ps, c) (i, j) = Some (ps', c') →
  chained alignments ps'.
Proof.
  intros Hedge Hch. unfold connect_step. intros Hstep.
  destruct (guard (length (containing ps i) ≤ 1)) as [G1|]; [| done].
  simpl in Hstep. clear G1.
  destruct (guard (length (containing ps j) ≤ 1)) as [G2|]; [| done].
  simpl in Hstep. clear G2.
  pose proof (linked_edge _ _ _ Hedge) as Hij.
  destruct (containing ps i) as [|pi rest_i] eqn:Ei;
    destruct (containing ps j) as [|pj rest_j] eqn:Ej; simpl in Hstep.
  - injection Hstep as <- <-.
    rewrite alter_app_r_alt by lia. rewrite Nat.sub_diag. simpl.
    intros l x y [Hl|Hl]%elem_of_app; [by apply Hch |].
    apply list_elem_of_singleton in Hl as ->.
    apply (linked_app alignments [i] [j] i j);
      [apply linked_singleton | apply linked_singleton | left | left | done].
  - apply containing_head in Ej as (l_j & Hpj & Hj).
    injection Hstep as <- <-.
    intros l x y [Hl|(l0 & Hl0 & ->)]%elem_of_alter_app; [by apply Hch |].
    rewrite Hpj in Hl0. injection Hl0 as <-.
    apply (linked_app alignments l_j [i] j i);
      [| apply linked_singleton | done | left | by symmetry].
    intros x' y'. apply Hch. by eapply list_elem_of_lookup_2.
  - apply containing_head in Ei as (l_i & Hpi & Hi).
    injection Hstep as <- <-.
    intros l x y [Hl|(l0 & Hl0 & ->)]%elem_of_alter_app; [by apply Hch |].
    rewrite Hpi in Hl0. injection Hl0 as <-.
    apply (linked_app alignments l_i [j] i j);
      [| apply linked_singleton | done | left | done].
    intros x' y'. apply Hch. by eapply list_elem_of_lookup_2.
  - apply containing_head in Ei as (l_i & Hpi & Hi).
    apply containing_head in Ej as (l_j & Hpj & Hj).
    rewrite Hpi, Hpj in Hstep. simpl in Hstep.
    destruct (decide (l_i ≠ l_j)) as [Hne|Heq]; cycle 1.
    { simpl in Hstep. by injection Hstep as <- <-. }
    destruct (remove_first l_j _) as [ps1|] eqn:Hrm; [| done].
    simpl in Hstep. injection Hstep as <- <-.
    apply remove_first_Permutation in Hrm.
    intros l x y Hl.
    assert (l ∈ alter (λ l, l ++ l_j) pi ps) as Hl'.
    { rewrite Hrm. by right. }
    apply elem_of_alter_app in Hl' as [Hl'|(l0 & Hl0 & ->)]; [by apply Hch |].
    rewrite Hpi in Hl0. injection Hl0 as <-.
    apply (linked_app alignments l_i l_j i j); try done.
    + intros x' y'. apply Hch. by eapply list_elem_of_lookup_2.
    + intros x' y'. apply Hch. by eapply list_elem_of_lookup_2.
Qed.

Lemma connect_loop_chained (all : list (nat * nat)) (alignments : list (nat * nat))
    (ps ps' : list (list nat)) (c c' : gset nat) :
  (∀ ij, ij ∈ alignments → ij ∈ all) →
  chained all ps →
  foldlM connect_step (ps, c) alignments = Some (ps', c') →
  chained all ps'.
Proof.
  revert ps c. induction alignments as [|[i j] alignments IH];
    intros ps c Hsub Hch Hloop.
  { simpl in Hloop. by injection Hloop as <- <-. }
  rewrite foldlM_cons in Hloop.
  destruct (connect_step (ps, c) (i, j)) as [[ps1 c1]|] eqn:Hstep; [| done].
  simpl in Hloop. eapply IH; [| | exact Hloop].
  - intros ij Hin. apply Hsub. by right.
  - eapply connect_step_chained; [| exact Hch | exact Hstep]. apply Hsub. left.
Qed.

(** The two endpoints of every alignment edge are in one panorama. *)
Theorem connect_joins_endpoints (n : nat) (alignments : list (nat * nat))
    (panoramas : list (list nat)) (i j : nat) :
  connect_alignments n alignments = Some panoramas →
  (i, j) ∈ alignments →
  together panoramas i j.
Proof.
  unfold connect_alignments. intros Hconn Hin.
  destruct (foldlM connect_step ([], ∅) alignments) as [[ps c]|] eqn:Hloop; [| done].
  simpl in Hconn. injection Hconn as <-.
  apply connect_loop_grown in Hloop as (_ & Htog & _).
  eapply together_grown; [| by apply Htog].
  rewrite add_singletons_spec. intros l Hl. exists l. split; [| done].
  apply elem_of_app. by left.
Qed.

(** Two dataset indices share a panorama only if a chain of alignment edges
    joins them. *)
Theorem connect_panorama_linked (n : nat) (alignments : list (nat * nat))
    (panoramas : list (list nat)) (x y : nat) :
  connect_alignments n alignments = Some panoramas →
  together panoramas x y →
  linked alignments x y.
Proof.
  unfold connect_alignments. intros Hconn (l & Hl & Hx & Hy).
  destruct (foldlM connect_step ([], ∅) alignments) as [[ps c]|] eqn:Hloop; [| done].
  simpl in Hconn. injection Hconn as <-.
  rewrite add_singletons_spec in Hl. apply elem_of_app in Hl as [Hl|Hl].
  - eapply (connect_loop_chained alignments alignments [] ps ∅ c); try done.
    by intros l0 x0 y0 ?%elem_of_nil.
  - apply list_elem_of_fmap in Hl as (d & -> & _). by eapply linked_singleton.
Qed.

(** A dataset that no alignment edge touches is a panorama of its own. *)
Theorem connect_untouched_singleton (n : nat) (alignments : list (nat * nat))
    (panoramas : list (list nat)) (d : nat) :
  connect_alignments n alignments = Some panoramas →
  d < n →
  (∀ i j, (i, j) ∈ alignments → d ≠ i ∧ d ≠ j) →
  [d] ∈ panoramas.
Proof.
  unfold connect_alignments. intros Hconn Hd Hfree.
  destruct (foldlM connect_step ([], ∅) alignments) as [[ps c]|] eqn:Hloop; [| done].
  simpl in Hconn. injection Hconn as <-.
  apply connect_loop_grown in Hloop as (_ & _ & Hc).
  rewrite add_singletons_spec. apply elem_of_app. right.
  apply list_elem_of_fmap. exists d. split; [done |].
  apply list_elem_of_filter. split; [| apply elem_of_seq; lia].
  rewrite Hc. intros [Hin|(i & j & Hin & Hx)]; [by apply not_elem_of_empty in Hin |].
  destruct (Hfree i j Hin) as [H1 H2]. destruct Hx; congruence.
Qed.

(** *** The edges and the matches handed to [assemble] *)

Lemma score_loop_keys (datasets : list np.ndarray) (table : match_table)
    (pairs : list (nat * nat)) (matches matches' : match_table)
    (table1 table1' : score_table) :
  table_rows_ok datasets table →
  foldlM (score_pair datasets table) (matches, table1) pairs
  = Some (matches', table1') →
  NoDup pairs →
  (∀ k, k ∈ table1.*1 → k ∉ pairs) →
  NoDup table1.*1 →
  (∀ i j m, matches !! (i, j) = Some m → matches_entry_ok table i j m) →
  NoDup table1'.*1
  ∧ ∀ i j m, matches' !! (i, j) = Some m → matches_entry_ok table i j m.
Proof.
  intros Hok. revert matches table1.
  induction pairs as [|[i j] pairs IH];
    intros matches table1 Hloop Hnd Hfresh Hkeys Hm.
  { simpl in Hloop. by injection Hloop as <- <-. }
  rewrite foldlM_cons in Hloop.
  apply list.NoDup_cons in Hnd as [Hij Hnd].
  destruct (score_pair_spec datasets table matches table1 i j Hok)
    as [(Hlt & Htij & Htji & v & Hstep & _)|[_ Hstep]];
    rewrite Hstep in Hloop; simpl in Hloop.
  - apply IH in Hloop; try done.
    + intros k. rewrite fmap_app, elem_of_app. simpl.
      intros [Hk| ->%list_elem_of_singleton]; [| done].
      specialize (Hfresh k Hk). rewrite not_elem_of_cons in Hfresh.
      by destruct Hfresh.
    + rewrite fmap_app. apply list.NoDup_app. split; [done |]. split.
      * intros k Hk ->%list_elem_of_singleton.
        apply (Hfresh _ Hk). left.
      * apply NoDup_singleton.
    + intros i' j' m. destruct (decide ((i, j) = (i', j'))) as [[= <- <-]|Hne].
      * rewrite lookup_insert_eq. intros [= <-]. done.
      * rewrite lookup_insert_ne by done. apply Hm.
  - apply IH in Hloop; try done.
    intros k Hk. specialize (Hfresh k Hk). rewrite not_elem_of_cons in Hfresh.
      by destruct Hfresh.
Qed.

Lemma NoDup_index_pairs (n : nat) : NoDup (index_pairs n).
Proof.
  unfold index_pairs. apply NoDup_bind.
  - intros i1 i2 ij _ _ Hin1 Hin2.
    apply list_elem_of_bind in Hin1 as (j1 & ->%list_elem_of_singleton & _).
    apply list_elem_of_bind in Hin2 as (j2 & [= <- <-]%list_elem_of_singleton & _).
    done.
  - intros i _. apply NoDup_bind.
    + intros j1 j2 ij _ _ ->%list_elem_of_singleton [= <-]%list_elem_of_singleton.
      done.
    + intros j _. apply NoDup_singleton.
    + apply NoDup_seq.
  - apply NoDup_seq.
Qed.

Lemma score_tables_keys (datasets : list np.ndarray) (table matches : match_table)
    (table1 : score_table) :
  table_rows_ok datasets table →
  score_tables datasets table = Some (matches, table1) →
  NoDup table1.*1
  ∧ ∀ i j m, matches !! (i, j) = Some m → matches_entry_ok table i j m.
Proof.
  intros Hok Hscore. unfold score_tables in Hscore.
  eapply score_loop_keys;
    [exact Hok | exact Hscore | apply NoDup_index_pairs
    | by intros k ?%elem_of_nil | constructor
    | intros i j m Hm; by rewrite lookup_empty in Hm].
Qed.

Lemma alignments_of_NoDup (table1 : score_table) (alpha : Q) :
  NoDup table1.*1 → NoDup (alignments_of table1 alpha).
Proof.
  intros Hnd. unfold alignments_of, alignments_scored.
  eapply sublist_NoDup; [| apply fmap_sublist, sublist_filter].
  by rewrite reverse_Permutation, sorted_by_score_perm.
Qed.

Lemma alignments_scored_above (table1 : score_table) (alpha : Q)
    (kv : (nat * nat) * Q) :
  kv ∈ alignments_scored table1 alpha → (alpha < kv.2)%Q.
Proof.
  unfold alignments_scored. intros [Habove _]%list_elem_of_filter.
  by apply above_threshold_iff.
Qed.

Lemma alignment_score_empty (size_i size_j : nat) :
  (alignment_score size_i size_j ∅ == 0)%Q.
Proof.
  unfold alignment_score, distinct_fst, distinct_snd.
  rewrite elements_empty. simpl.
  change (size (∅ : gset Z)) with 0. simpl.
  unfold Qdiv. rewrite !Qmult_0_l. apply Q.max_id.
Qed.

Lemma find_alignments_table_inv (datasets : list np.ndarray) (knn : nat)
    (approx prenormalized : bool) (table1 : score_table) (matches : match_table) :
  find_alignments_table datasets knn approx prenormalized = Some (table1, matches) →
  ∃ table,
    fill_tables (if prenormalized then datasets else normalize <$> datasets) knn approx
    = Some table
    ∧ table_rows_ok (if prenormalized then datasets else normalize <$> datasets) table
    ∧ Forall (score_entry_ok
                (if prenormalized then datasets else normalize <$> datasets) table)
             table1
    ∧ NoDup table1.*1
    ∧ (∀ i j m, matches !! (i, j) = Some m → matches_entry_ok table i j m)
    ∧ (∀ i j, i < j → is_Some (table !! (i, j)) → is_Some (table !! (j, i)) →
              matches !! (i, j) = Some (mutual_of table i j)).
Proof.
  unfold find_alignments_table. intros Hrun.
  destruct (fill_tables _ knn approx) as [table|] eqn:Hfill; [| done].
  simpl in Hrun.
  pose proof (fill_tables_rows_ok _ _ _ _ Hfill) as Hok.
  destruct (score_tables_spec _ _ Hok) as (matches' & table1' & Hscore & Hall & Hnew).
  rewrite Hscore in Hrun. simpl in Hrun. injection Hrun as <- <-.
  destruct (score_tables_keys _ _ _ _ Hok Hscore) as [Hnd Hentries].
  exists table. split_and!; try done.
  intros i j Hlt Hij Hji. by destruct (Hnew i j Hlt Hij Hji).
Qed.

(** Every pair of a mutual match set that [find_alignments_table] returns
    under the key [(i, j)] has [i < j] and consists of a row of dataset [i]
    and a row of dataset [j]. *)
Theorem matches_rows_valid (datasets : list np.ndarray) (knn : nat)
    (approx prenormalized : bool) (table1 : score_table) (matches : match_table)
    (i j : nat) (m : gset (Z * Z)) (a b : Z) :
  find_alignments_table datasets knn approx prenormalized = Some (table1, matches) →
  matches !! (i, j) = Some m →
  (a, b) ∈ m →
  i < j
  ∧ ∃ ds_i ds_j,
      datasets !! i = Some ds_i ∧ datasets !! j = Some ds_j
      ∧ (0 ≤ a < Z.of_nat (np.shape0 ds_i))%Z
      ∧ (0 ≤ b < Z.of_nat (np.shape0 ds_j))%Z.
Proof.
  intros Hrun Hm Hab.
  destruct (find_alignments_table_inv _ _ _ _ _ _ Hrun)
    as (table & _ & Hok & _ & _ & Hentries & _).
  destruct (Hentries i j m Hm) as (Hlt & [t_ij Hij] & [t_ji Hji] & ->).
  split; [done |].
  unfold mutual_of in Hab. rewrite Hij, Hji in Hab. simpl in Hab.
  apply elem_of_intersection in Hab as [Hab Hba].
  apply (proj1 (elem_of_swap_pairs _ _ _)) in Hba.
  destruct (Hok i j t_ij Hij) as (ds_i' & Hi' & _ & Hrows_i).
  destruct (Hok j i t_ji Hji) as (ds_j' & Hj' & _ & Hrows_j).
  destruct (lookup_normalized _ _ _ _ Hi') as (ds_i & Hi & Hsi).
  destruct (lookup_normalized _ _ _ _ Hj') as (ds_j & Hj & Hsj).
  exists ds_i, ds_j. split; [done |]. split; [done |]. split.
  - rewrite <- Hsi. exact (Hrows_i a b Hab).
  - rewrite <- Hsj. exact (Hrows_j b a Hba).
Qed.

(** The edges that [find_alignments] returns are pairs [i < j] of dataset
    indices, no pair occurs twice, and each of them has an entry in the
    returned match table, which is not empty when the threshold [alpha] is
    not negative. *)
Theorem find_alignments_edges (datasets : list np.ndarray) (knn : nat)
    (approx prenormalized : bool) (alpha : Q) (alignments : list (nat * nat))
    (matches : match_table) :
  find_alignments datasets knn approx alpha prenormalized = Some (alignments, matches) →
  NoDup alignments
  ∧ ∀ i j, (i, j) ∈ alignments →
      i < j < length datasets
      ∧ ∃ m, matches !! (i, j) = Some m ∧ ((0 <= alpha)%Q → m ≠ ∅).
Proof.
  unfold find_alignments. intros Hfind.
  destruct (find_alignments_table datasets knn approx prenormalized)
    as [[table1 matches']|] eqn:Hrun; [| done].
  simpl in Hfind. injection Hfind as <- <-.
  destruct (find_alignments_table_inv _ _ _ _ _ _ Hrun)
    as (table & _ & Hok & Hall & Hnd & _ & Hnew).
  split; [by apply alignments_of_NoDup |].
  intros i j ([[i' j'] v] & [= <- <-] & Hin)%list_elem_of_fmap.
  pose proof (alignments_scored_above _ _ _ Hin) as Habove. simpl in Habove.
  apply alignments_scored_subset in Hin.
  rewrite list.Forall_forall in Hall.
  destruct (Hall _ Hin)
    as (Hlt & Hij & Hji & ds_i & ds_j & _ & _ & _ & _ & Hscore & _).
  split.
  { destruct prenormalized; [done |]. by rewrite length_fmap in Hlt. }
  exists (mutual_of table i j). split; [apply Hnew; [lia | done | done] |].
  intros Halpha Hempty. rewrite Hempty, alignment_score_empty in Hscore.
  rewrite Hscore in Habove. by apply Qlt_not_le in Habove.
Qed.

(** With a threshold of 1 or more no pair is aligned: [find_alignments]
    returns no edge, [assemble] returns the datasets as they are and
    [connect] returns every dataset as a panorama of its own. *)
Theorem no_alignment_above_one (datasets : list np.ndarray) (knn : nat)
    (sigma : R) (approx : bool) (alpha : Q) (expr_datasets : option (list np.ndarray))
    (batch_size : option nat) (realign : bool)
    (alignments : list (nat * nat)) (matches : match_table) :
  (1 <= alpha)%Q →
  find_alignments datasets knn approx alpha false = Some (alignments, matches) →
  alignments = []
  ∧ assemble datasets knn sigma approx alpha expr_datasets batch_size realign
    = Some (mk_assembly datasets expr_datasets [] ∅)
  ∧ connect datasets knn approx alpha
    = Some ((λ i, [i]) <$> seq 0 (length datasets)).
Proof.
  intros Halpha Hfind.
  assert (alignments = []) as ->.
  { unfold find_alignments in Hfind.
    destruct (find_alignments_table datasets knn approx false)
      as [[table1 matches']|] eqn:Hrun; [| done].
    simpl in Hfind. injection Hfind as <- <-.
    destruct (find_alignments_table_inv _ _ _ _ _ _ Hrun)
      as (table & _ & _ & Hall & _).
    destruct (alignments_of table1 alpha) as [|[i j] rest] eqn:Hal; [done |].
    exfalso.
    assert ((i, j) ∈ alignments_of table1 alpha) as Hin by (rewrite Hal; left).
    apply list_elem_of_fmap in Hin as ([[i' j'] v] & [= <- <-] & Hin).
    pose proof (alignments_scored_above _ _ _ Hin) as Habove. simpl in Habove.
    apply alignments_scored_subset in Hin.
    rewrite list.Forall_forall in Hall.
    destruct (Hall _ Hin) as (_ & _ & _ & ds_i & ds_j & _ & _ & _ & _ & _ & _ & Hle).
    apply (Qlt_not_le _ _ Habove). by eapply Qle_trans. }
  split; [done |]. split.
  - unfold assemble. rewrite Hfind. simpl.
    by destruct (decide (length datasets = 1)).
  - unfold connect. rewrite Hfind. simpl. unfold connect_alignments. simpl.
    rewrite add_singletons_spec. simpl. do 2 f_equal.
    induction (seq 0 (length datasets)) as [|x l IH]; [done |].
    rewrite filter_cons, decide_True by apply not_elem_of_empty.
    by rewrite IH.
Qed.

(** *** What a round of [assemble] keeps *)

Lemma same_shapes_refl (ds : list np.ndarray) : same_shapes ds ds.
Proof. unfold same_shapes. induction ds; constructor; auto. Qed.

Lemma same_shapes_trans (ds1 ds2 ds3 : list np.ndarray) :
  same_shapes ds1 ds2 → same_shapes ds2 ds3 → same_shapes ds1 ds3.
Proof.
  unfold same_shapes. intros H12. revert ds3.
  induction H12 as [|a b l k [Ha0 Ha1] _ IH]; intros ds3 H23;
    inversion H23 as [|b' c k' m [Hb0 Hb1] Hrest]; subst; constructor.
  - split; congruence.
  - by apply IH.
Qed.

Lemma same_shapes_length (ds ds' : list np.ndarray) :
  same_shapes ds ds' → length ds' = length ds.
Proof. intros H. symmetry. by eapply Forall2_length. Qed.

Lemma same_shapes_lookup (ds ds' : list np.ndarray) (p : nat) (b : np.ndarray) :
  same_shapes ds ds' → ds' !! p = Some b →
  ∃ a, ds !! p = Some a ∧ np.shape0 b = np.shape0 a ∧ np.shape1 b = np.shape1 a.
Proof.
  intros H Hp. destruct (Forall2_lookup_r _ _ _ _ _ H Hp) as (a & Ha & H0 & H1).
  by exists a.
Qed.

Lemma same_shapes_insert (ds : list np.ndarray) (p : nat) (a b : np.ndarray) :
  ds !! p = Some a → np.shape0 b = np.shape0 a → np.shape1 b = np.shape1 a →
  same_shapes ds (<[p := b]> ds).
Proof.
  intros Hp H0 H1. unfold same_shapes.
  rewrite <- (list_insert_id ds p a Hp) at 1.
  apply Forall2_insert; [apply same_shapes_refl | done].
Qed.

Lemma same_shapes_rows_at (ds ds' : list np.ndarray) (p : nat) :
  same_shapes ds ds' → rows_at ds' p = rows_at ds p.
Proof.
  intros H. unfold rows_at.
  destruct (ds' !! p) as [b|] eqn:Hb.
  - destruct (same_shapes_lookup _ _ _ _ H Hb) as (a & -> & H0 & _). done.
  - apply lookup_ge_None in Hb. rewrite (same_shapes_length _ _ H) in Hb.
    apply lookup_ge_None in Hb. by rewrite Hb.
Qed.

Lemma elementwise_shape (f : R → R → R) (a b c : np.ndarray) :
  np.elementwise f a b = Some c →
  np.shape0 c = np.shape0 a ∧ np.shape1 c = np.shape1 a.
Proof.
  unfold np.elementwise, np.same_shape.
  destruct (Nat.eqb (np.shape0 a) (np.shape0 b)) eqn:E0; [| done].
  destruct (Nat.eqb (np.shape1 a) (np.shape1 b)); [| done].
  simpl. intros [= <-]. apply Nat.eqb_eq in E0. unfold np.shape0 in *. simpl.
  rewrite length_zip_with. split; [lia | done].
Qed.

Lemma shape0_slice_rows (a : np.ndarray) (lo n : nat) :
  lo + n ≤ np.shape0 a → np.shape0 (np.slice_rows a lo (lo + n)) = n.
Proof.
  unfold np.slice_rows, np.shape0. simpl. intros Hle.
  rewrite length_take, length_drop. lia.
Qed.

Lemma concat_members_shape (datasets : list np.ndarray) (panorama : list nat)
    (cat : np.ndarray) :
  concat_members datasets panorama = Some cat →
  np.shape0 cat = sum_list_with (rows_at datasets) panorama
  ∧ ∀ p, p ∈ panorama →
      ∃ ds_p, datasets !! p = Some ds_p ∧ np.shape1 ds_p = np.shape1 cat.
Proof.
  unfold concat_members. intros Hcat.
  destruct (mapM _ panorama) as [members|] eqn:Hm; [| done]. simpl in Hcat.
  apply mapM_Some in Hm. split.
  - rewrite (concatenate_shape0 _ _ Hcat). unfold total_cells.
    clear Hcat. induction Hm as [|p m ps ms Hp _ IH]; [done |].
    rewrite fmap_cons. simpl. simpl in IH. rewrite IH.
    f_equal. unfold rows_at. cbv beta in Hp. by rewrite Hp.
  - intros p Hp. apply list_elem_of_lookup in Hp as [k Hk].
    destruct (Forall2_lookup_l _ _ _ _ _ Hm Hk) as (m & Hmk & Hdp).
    exists m. split; [done |].
    unfold np.concatenate in Hcat. destruct members as [|a rest]; [done |].
    destruct (forallb _ _) eqn:Hall; [| done]. injection Hcat as <-. simpl.
    rewrite forallb_forall in Hall. apply Nat.eqb_eq, Hall.
    apply list_elem_of_In. by eapply list_elem_of_lookup_2.
Qed.

Lemma write_back_loop_shapes (curr_ds : np.ndarray) (orig : list np.ndarray)
    (rest : list nat) (dcur : list np.ndarray) (base : nat)
    (res : list np.ndarray * nat) :
  foldlM (λ '(datasets, base) p,
            ds_p ← datasets !! p;
            let n_cells := np.shape0 ds_p in
            Some (<[p := np.slice_rows curr_ds base (base + n_cells)]> datasets,
                  base + n_cells))
         (dcur, base) rest = Some res →
  same_shapes orig dcur →
  base + sum_list_with (rows_at orig) rest ≤ np.shape0 curr_ds →
  (∀ p ds_p, p ∈ rest → orig !! p = Some ds_p → np.shape1 ds_p = np.shape1 curr_ds) →
  same_shapes orig res.1.
Proof.
  revert dcur base. induction rest as [|p rest IH]; intros dcur base Hfold Hsame Hsum H1.
  { simpl in Hfold. by injection Hfold as <-. }
  rewrite foldlM_cons in Hfold. simpl in Hfold.
  destruct (dcur !! p) as [ds_p|] eqn:Hp; [| done]. simpl in Hfold.
  destruct (same_shapes_lookup _ _ _ _ Hsame Hp) as (a & Ha & H0a & H1a).
  simpl in Hsum. unfold rows_at in Hsum at 1. rewrite Ha in Hsum. simpl in Hsum.
  apply IH in Hfold; [done | | |].
  - eapply same_shapes_trans; [exact Hsame |].
    apply (same_shapes_insert _ _ ds_p); [done | |].
    + apply shape0_slice_rows. lia.
    + simpl. rewrite H1a. symmetry. apply (H1 p a); [left | done].
  - lia.
  - intros q ds_q Hq. apply H1. by right.
Qed.

Lemma write_back_shapes (curr_ds : np.ndarray) (datasets datasets' : list np.ndarray)
    (panorama : list nat) :
  write_back curr_ds datasets panorama = Some datasets' →
  sum_list_with (rows_at datasets) panorama ≤ np.shape0 curr_ds →
  (∀ p ds_p, p ∈ panorama → datasets !! p = Some ds_p →
             np.shape1 ds_p = np.shape1 curr_ds) →
  same_shapes datasets datasets'.
Proof.
  unfold write_back. intros Hwb Hsum H1.
  destruct (foldlM _ (datasets, 0) panorama) as [res|] eqn:Hfold; [| done].
  simpl in Hwb. injection Hwb as <-.
  eapply write_back_loop_shapes; [exact Hfold | apply same_shapes_refl | done | done].
Qed.

(** A panorama is corrected as a whole: its members keep their shapes. *)
Lemma corrected_panorama_shapes (datasets datasets' : list np.ndarray)
    (panorama : list nat) (cat bias corrected : np.ndarray) :
  concat_members datasets panorama = Some cat →
  np.add cat bias = Some corrected →
  write_back corrected datasets panorama = Some datasets' →
  same_shapes datasets datasets'.
Proof.
  intros Hcat Hadd Hwb.
  destruct (concat_members_shape _ _ _ Hcat) as [H0 H1].
  destruct (elementwise_shape _ _ _ _ Hadd) as [Hc0 Hc1].
  apply (write_back_shapes corrected _ _ panorama Hwb).
  - rewrite Hc0, H0. done.
  - intros p ds_p Hp Hds. destruct (H1 p Hp) as (ds' & Hds' & Hs).
    rewrite Hds in Hds'. injection Hds' as <-. by rewrite Hc1.
Qed.

Lemma map_to_panorama_inv (matches : match_table) (sigma : R)
    (batch_size : option nat) (st st' : assembly) (i pj : nat) :
  map_to_panorama matches sigma batch_size st i pj = Some st' →
  ∃ panorama curr_ds corrected,
    st_panoramas st !! pj = Some panorama
    ∧ st_datasets st !! i = Some curr_ds
    ∧ np.shape0 corrected = np.shape0 curr_ds
    ∧ np.shape1 corrected = np.shape1 curr_ds
    ∧ st_datasets st' = <[i := corrected]> (st_datasets st)
    ∧ st_panoramas st' = alter (λ l, l ++ [i]) pj (st_panoramas st)
    ∧ option_Forall2 same_shapes (st_expr_datasets st) (st_expr_datasets st')
    ∧ ∀ d, d ≠ i →
        st_expr_datasets st' ≫= (λ es, es !! d) = st_expr_datasets st ≫= (λ es, es !! d).
Proof.
  unfold map_to_panorama. intros Hm.
  destruct (st_panoramas st !! pj) as [panorama|] eqn:Hp; [| done]. simpl in Hm.
  destruct (st_datasets st !! i) as [curr_ds|] eqn:Hi; [| done]. simpl in Hm.
  destruct (concat_members (st_datasets st) panorama) as [curr_ref|]; [| done].
  simpl in Hm.
  destruct (matches_to_panorama _ _ _ _) as [match_|]; [| done]. simpl in Hm.
  destruct (transform curr_ds curr_ref _ _ _ _ _) as [bias|]; [| done]. simpl in Hm.
  destruct (np.add curr_ds bias) as [corrected|] eqn:Hadd; [| done]. simpl in Hm.
  destruct (elementwise_shape _ _ _ _ Hadd) as [H0 H1].
  exists panorama, curr_ds, corrected.
  destruct (st_expr_datasets st) as [[|e es]|] eqn:Hexpr; simpl in Hm.
  - injection Hm as <-. simpl. split_and!; try done.
    constructor. apply same_shapes_refl.
  - destruct ((e :: es) !! i) as [curr_e|] eqn:Hei; [| done]. simpl in Hm.
    destruct (concat_members (e :: es) panorama) as [ref_e|]; [| done]. simpl in Hm.
    destruct (transform curr_e ref_e _ _ _ _ _) as [bias_e|]; [| done]. simpl in Hm.
    destruct (np.add curr_e bias_e) as [corrected_e|] eqn:Hadd_e; [| done].
    simpl in Hm. injection Hm as <-. simpl.
    destruct (elementwise_shape _ _ _ _ Hadd_e) as [He0 He1].
    split_and!; try done.
    + constructor. by apply (same_shapes_insert _ _ curr_e).
    + intros d Hd. by rewrite list_lookup_insert_ne.
  - injection Hm as <-. simpl. split_and!; try done. constructor.
Qed.

Lemma option_same_shapes_refl (e : option (list np.ndarray)) :
  option_Forall2 same_shapes e e.
Proof. destruct e; constructor. apply same_shapes_refl. Qed.

Lemma merge_panoramas_inv (matches : match_table) (sigma : R)
    (batch_size : option nat) (realign : bool) (st st' : assembly) (i j pi pj : nat) :
  merge_panoramas matches sigma batch_size realign st i j pi pj = Some st' →
  ∃ panorama_i panorama_j,
    st_panoramas st !! pi = Some panorama_i
    ∧ st_panoramas st !! pj = Some panorama_j
    ∧ same_shapes (st_datasets st) (st_datasets st')
    ∧ (∀ d, d ∉ panorama_i → st_datasets st' !! d = st_datasets st !! d)
    ∧ option_Forall2 same_shapes (st_expr_datasets st) (st_expr_datasets st')
    ∧ (∀ d, d ∉ panorama_i →
         st_expr_datasets st' ≫= (λ es, es !! d)
         = st_expr_datasets st ≫= (λ es, es !! d))
    ∧ (st_panoramas st' = st_panoramas st
       ∨ remove_first panorama_j (alter (λ l, l ++ panorama_j) pi (st_panoramas st))
         = Some (st_panoramas st')).
Proof.
  unfold merge_panoramas. intros Hm.
  destruct (st_panoramas st !! pi) as [panorama_i|] eqn:Hpi; [| done]. simpl in Hm.
  destruct (st_panoramas st !! pj) as [panorama_j|] eqn:Hpj; [| done]. simpl in Hm.
  destruct (concat_members (st_datasets st) panorama_i) as [curr_ds|] eqn:Hcat;
    [| done]. simpl in Hm.
  destruct (concat_members (st_datasets st) panorama_j) as [curr_ref|]; [| done].
  simpl in Hm.
  destruct (base_index _ i panorama_i 0) as [base_i|]; [| done]. simpl in Hm.
  destruct (base_index _ j panorama_j 0) as [base_j|]; [| done]. simpl in Hm.
  destruct (merge_matches_i _ _ _ _ _ _ _) as [match1|]; [| done]. simpl in Hm.
  destruct (merge_matches_j _ _ _ _ _ _ _) as [match_|]; [| done]. simpl in Hm.
  destruct (transform curr_ds curr_ref _ _ _ _ _) as [bias|]; [| done]. simpl in Hm.
  destruct (np.add curr_ds bias) as [corrected|] eqn:Hadd; [| done]. simpl in Hm.
  destruct (write_back corrected _ panorama_i) as [datasets'|] eqn:Hwb; [| done].
  simpl in Hm.
  destruct (match st_expr_datasets st with Some _ => _ | None => _ end)
    as [expr'|] eqn:Hexpr; [| done]. simpl in Hm.
  assert (option_Forall2 same_shapes (st_expr_datasets st) expr'
          ∧ ∀ d, d ∉ panorama_i →
              expr' ≫= (λ es, es !! d) = st_expr_datasets st ≫= (λ es, es !! d))
    as [Hes Hef].
  { destruct (st_expr_datasets st) as [es|]; [| injection Hexpr as <-; by split; [constructor |]].
    destruct realign; [| injection Hexpr as <-; split; [apply option_same_shapes_refl | done]].
    destruct (concat_members es panorama_i) as [cat_e|] eqn:Hcat_e; [| done].
    simpl in Hexpr.
    destruct (concat_members es panorama_j) as [ref_e|]; [| done]. simpl in Hexpr.
    destruct (transform cat_e ref_e _ _ _ _ _) as [bias_e|]; [| done]. simpl in Hexpr.
    destruct (np.add cat_e bias_e) as [corrected_e|] eqn:Hadd_e; [| done].
    simpl in Hexpr.
    destruct (write_back corrected_e es panorama_i) as [es'|] eqn:Hwb_e; [| done].
    simpl in Hexpr. injection Hexpr as <-. split.
    - constructor. by eapply corrected_panorama_shapes.
    - intros d Hd. simpl. by apply (write_back_frame corrected_e panorama_i). }
  exists panorama_i, panorama_j.
  assert (same_shapes (st_datasets st) datasets') as Hshape
    by (by eapply corrected_panorama_shapes).
  pose proof (proj2 (write_back_frame _ _ _ _ Hwb)) as Hframe.
  destruct (decide (panorama_i ≠ panorama_j)) as [Hne|Heq]; simpl in Hm.
  - destruct (remove_first panorama_j _) as [panoramas'|] eqn:Hrm; [| done].
    simpl in Hm. injection Hm as <-. simpl. split_and!; try done. by right.
  - injection Hm as <-. simpl. split_and!; try done. by left.
Qed.

Lemma NoDup_concat_snoc (panoramas : list (list nat)) (i : nat) :
  NoDup (concat panoramas) → i ∉ concat panoramas →
  NoDup (concat (panoramas ++ [[i]])).
Proof.
  intros Hnd Hi. rewrite concat_app. simpl.
  apply list.NoDup_app. split_and!; [done | | apply NoDup_singleton].
  intros x Hx ->%list_elem_of_singleton. done.
Qed.

Lemma NoDup_concat_alter (panoramas : list (list nat)) (p i : nat) (l : list nat) :
  panoramas !! p = Some l →
  NoDup (concat panoramas) → i ∉ concat panoramas →
  NoDup (concat (alter (λ l, l ++ [i]) p panoramas)).
Proof.
  intros Hp Hnd Hi. rewrite (concat_alter_app _ _ _ _ Hp). simpl.
  by apply list.NoDup_cons.
Qed.

Lemma elem_of_concat_alter (panoramas : list (list nat)) (p i d : nat) (l : list nat) :
  panoramas !! p = Some l →
  d ∈ concat (alter (λ l, l ++ [i]) p panoramas) ↔ d = i ∨ d ∈ concat panoramas.
Proof.
  intros Hp. rewrite (concat_alter_app _ _ _ _ Hp). simpl. apply elem_of_cons.
Qed.

Lemma merged_concat (panoramas panoramas' : list (list nat)) (pi : nat)
    (panorama_i panorama_j : list nat) :
  panoramas !! pi = Some panorama_i →
  remove_first panorama_j (alter (λ l, l ++ panorama_j) pi panoramas) = Some panoramas' →
  concat panoramas' ≡ₚ concat panoramas.
Proof.
  intros Hpi Hrm. apply remove_first_Permutation, concat_Permutation in Hrm.
  rewrite (concat_alter_app _ _ _ _ Hpi) in Hrm. simpl in Hrm.
  symmetry. by eapply Permutation_app_inv_l.
Qed.

Lemma map_to_panorama_keeps (matches : match_table) (sigma : R)
    (batch_size : option nat) (st st' : assembly) (i pj : nat) :
  map_to_panorama matches sigma batch_size st i pj = Some st' →
  NoDup (concat (st_panoramas st)) →
  i ∉ concat (st_panoramas st) →
  NoDup (concat (st_panoramas st'))
  ∧ (∀ d, d ∈ concat (st_panoramas st') → d = i ∨ d ∈ concat (st_panoramas st))
  ∧ i < length (st_datasets st)
  ∧ same_shapes (st_datasets st) (st_datasets st')
  ∧ option_Forall2 same_shapes (st_expr_datasets st) (st_expr_datasets st')
  ∧ (∀ d, d ≠ i →
       st_datasets st' !! d = st_datasets st !! d
       ∧ st_expr_datasets st' ≫= (λ es, es !! d)
         = st_expr_datasets st ≫= (λ es, es !! d)).
Proof.
  intros Hm Hnd Hi.
  destruct (map_to_panorama_inv _ _ _ _ _ _ _ Hm)
    as (panorama & curr_ds & corrected & Hp & Hds & H0 & H1 & -> & -> & Hes & Hef).
  split_and!.
  - by eapply NoDup_concat_alter.
  - intros d Hd. by apply (elem_of_concat_alter _ _ _ _ _ Hp) in Hd.
  - by eapply lookup_lt_Some.
  - by apply (same_shapes_insert _ _ curr_ds).
  - done.
  - intros d Hd. split; [| by apply Hef]. by rewrite list_lookup_insert_ne.
Qed.

Lemma merge_panoramas_keeps (matches : match_table) (sigma : R)
    (batch_size : option nat) (realign : bool) (st st' : assembly) (i j pi pj : nat) :
  merge_panoramas matches sigma batch_size realign st i j pi pj = Some st' →
  NoDup (concat (st_panoramas st)) →
  NoDup (concat (st_panoramas st'))
  ∧ (∀ d, d ∈ concat (st_panoramas st') → d ∈ concat (st_panoramas st))
  ∧ same_shapes (st_datasets st) (st_datasets st')
  ∧ option_Forall2 same_shapes (st_expr_datasets st) (st_expr_datasets st')
  ∧ (∀ d, d ∉ concat (st_panoramas st) →
       st_datasets st' !! d = st_datasets st !! d
       ∧ st_expr_datasets st' ≫= (λ es, es !! d)
         = st_expr_datasets st ≫= (λ es, es !! d)).
Proof.
  intros Hm Hnd.
  destruct (merge_panoramas_inv _ _ _ _ _ _ _ _ _ _ Hm)
    as (panorama_i & panorama_j & Hpi & Hpj & Hshape & Hframe & Hes & Hef & Hpan).
  assert (concat (st_panoramas st') ≡ₚ concat (st_panoramas st)) as Hperm.
  { destruct Hpan as [Heq | Hrm]; [by rewrite Heq |]. exact (merged_concat _ _ _ _ _ Hpi Hrm). }
  split_and!; try done.
  - by rewrite Hperm.
  - intros d Hd. by rewrite <- Hperm.
  - intros d Hd.
    assert (d ∉ panorama_i) as Hout.
    { intros Hin. apply Hd. exact (elem_of_concat_lookup _ _ _ _ Hpi Hin). }
    split; [by apply Hframe | by apply Hef].
Qed.

Lemma assemble_step_keeps (matches : match_table) (sigma : R)
    (batch_size : option nat) (realign : bool) (st st' : assembly) (i j : nat) :
  assemble_step matches sigma batch_size realign st (i, j) = Some st' →
  i ≠ j →
  NoDup (concat (st_panoramas st)) →
  NoDup (concat (st_panoramas st'))
  ∧ (∀ d, d ∈ concat (st_panoramas st') →
       d ∈ concat (st_panoramas st)
       ∨ ((d = i ∨ d = j) ∧ d < length (st_datasets st)))
  ∧ same_shapes (st_datasets st) (st_datasets st')
  ∧ option_Forall2 same_shapes (st_expr_datasets st) (st_expr_datasets st')
  ∧ (∀ d, d ≠ i → d ≠ j → d ∉ concat (st_panoramas st) →
       st_datasets st' !! d = st_datasets st !! d
       ∧ st_expr_datasets st' ≫= (λ es, es !! d)
         = st_expr_datasets st ≫= (λ es, es !! d)).
Proof.
  unfold assemble_step. intros Hstep Hij Hnd.
  destruct (decide (VISIT_CAP < _ ∧ _)) as [Hcap|Hcap].
  { injection Hstep as <-. simpl. split_and!; try done.
    - auto.
    - apply same_shapes_refl.
    - apply option_same_shapes_refl. }
  cbv zeta in Hstep.
  cbn [st_panoramas st_datasets st_expr_datasets st_ds_assembled] in Hstep.
  destruct (containing (st_panoramas st) i) as [|pi [|pi' rest_i]] eqn:Hci;
    destruct (containing (st_panoramas st) j) as [|pj [|pj' rest_j]] eqn:Hcj;
    simpl in Hstep; try done.
  - (* neither has a panorama *)
    apply containing_nil in Hci, Hcj.
    destruct (st_datasets st !! i) as [ds_i|] eqn:Hi; [| done]. simpl in Hstep.
    destruct (st_datasets st !! j) as [ds_j|] eqn:Hj; [| done]. simpl in Hstep.
    apply lookup_lt_Some in Hi, Hj.
    destruct (decide (np.shape0 ds_i < np.shape0 ds_j)) as [Hlt|Hge].
    + apply map_to_panorama_keeps in Hstep as (Hnd' & Hmem & _ & Hs & Hes & Hf);
        simpl in *.
      * split_and!; try done.
        -- intros d [-> | Hd]%Hmem; [right; auto |].
           rewrite concat_app in Hd. apply elem_of_app in Hd as [Hd | Hd]; [by left |].
           simpl in Hd. apply list_elem_of_singleton in Hd as ->. right; auto.
        -- intros d Hdi _ _. by apply Hf.
      * by apply NoDup_concat_snoc.
      * rewrite concat_app, elem_of_app. simpl. intros [Hin | Hin]; [done |].
        apply list_elem_of_singleton in Hin. done.
    + apply map_to_panorama_keeps in Hstep as (Hnd' & Hmem & _ & Hs & Hes & Hf);
        simpl in *.
      * split_and!; try done.
        -- intros d [-> | Hd]%Hmem; [right; auto |].
           rewrite concat_app in Hd. apply elem_of_app in Hd as [Hd | Hd]; [by left |].
           simpl in Hd. apply list_elem_of_singleton in Hd as ->. right; auto.
        -- intros d _ Hdj _. by apply Hf.
      * by apply NoDup_concat_snoc.
      * rewrite concat_app, elem_of_app. simpl. intros [Hin | Hin]; [done |].
        apply list_elem_of_singleton in Hin. congruence.
  - (* only [j] has a panorama *)
    apply containing_nil in Hci.
    apply map_to_panorama_keeps in Hstep as (Hnd' & Hmem & Hlen & Hs & Hes & Hf);
      simpl in *; try done.
    split_and!; try done.
    + intros d [-> | Hd]%Hmem; [right; auto | by left].
    + intros d Hdi _ _. by apply Hf.
  - (* only [i] has a panorama *)
    apply containing_nil in Hcj.
    apply map_to_panorama_keeps in Hstep as (Hnd' & Hmem & Hlen & Hs & Hes & Hf);
      simpl in *; try done.
    split_and!; try done.
    + intros d [-> | Hd]%Hmem; [right; auto | by left].
    + intros d _ Hdj _. by apply Hf.
  - (* both have one *)
    apply merge_panoramas_keeps in Hstep as (Hnd' & Hmem & Hs & Hes & Hf);
      simpl in *; try done.
    split_and!; try done.
    + intros d Hd. left. by apply Hmem.
    + intros d _ _ Hd. by apply Hf.
Qed.

Lemma option_same_shapes_trans (e1 e2 e3 : option (list np.ndarray)) :
  option_Forall2 same_shapes e1 e2 → option_Forall2 same_shapes e2 e3 →
  option_Forall2 same_shapes e1 e3.
Proof.
  intros H12 H23. destruct H12 as [a b Hab|]; inversion H23 as [b' c Hbc|]; subst;
    constructor. by eapply same_shapes_trans.
Qed.

Lemma assemble_loop_keeps (P : nat → Prop) (matches : match_table) (sigma : R)
    (batch_size : option nat) (realign : bool) (alignments : list (nat * nat))
    (st st' : assembly) :
  assemble_loop matches sigma batch_size realign st alignments = Some st' →
  (∀ i j, (i, j) ∈ alignments → i ≠ j ∧ P i ∧ P j) →
  NoDup (concat (st_panoramas st)) →
  (∀ d, d ∈ concat (st_panoramas st) → P d ∧ d < length (st_datasets st)) →
  NoDup (concat (st_panoramas st'))
  ∧ (∀ d, d ∈ concat (st_panoramas st') → P d ∧ d < length (st_datasets st))
  ∧ same_shapes (st_datasets st) (st_datasets st')
  ∧ option_Forall2 same_shapes (st_expr_datasets st) (st_expr_datasets st')
  ∧ (∀ d, ¬ P d →
       st_datasets st' !! d = st_datasets st !! d
       ∧ st_expr_datasets st' ≫= (λ es, es !! d)
         = st_expr_datasets st ≫= (λ es, es !! d)).
Proof.
  unfold assemble_loop. revert st.
  induction alignments as [|[i j] alignments IH]; intros st Hloop Hedges Hnd Hmem.
  { simpl in Hloop. injection Hloop as <-. split_and!; try done.
    - apply same_shapes_refl.
    - apply option_same_shapes_refl. }
  rewrite foldlM_cons in Hloop.
  destruct (assemble_step matches sigma batch_size realign st (i, j))
    as [st1|] eqn:Hstep; [| done].
  simpl in Hloop.
  destruct (Hedges i j) as (Hij & HPi & HPj); [left |].
  destruct (assemble_step_keeps _ _ _ _ _ _ _ _ Hstep Hij Hnd)
    as (Hnd1 & Hmem1 & Hs1 & Hes1 & Hf1).
  pose proof (same_shapes_length _ _ Hs1) as Hlen.
  assert (∀ d, d ∈ concat (st_panoramas st1) → P d ∧ d < length (st_datasets st1))
    as Hmem1'.
  { intros d [Hd | [[-> | ->] Hlt]]%Hmem1.
    - rewrite Hlen. by apply Hmem.
    - rewrite Hlen. done.
    - rewrite Hlen. done. }
  destruct (IH st1 Hloop) as (Hnd' & Hmem' & Hs' & Hes' & Hf'); try done.
  { intros i' j' Hin. apply Hedges. by right. }
  split_and!.
  - done.
  - intros d Hd. rewrite <- Hlen. by apply Hmem'.
  - by eapply same_shapes_trans.
  - by eapply option_same_shapes_trans.
  - intros d Hd. destruct (Hf' d Hd) as [-> ->]. apply Hf1.
    + intros ->. done.
    + intros ->. done.
    + intros Hin. by destruct (Hmem d Hin).
Qed.

Lemma find_alignments_ordered (datasets : list np.ndarray) (knn : nat)
    (approx prenormalized : bool) (alpha : Q) (alignments : list (nat * nat))
    (matches : match_table) (i j : nat) :
  find_alignments datasets knn approx alpha prenormalized = Some (alignments, matches) →
  (i, j) ∈ alignments → i < j.
Proof.
  unfold find_alignments. intros Hfind Hin.
  destruct (find_alignments_table datasets knn approx prenormalized)
    as [[table1 matches']|] eqn:Hrun; [| done].
  simpl in Hfind. injection Hfind as <- <-.
  destruct (find_alignments_table_inv _ _ _ _ _ _ Hrun)
    as (table & _ & _ & Hall & _).
  apply list_elem_of_fmap in Hin as ([[i' j'] v] & [= <- <-] & Hin).
  apply alignments_scored_subset in Hin.
  rewrite list.Forall_forall in Hall.
  destruct (Hall _ Hin) as ([Hlt _] & _). exact Hlt.
Qed.

Lemma assemble_keeps (P : nat → Prop) (datasets : list np.ndarray) (knn : nat)
    (sigma : R) (approx : bool) (alpha : Q) (expr_datasets : option (list np.ndarray))
    (batch_size : option nat) (realign : bool) (st : assembly) :
  assemble datasets knn sigma approx alpha expr_datasets batch_size realign = Some st →
  (∀ alignments matches i j,
     find_alignments datasets knn approx alpha false = Some (alignments, matches) →
     (i, j) ∈ alignments → P i ∧ P j) →
  NoDup (concat (st_panoramas st))
  ∧ (∀ d, d ∈ concat (st_panoramas st) → P d ∧ d < length datasets)
  ∧ same_shapes datasets (st_datasets st)
  ∧ option_Forall2 same_shapes expr_datasets (st_expr_datasets st)
  ∧ (∀ d, ¬ P d →
       st_datasets st !! d = datasets !! d
       ∧ st_expr_datasets st ≫= (λ es, es !! d) = expr_datasets ≫= (λ es, es !! d)).
Proof.
  unfold assemble. intros Hrun HP.
  destruct (decide (length datasets = 1)) as [Hone|Hmore].
  { injection Hrun as <-. simpl. split_and!; try done.
    - apply NoDup_nil_2.
    - intros d Hd. by apply elem_of_nil in Hd.
    - apply same_shapes_refl.
    - apply option_same_shapes_refl. }
  destruct (find_alignments datasets knn approx alpha false)
    as [[alignments matches]|] eqn:Hfind; [| done].
  simpl in Hrun.
  apply (assemble_loop_keeps P) in Hrun; simpl in *.
  - done.
  - intros i j Hin. split; [| by eapply HP].
    apply (find_alignments_ordered _ _ _ _ _ _ _ _ _ Hfind) in Hin. lia.
  - apply NoDup_nil_2.
  - intros d Hd. by apply elem_of_nil in Hd.
Qed.

(** At the end of [assemble] no dataset is a member of two panoramas, nor
    twice a member of one, and every member of a panorama is the index of a
    dataset; under this invariant the assertions [len(panoramas_i) <= 1] and
    [len(panoramas_j) <= 1] of the loop hold. *)
Theorem assemble_panoramas_disjoint (datasets : list np.ndarray) (knn : nat)
    (sigma : R) (approx : bool) (alpha : Q) (expr_datasets : option (list np.ndarray))
    (batch_size : option nat) (realign : bool) (st : assembly) :
  assemble datasets knn sigma approx alpha expr_datasets batch_size realign = Some st →
  NoDup (concat (st_panoramas st))
  ∧ (∀ d, d ∈ concat (st_panoramas st) → d < length datasets)
  ∧ ∀ d, length (containing (st_panoramas st) d) ≤ 1.
Proof.
  intros Hrun.
  destruct (assemble_keeps (λ _, True) _ _ _ _ _ _ _ _ _ Hrun)
    as (Hnd & Hmem & _); [done |].
  split_and!; [done | |].
  - intros d Hd. by destruct (Hmem d Hd).
  - intros d. by apply containing_length.
Qed.

(** [assemble] changes the entries of the datasets, never their shapes: the
    list it returns has the length of the list it was given, and every
    dataset has the number of rows and of columns it had before.  The same
    holds for the expression matrices. *)
Theorem assemble_keeps_shapes (datasets : list np.ndarray) (knn : nat)
    (sigma : R) (approx : bool) (alpha : Q) (expr_datasets : option (list np.ndarray))
    (batch_size : option nat) (realign : bool) (st : assembly) :
  assemble datasets knn sigma approx alpha expr_datasets batch_size realign = Some st →
  length (st_datasets st) = length datasets
  ∧ same_shapes datasets (st_datasets st)
  ∧ option_Forall2 same_shapes expr_datasets (st_expr_datasets st).
Proof.
  intros Hrun.
  destruct (assemble_keeps (λ _, True) _ _ _ _ _ _ _ _ _ Hrun)
    as (_ & _ & Hs & Hes & _); [done |].
  split_and!; [| done | done]. by apply same_shapes_length.
Qed.

(** A dataset that is an endpoint of no alignment edge is returned by
    [assemble] as it was given, in the coordinates and in the expression
    matrices, and it is a member of no panorama. *)
Theorem assemble_unaligned_unchanged (datasets : list np.ndarray) (knn : nat)
    (sigma : R) (approx : bool) (alpha : Q) (expr_datasets : option (list np.ndarray))
    (batch_size : option nat) (realign : bool) (st : assembly)
    (alignments : list (nat * nat)) (matches : match_table) (d : nat) :
  assemble datasets knn sigma approx alpha expr_datasets batch_size realign = Some st →
  find_alignments datasets knn approx alpha false = Some (alignments, matches) →
  (∀ i j, (i, j) ∈ alignments → d ≠ i ∧ d ≠ j) →
  st_datasets st !! d = datasets !! d
  ∧ st_expr_datasets st ≫= (λ es, es !! d) = expr_datasets ≫= (λ es, es !! d)
  ∧ d ∉ concat (st_panoramas st).
Proof.
  intros Hrun Hfind Hout.
  destruct (assemble_keeps (λ x, x ≠ d) _ _ _ _ _ _ _ _ _ Hrun)
    as (_ & Hmem & _ & _ & Hf).
  { intros alignments' matches' i j Hfind' Hin. rewrite Hfind in Hfind'.
    injection Hfind' as <- <-. destruct (Hout i j Hin) as [Hi Hj].
    split; congruence. }
  destruct (Hf d) as [Hds Hes]; [intros Hn; by apply Hn |].
  split_and!; [done | done |].
  intros Hin. by destruct (Hmem d Hin) as [Hne _].
Qed.

(** *** The neighbour searches *)

Lemma match_row_spec (x : Z) (row : list Z) (acc : gset (Z * Z)) (a b : Z) :
  (a, b) ∈ foldl (λ acc b_i, {[ (x, b_i) ]} ∪ acc) acc row
  ↔ (a, b) ∈ acc ∨ (a = x ∧ b ∈ row).
Proof.
  revert acc. induction row as [|b_i row IH]; intros acc; simpl.
  { split; [auto |]. intros [H | [_ H]]; [done | by apply elem_of_nil in H]. }
  rewrite IH, elem_of_union, elem_of_singleton, elem_of_cons. split.
  - intros [[[= -> ->] | H] | [-> H]]; auto.
  - intros [H | [-> [-> | H]]]; auto.
Qed.

Lemma match_rows_spec (l : list (Z * list Z)) (acc : gset (Z * Z)) (a b : Z) :
  (a, b) ∈ foldl (λ acc ab, foldl (λ acc b_i, {[ (ab.1, b_i) ]} ∪ acc) acc ab.2) acc l
  ↔ (a, b) ∈ acc ∨ ∃ row, (a, row) ∈ l ∧ b ∈ row.
Proof.
  revert acc. induction l as [|[x row] l IH]; intros acc; simpl.
  { split; [auto |]. intros [H | (row & H & _)]; [done | by apply elem_of_nil in H]. }
  rewrite IH, match_row_spec. split.
  - intros [[H | [-> H]] | (row' & Hin & H)]; [by left | |].
    + right. exists row. split; [left | done].
    + right. exists row'. split; [by right | done].
  - intros [H | (row' & Hin & H)]; [by left; left |].
    apply elem_of_cons in Hin as [[= -> ->] | Hin].
    + left. right. done.
    + right. by exists row'.
Qed.

Lemma match_of_ind_spec (n : nat) (ind : list (list Z)) (a b : Z) :
  (a, b) ∈ match_of_ind n ind
  ↔ ∃ k row, k < n ∧ ind !! k = Some row ∧ a = Z.of_nat k ∧ b ∈ row.
Proof.
  unfold match_of_ind. rewrite match_rows_spec. split.
  - intros [H | (row & Hin & Hb)]; [by apply not_elem_of_empty in H |].
    apply list_elem_of_lookup in Hin as [k Hk].
    apply lookup_zip_with_Some in Hk as (a' & row' & [= <- <-] & Ha & Hrow).
    unfold py_range in Ha. rewrite list_lookup_fmap in Ha.
    destruct (seq 0 (n - 0) !! k) as [k'|] eqn:Hseq; [| done].
    apply lookup_seq in Hseq as [-> Hlt]. injection Ha as <-.
    exists k, row. split_and!; [lia | done | done | done].
  - intros (k & row & Hlt & Hrow & -> & Hb). right. exists row. split; [| done].
    apply list_elem_of_lookup. exists k. apply lookup_zip_with_Some.
    exists (Z.of_nat k), row. split_and!; [done | | done].
    unfold py_range. rewrite list_lookup_fmap, lookup_seq_lt by lia. done.
Qed.

(** [nn] matches row [a] of [ds1] with exactly the indices that the exact
    search, fitted on [ds2], reports for the [a]-th query row; rows are
    numbered from 0 and no row index reaches [ds1.shape[0]]. *)
Theorem nn_matches (ds1 ds2 : np.ndarray) (knn metric_p : nat) (m : gset (Z * Z)) :
  nn ds1 ds2 knn metric_p = Some m →
  ∃ ind,
    kneighbors knn metric_p ds2 ds1 = Some ind
    ∧ ∀ a b, (a, b) ∈ m
        ↔ ∃ k row, k < np.shape0 ds1 ∧ ind !! k = Some row
                   ∧ a = Z.of_nat k ∧ b ∈ row.
Proof.
  unfold nn. intros Hnn.
  destruct (kneighbors knn metric_p ds2 ds1) as [ind|]; [| done].
  simpl in Hnn. injection Hnn as <-. exists ind. split; [done |].
  intros a b. apply match_of_ind_spec.
Qed.

(** [nn_approx] matches row [a] of [ds1] with exactly the indices that the
    approximate index, built over the rows of [ds2], returns for the vector
    [ds1[a, :]]. *)
Theorem nn_approx_matches (ds1 ds2 : np.ndarray) (knn : nat) (metric : annoy_metric)
    (n_trees : nat) (m : gset (Z * Z)) :
  nn_approx ds1 ds2 knn metric n_trees = Some m →
  ∀ a b, (a, b) ∈ m
    ↔ ∃ k v row, np.data ds1 !! k = Some v
                 ∧ annoy_nns metric n_trees ds2 v knn = Some row
                 ∧ a = Z.of_nat k ∧ b ∈ row.
Proof.
  unfold nn_approx. intros Hnn.
  destruct (mapM _ (np.data ds1)) as [ind|] eqn:Hind; [| done].
  simpl in Hnn. injection Hnn as <-. apply mapM_Some in Hind.
  intros a b. rewrite match_of_ind_spec. split.
  - intros (k & row & Hlt & Hrow & -> & Hb).
    destruct (Forall2_lookup_r _ _ _ _ _ Hind Hrow) as (v & Hv & Hsearch).
    by exists k, v, row.
  - intros (k & v & row & Hv & Hsearch & -> & Hb).
    destruct (Forall2_lookup_l _ _ _ _ _ Hind Hv) as (row' & Hrow & Hsearch').
    rewrite Hsearch in Hsearch'. injection Hsearch' as <-.
    exists k, row. split_and!; try done.
    unfold np.shape0. by eapply lookup_lt_Some.
Qed.

(** Mutual nearest neighbours are symmetric: exchanging the two datasets
    exchanges the two components of every pair, and nothing else. *)
Theorem mnn_symmetric (ds1 ds2 : np.ndarray) (knn : nat) (approx : bool)
    (mutual : gset (Z * Z)) :
  mnn ds1 ds2 knn approx = Some mutual →
  mnn ds2 ds1 knn approx = Some (swap_pairs mutual).
Proof.
  unfold mnn. intros Hmnn.
  destruct (directional ds1 ds2 knn approx) as [match1|]; [| done].
  destruct (directional ds2 ds1 knn approx) as [match2|]; [| done].
  simpl in *. injection Hmnn as <-. f_equal.
  apply set_eq. intros [a b].
  rewrite elem_of_swap_pairs, !elem_of_intersection, !elem_of_swap_pairs.
  split; intros [H1 H2]; by split.
Qed.

(** *** [assemble_accum] *)

Lemma accum_step_inv (knn : nat) (sigma : R) (approx : bool)
    (batch_size : option nat) (datasets cur cur' : list np.ndarray) (i : nat) :
  accum_step knn sigma approx batch_size cur i = Some cur' →
  length cur = length datasets →
  (∀ j, i < j → cur !! j = datasets !! j) →
  (∀ j ds1, 1 ≤ j ≤ i → datasets !! j = Some ds1 →
            accumulated knn sigma approx batch_size cur j ds1) →
  length cur' = length datasets
  ∧ cur' !! 0 = cur !! 0
  ∧ same_shapes cur cur'
  ∧ (∀ j, i + 1 < j → cur' !! j = datasets !! j)
  ∧ (∀ j ds1, 1 ≤ j ≤ i + 1 → datasets !! j = Some ds1 →
              accumulated knn sigma approx batch_size cur' j ds1).
Proof.
  unfold accum_step. intros Hstep Hlen Hlater Hdone.
  destruct (cur !! (i + 1)) as [ds1|] eqn:Hds1; [| done]. simpl in Hstep.
  destruct (np.concatenate (take (i + 1) cur)) as [ds2|] eqn:Hds2; [| done].
  simpl in Hstep.
  destruct (mnn ds1 ds2 knn approx) as [match_|] eqn:Hmnn; [| done]. simpl in Hstep.
  destruct (transform ds1 ds2 _ _ sigma false batch_size) as [bias|] eqn:Htr; [| done].
  simpl in Hstep.
  destruct (np.add ds1 bias) as [corrected|] eqn:Hadd; [| done]. simpl in Hstep.
  injection Hstep as <-.
  destruct (elementwise_shape _ _ _ _ Hadd) as [H0 H1].
  split_and!.
  - by rewrite length_insert.
  - apply list_lookup_insert_ne. lia.
  - by apply (same_shapes_insert _ _ ds1).
  - intros j Hj. rewrite list_lookup_insert_ne by lia. apply Hlater. lia.
  - intros j ds Hj Hds. destruct (decide (j = i + 1)) as [-> | Hne].
    + rewrite <- Hlater, Hds1 in Hds by lia. injection Hds as <-.
      exists ds2, match_, bias, corrected. split_and!; try done.
      * by rewrite take_insert_ge by lia.
      * apply list_lookup_insert_eq. by eapply lookup_lt_Some.
    + destruct (Hdone j ds) as (ds2' & match' & bias' & corrected' & Hc & Hm & Ht & Ha & Hr);
        [lia | done |].
      exists ds2', match', bias', corrected'. split_and!; try done.
      * by rewrite take_insert_ge by lia.
      * by rewrite list_lookup_insert_ne by lia.
Qed.

Lemma accum_loop_inv (knn : nat) (sigma : R) (approx : bool)
    (batch_size : option nat) (datasets : list np.ndarray) (n : nat) :
  ∀ (i : nat) (cur result : list np.ndarray),
    foldlM (accum_step knn sigma approx batch_size) cur (seq i n) = Some result →
    length cur = length datasets →
    (∀ j, i < j → cur !! j = datasets !! j) →
    (∀ j ds1, 1 ≤ j ≤ i → datasets !! j = Some ds1 →
              accumulated knn sigma approx batch_size cur j ds1) →
    length result = length datasets
    ∧ result !! 0 = cur !! 0
    ∧ same_shapes cur result
    ∧ (∀ j ds1, 1 ≤ j ≤ i + n → datasets !! j = Some ds1 →
                accumulated knn sigma approx batch_size result j ds1).
Proof.
  induction n as [|n IH]; intros i cur result Hloop Hlen Hlater Hdone.
  { simpl in Hloop. injection Hloop as <-. split_and!; try done.
    - apply same_shapes_refl.
    - intros j ds1 Hj. apply Hdone. lia. }
  simpl in Hloop.
  destruct (accum_step knn sigma approx batch_size cur i) as [cur'|] eqn:Hstep;
    [| done].
  simpl in Hloop.
  destruct (accum_step_inv _ _ _ _ datasets _ _ _ Hstep Hlen Hlater Hdone)
    as (Hlen' & H0 & Hs & Hlater' & Hdone').
  destruct (IH (S i) cur' result Hloop Hlen') as (Hlen'' & H0' & Hs' & Hdone'').
  { intros j Hj. apply Hlater'. lia. }
  { intros j ds1 Hj. apply Hdone'. lia. }
  split_and!.
  - done.
  - by rewrite H0'.
  - by eapply same_shapes_trans.
  - intros j ds1 Hj. apply Hdone''. lia.
Qed.

(** [assemble_accum] never changes the first dataset, and it keeps the
    number of datasets and the shape of every dataset. *)
Theorem assemble_accum_keeps_reference (datasets : list np.ndarray) (knn : nat)
    (sigma : R) (approx : bool) (batch_size : option nat)
    (result : list np.ndarray) :
  assemble_accum datasets knn sigma approx batch_size = Some result →
  length result = length datasets
  ∧ result !! 0 = datasets !! 0
  ∧ same_shapes datasets result.
Proof.
  unfold assemble_accum. intros Hrun.
  destruct (decide (length datasets = 1)) as [Hone | Hmore].
  { injection Hrun as <-. split_and!; try done. apply same_shapes_refl. }
  destruct (accum_loop_inv _ _ _ _ datasets _ _ _ _ Hrun)
    as (Hlen & H0 & Hs & _); try done.
  intros j ds1 Hj. lia.
Qed.

(** [assemble_accum] works from left to right: in its result every dataset
    [j >= 1] is the dataset it was given at [j], corrected once, against the
    concatenation of the datasets before it as they are in the result (that
    is, after their own correction), along the mutual nearest neighbours of
    the two. *)
Theorem assemble_accum_sequential (datasets : list np.ndarray) (knn : nat)
    (sigma : R) (approx : bool) (batch_size : option nat)
    (result : list np.ndarray) (j : nat) (ds1 : np.ndarray) :
  assemble_accum datasets knn sigma approx batch_size = Some result →
  1 ≤ j →
  datasets !! j = Some ds1 →
  accumulated knn sigma approx batch_size result j ds1.
Proof.
  unfold assemble_accum. intros Hrun Hj Hds1.
  pose proof (lookup_lt_Some _ _ _ Hds1) as Hlt.
  destruct (decide (length datasets = 1)) as [Hone | Hmore]; [lia |].
  destruct (accum_loop_inv _ _ _ _ datasets _ _ _ _ Hrun)
    as (_ & _ & _ & Hdone); try done.
  { intros j' ds' Hj'. lia. }
  apply Hdone; [lia | done].
Qed.

(** *** Edges join panoramas *)

Lemma map_to_panorama_counts (matches : match_table) (sigma : R)
    (batch_size : option nat) (st st' : assembly) (i pj : nat) :
  map_to_panorama matches sigma batch_size st i pj = Some st' →
  st_ds_assembled st' = st_ds_assembled st.
Proof.
  unfold map_to_panorama. intros Hm.
  destruct (st_panoramas st !! pj) as [panorama|]; [| done]. simpl in Hm.
  destruct (st_datasets st !! i) as [curr_ds|]; [| done]. simpl in Hm.
  destruct (concat_members (st_datasets st) panorama) as [curr_ref|]; [| done].
  simpl in Hm.
  destruct (matches_to_panorama _ _ _ _) as [match_|]; [| done]. simpl in Hm.
  destruct (transform curr_ds curr_ref _ _ _ _ _) as [bias|]; [| done]. simpl in Hm.
  destruct (np.add curr_ds bias) as [corrected|]; [| done]. simpl in Hm.
  destruct (match st_expr_datasets st with Some (_ :: _) => _ | _ => _ end)
    as [expr'|]; [| done].
  simpl in Hm. by injection Hm as <-.
Qed.

Lemma merge_panoramas_merged (matches : match_table) (sigma : R)
    (batch_size : option nat) (realign : bool) (st st' : assembly) (i j pi pj : nat) :
  merge_panoramas matches sigma batch_size realign st i j pi pj = Some st' →
  st_ds_assembled st' = st_ds_assembled st
  ∧ ∃ panorama_i panorama_j,
      st_panoramas st !! pi = Some panorama_i
      ∧ st_panoramas st !! pj = Some panorama_j
      ∧ ((panorama_i = panorama_j ∧ st_panoramas st' = st_panoramas st)
         ∨ (panorama_i ≠ panorama_j
            ∧ remove_first panorama_j
                (alter (λ l, l ++ panorama_j) pi (st_panoramas st))
              = Some (st_panoramas st'))).
Proof.
  unfold merge_panoramas. intros Hm.
  destruct (st_panoramas st !! pi) as [panorama_i|] eqn:Hpi; [| done]. simpl in Hm.
  destruct (st_panoramas st !! pj) as [panorama_j|] eqn:Hpj; [| done]. simpl in Hm.
  destruct (concat_members (st_datasets st) panorama_i) as [curr_ds|]; [| done].
  simpl in Hm.
  destruct (concat_members (st_datasets st) panorama_j) as [curr_ref|]; [| done].
  simpl in Hm.
  destruct (base_index _ i panorama_i 0) as [base_i|]; [| done]. simpl in Hm.
  destruct (base_index _ j panorama_j 0) as [base_j|]; [| done]. simpl in Hm.
  destruct (merge_matches_i _ _ _ _ _ _ _) as [match1|]; [| done]. simpl in Hm.
  destruct (merge_matches_j _ _ _ _ _ _ _) as [match_|]; [| done]. simpl in Hm.
  destruct (transform curr_ds curr_ref _ _ _ _ _) as [bias|]; [| done]. simpl in Hm.
  destruct (np.add curr_ds bias) as [corrected|]; [| done]. simpl in Hm.
  destruct (write_back corrected _ panorama_i) as [datasets'|]; [| done].
  simpl in Hm.
  destruct (match st_expr_datasets st with Some _ => _ | None => _ end)
    as [expr'|]; [| done].
  simpl in Hm.
  destruct (decide (panorama_i ≠ panorama_j)) as [Hne|Heq]; simpl in Hm.
  - destruct (remove_first panorama_j _) as [panoramas'|] eqn:Hrm; [| done].
    simpl in Hm. injection Hm as <-. simpl. split; [done |].
    exists panorama_i, panorama_j. split_and!; [done | done |]. right. by split.
  - injection Hm as <-. simpl. split; [done |].
    exists panorama_i, panorama_j. split_and!; [done | done |]. left.
    split; [| done]. by destruct (decide (panorama_i = panorama_j)).
Qed.

Lemma assemble_step_grown (matches : match_table) (sigma : R)
    (batch_size : option nat) (realign : bool) (st st' : assembly) (i j : nat) :
  assemble_step matches sigma batch_size realign st (i, j) = Some st' →
  st_ds_assembled st' = visit j (visit i (st_ds_assembled st))
  ∧ grown (st_panoramas st) (st_panoramas st')
  ∧ (¬ (VISIT_CAP < visits (visit j (visit i (st_ds_assembled st))) i
        ∧ VISIT_CAP < visits (visit j (visit i (st_ds_assembled st))) j) →
     together (st_panoramas st') i j).
Proof.
  unfold assemble_step. intros Hstep.
  destruct (decide (VISIT_CAP < _ ∧ _)) as [Hcap|Hcap].
  { injection Hstep as <-. simpl. split_and!; [done | apply grown_refl | done]. }
  cbv zeta in Hstep.
  cbn [st_panoramas st_datasets st_expr_datasets st_ds_assembled] in Hstep.
  destruct (containing (st_panoramas st) i) as [|pi [|pi' rest_i]] eqn:Hci;
    destruct (containing (st_panoramas st) j) as [|pj [|pj' rest_j]] eqn:Hcj;
    simpl in Hstep; try done.
  - (* neither has a panorama *)
    destruct (st_datasets st !! i) as [ds_i|]; [| done]. simpl in Hstep.
    destruct (st_datasets st !! j) as [ds_j|]; [| done]. simpl in Hstep.
    assert (∀ a b, (a = i ∧ b = j) ∨ (a = j ∧ b = i) →
              map_to_panorama matches sigma batch_size
                (mk_assembly (st_datasets st) (st_expr_datasets st)
                   (st_panoramas st ++ [[a]])
                   (visit j (visit i (st_ds_assembled st))))
                b (length (st_panoramas st)) = Some st' →
              st_ds_assembled st' = visit j (visit i (st_ds_assembled st))
              ∧ grown (st_panoramas st) (st_panoramas st')
              ∧ together (st_panoramas st') i j) as Hseed.
    { intros a b Hab Hmap.
      pose proof (map_to_panorama_counts _ _ _ _ _ _ _ Hmap) as Hcounts.
      destruct (map_to_panorama_inv _ _ _ _ _ _ _ Hmap)
        as (panorama & _ & _ & Hp & _ & _ & _ & _ & Hpan & _).
      simpl in *. rewrite Hpan. split; [done |].
      rewrite lookup_app_r, Nat.sub_diag in Hp by lia. injection Hp as <-.
      split.
      - eapply grown_trans; [| apply grown_alter_app].
        intros l Hl. exists l. split; [| done]. apply elem_of_app. by left.
      - exists ([a] ++ [b]). split.
        + eapply list_elem_of_lookup_2.
          rewrite list_lookup_alter_eq, lookup_app_r, Nat.sub_diag by lia. done.
        + destruct Hab as [[-> ->] | [-> ->]]; simpl; split;
            repeat (left || (right; left)). }
    destruct (decide (np.shape0 ds_i < np.shape0 ds_j)).
    + destruct (Hseed j i) as (H1 & H2 & H3); auto.
    + destruct (Hseed i j) as (H1 & H2 & H3); auto.
  - (* only [j] has a panorama *)
    apply containing_head in Hcj as (l_j & Hpj & Hj).
    pose proof (map_to_panorama_counts _ _ _ _ _ _ _ Hstep) as Hcounts.
    destruct (map_to_panorama_inv _ _ _ _ _ _ _ Hstep)
      as (panorama & _ & _ & Hp & _ & _ & _ & _ & Hpan & _).
    simpl in *. rewrite Hpan. split_and!; [done | apply grown_alter_app |].
    intros _. exists (l_j ++ [i]). split.
    + eapply list_elem_of_lookup_2. by rewrite list_lookup_alter_eq, Hpj.
    + split; apply elem_of_app; [right; left | by left].
  - (* only [i] has a panorama *)
    apply containing_head in Hci as (l_i & Hpi & Hi).
    pose proof (map_to_panorama_counts _ _ _ _ _ _ _ Hstep) as Hcounts.
    destruct (map_to_panorama_inv _ _ _ _ _ _ _ Hstep)
      as (panorama & _ & _ & Hp & _ & _ & _ & _ & Hpan & _).
    simpl in *. rewrite Hpan. split_and!; [done | apply grown_alter_app |].
    intros _. exists (l_i ++ [j]). split.
    + eapply list_elem_of_lookup_2. by rewrite list_lookup_alter_eq, Hpi.
    + split; apply elem_of_app; [by left | right; left].
  - (* both have one *)
    apply containing_head in Hci as (l_i & Hpi & Hi).
    apply containing_head in Hcj as (l_j & Hpj & Hj).
    destruct (merge_panoramas_merged _ _ _ _ _ _ _ _ _ _ Hstep)
      as (Hcounts & panorama_i & panorama_j & Hpi' & Hpj' & Hpan).
    simpl in *. rewrite Hpi in Hpi'. rewrite Hpj in Hpj'.
    injection Hpi' as <-. injection Hpj' as <-.
    split; [done |].
    destruct Hpan as [[<- Heq] | [Hne Hrm]].
    { rewrite Heq. split; [apply grown_refl |]. intros _.
      exists l_i. split; [by eapply list_elem_of_lookup_2 | done]. }
    apply remove_first_Permutation in Hrm.
    assert (l_i ++ l_j ∈ st_panoramas st') as Hmerged.
    { assert (l_i ++ l_j ∈ l_j :: st_panoramas st') as Hin.
      { rewrite <- Hrm. eapply list_elem_of_lookup_2.
        by rewrite list_lookup_alter_eq, Hpi. }
      apply elem_of_cons in Hin as [Heq|Hin]; [| done].
      apply (f_equal length) in Heq. rewrite length_app in Heq.
      destruct l_i; [by apply elem_of_nil in Hi | simpl in Heq; lia]. }
    split.
    + intros l Hl.
      destruct (grown_alter_app (st_panoramas st) pi l_j l Hl) as (l' & Hl' & Hsub).
      rewrite Hrm in Hl'. apply elem_of_cons in Hl' as [->|Hl'].
      * exists (l_i ++ l_j). split; [done |].
        intros x Hx. apply elem_of_app. right. by apply Hsub.
      * by exists l'.
    + intros _. exists (l_i ++ l_j). split; [done |].
      split; apply elem_of_app; [by left | by right].
Qed.

Lemma visits_visit (a x : nat) (counts : gmap nat nat) :
  visits (visit a counts) x = visits counts x + (if decide (a = x) then 1 else 0).
Proof.
  unfold visits, visit. destruct (decide (a = x)) as [-> | Hne].
  - rewrite lookup_alter_eq. destruct (decide (x ∈ dom counts)) as [Hin | Hout].
    + apply elem_of_dom in Hin as [v Hv]. rewrite Hv. simpl. lia.
    + rewrite lookup_insert_eq. apply not_elem_of_dom in Hout. rewrite Hout. done.
  - rewrite lookup_alter_ne by done.
    destruct (decide (a ∈ dom counts)); [lia |].
    rewrite lookup_insert_ne by done. lia.
Qed.

Lemma assemble_loop_joins (matches : match_table) (sigma : R)
    (batch_size : option nat) (realign : bool) (alignments : list (nat * nat)) :
  ∀ st st',
    assemble_loop matches sigma batch_size realign st alignments = Some st' →
    grown (st_panoramas st) (st_panoramas st')
    ∧ ∀ i j, (i, j) ∈ alignments →
        visits (st_ds_assembled st) i + degree alignments i ≤ VISIT_CAP
        ∨ visits (st_ds_assembled st) j + degree alignments j ≤ VISIT_CAP →
        together (st_panoramas st') i j.
Proof.
  unfold assemble_loop.
  induction alignments as [|[a b] alignments IH]; intros st st' Hloop.
  { simpl in Hloop. injection Hloop as <-. split; [apply grown_refl |].
    by intros i j ?%elem_of_nil. }
  rewrite foldlM_cons in Hloop.
  destruct (assemble_step matches sigma batch_size realign st (a, b))
    as [st1|] eqn:Hstep; [| done].
  simpl in Hloop.
  destruct (assemble_step_grown _ _ _ _ _ _ _ _ Hstep) as (Hcounts & Hg & Hjoin).
  destruct (IH _ _ Hloop) as [Hg' Hjoin'].
  split; [by eapply grown_trans |].
  assert (∀ x, visits (st_ds_assembled st1) x + degree alignments x
               = visits (st_ds_assembled st) x + degree ((a, b) :: alignments) x)
    as Hbound.
  { intros x. rewrite Hcounts, !visits_visit. unfold degree. simpl. lia. }
  intros i j [[= -> ->] | Hin]%elem_of_cons Hlow.
  - eapply together_grown; [exact Hg' |]. apply Hjoin.
    rewrite !visits_visit. unfold degree in Hlow. simpl in Hlow.
    intros [Hi Hj]. revert Hlow Hi Hj.
    destruct (decide (a = a)) as [_ | ?]; [| done].
    destruct (decide (b = b)) as [_ | ?]; [| done].
    destruct (decide (b = a)), (decide (a = b)); try congruence; lia.
  - apply Hjoin'; [done |]. by rewrite !Hbound.
Qed.

Lemma find_alignments_bound (datasets : list np.ndarray) (knn : nat)
    (approx prenormalized : bool) (alpha : Q) (alignments : list (nat * nat))
    (matches : match_table) (i j : nat) :
  find_alignments datasets knn approx alpha prenormalized = Some (alignments, matches) →
  (i, j) ∈ alignments → j < length datasets.
Proof.
  unfold find_alignments. intros Hfind Hin.
  destruct (find_alignments_table datasets knn approx prenormalized)
    as [[table1 matches']|] eqn:Hrun; [| done].
  simpl in Hfind. injection Hfind as <- <-.
  destruct (find_alignments_table_inv _ _ _ _ _ _ Hrun)
    as (table & _ & _ & Hall & _).
  apply list_elem_of_fmap in Hin as ([[i' j'] v] & [= <- <-] & Hin).
  apply alignments_scored_subset in Hin.
  rewrite list.Forall_forall in Hall.
  destruct (Hall _ Hin) as ([_ Hlt] & _).
  destruct prenormalized; [done |]. by rewrite length_fmap in Hlt.
Qed.

(** A round of [assemble] over the edge [(i, j)] never splits a panorama:
    every panorama is contained in a panorama of the state after the round.
    Unless the visit cap skips the round, [i] and [j] are members of one
    panorama afterwards, whichever of the three branches the round took. *)
Theorem assemble_step_joins (matches : match_table) (sigma : R)
    (batch_size : option nat) (realign : bool) (st st' : assembly) (i j : nat) :
  assemble_step matches sigma batch_size realign st (i, j) = Some st' →
  grown (st_panoramas st) (st_panoramas st')
  ∧ (¬ (VISIT_CAP < visits (visit j (visit i (st_ds_assembled st))) i
        ∧ VISIT_CAP < visits (visit j (visit i (st_ds_assembled st))) j) →
     together (st_panoramas st') i j).
Proof.
  intros Hstep.
  by destruct (assemble_step_grown _ _ _ _ _ _ _ _ Hstep) as (_ & Hg & Hjoin).
Qed.

(** When [assemble] returns, the two endpoints of every alignment edge of
    which at least one endpoint occurs in no more than [VISIT_CAP = 3] edges
    are members of one panorama: only an edge between two datasets that
    both have more than three edges can be left out. *)
Theorem assemble_joins_low_degree (datasets : list np.ndarray) (knn : nat)
    (sigma : R) (approx : bool) (alpha : Q) (expr_datasets : option (list np.ndarray))
    (batch_size : option nat) (realign : bool) (st : assembly)
    (alignments : list (nat * nat)) (matches : match_table) (i j : nat) :
  assemble datasets knn sigma approx alpha expr_datasets batch_size realign = Some st →
  find_alignments datasets knn approx alpha false = Some (alignments, matches) →
  (i, j) ∈ alignments →
  degree alignments i ≤ VISIT_CAP ∨ degree alignments j ≤ VISIT_CAP →
  together (st_panoramas st) i j.
Proof.
  unfold assemble. intros Hrun Hfind Hin Hlow.
  pose proof (find_alignments_ordered _ _ _ _ _ _ _ _ _ Hfind Hin) as Hij.
  pose proof (find_alignments_bound _ _ _ _ _ _ _ _ _ Hfind Hin) as Hj.
  destruct (decide (length datasets = 1)) as [Hone | _]; [lia |].
  rewrite Hfind in Hrun. simpl in Hrun.
  destruct (assemble_loop_joins _ _ _ _ _ _ _ Hrun) as [_ Hjoin].
  apply Hjoin; [done |]. simpl. unfold visits. by rewrite !lookup_empty.
Qed.

End Scanorama.

(** ** Gene lists and preprocessing *)

Section PreprocessingProperties.

Context {G : Type} `{Countable G}.
Variable gene_le : relation G.
Context `{!RelDecision gene_le, !TotalOrder gene_le}.

Lemma take_cols_Some (a b : np.ndarray) (idx : list nat) :
  take_cols a idx = Some b →
  Forall (λ k, k < np.shape1 a) idx
  ∧ b = np.mk_ndarray (length idx)
          ((λ row, (λ k, nth k row 0%R) <$> idx) <$> np.data a).
Proof.
  unfold take_cols. intros Hb.
  destruct (decide (Forall (λ k, k < np.shape1 a) idx)) as [Hidx | Hidx].
  - rewrite option_guard_True in Hb by done. simpl in Hb. by injection Hb as <-.
  - by rewrite option_guard_False in Hb.
Qed.

Lemma take_cols_is_Some (a : np.ndarray) (idx : list nat) :
  Forall (λ k, k < np.shape1 a) idx → is_Some (take_cols a idx).
Proof.
  intros Hidx. unfold take_cols. rewrite option_guard_True by done. by eexists.
Qed.

Lemma size_zero_empty (s : gset G) : size s = 0 ↔ s = ∅.
Proof. rewrite size_empty_iff. apply leibniz_equiv_iff. Qed.

Lemma keep_loop_spec (genes : list (list G)) (keep0 keep : gset G) :
  foldlM keep_step keep0 genes = Some keep →
  keep0 ≠ ∅ →
  keep ≠ ∅ ∧ ∀ g, g ∈ keep ↔ g ∈ keep0 ∧ ∀ gl, gl ∈ genes → g ∈ gl.
Proof.
  revert keep0. induction genes as [|gl genes IH]; intros keep0 Hloop Hne.
  { simpl in Hloop. injection Hloop as <-. split; [done |].
    intros g. split; [| by intros [? _]]. intros Hg. split; [done |].
    intros gl Hgl. by apply elem_of_nil in Hgl. }
  rewrite foldlM_cons in Hloop.
  destruct (keep_step keep0 gl) as [keep1|] eqn:Hstep; [| done].
  unfold keep_step in Hstep. cbv zeta in Hstep.
  rewrite (decide_False (P := size keep0 = 0)) in Hstep
    by (by rewrite size_zero_empty).
  destruct (decide (size (keep0 ∩ list_to_set gl) = 0)) as [Hzero | Hpos]; [done |].
  injection Hstep as <-.
  simpl in Hloop. rewrite size_zero_empty in Hpos.
  destruct (IH _ Hloop Hpos) as [Hkeep Hspec]. split; [done |].
  intros g. rewrite Hspec, elem_of_intersection, elem_of_list_to_set. split.
  - intros [[H0 Hgl] Hrest]. split; [done |].
    intros gl' [-> | Hin]%elem_of_cons; [done | by apply Hrest].
  - intros [H0 Hall]. split; [split; [done |] |].
    + apply Hall. left.
    + intros gl' Hin. apply Hall. by right.
Qed.

Lemma common_genes_spec (genes : list (list G)) (keep : gset G) :
  common_genes genes = Some keep →
  ∀ g, g ∈ keep ↔ genes ≠ [] ∧ ∀ gl, gl ∈ genes → g ∈ gl.
Proof.
  unfold common_genes. destruct genes as [|gl genes].
  { simpl. intros [= <-] g. split; [by intros ?%not_elem_of_empty | by intros [? _]]. }
  rewrite foldlM_cons. intros Hloop g.
  destruct (keep_step ∅ gl) as [keep1|] eqn:Hstep; [| done].
  unfold keep_step in Hstep. cbv zeta in Hstep.
  rewrite (decide_True (P := size (∅ : gset G) = 0)) in Hstep
    by (by rewrite size_zero_empty).
  destruct (decide (size (list_to_set gl : gset G) = 0)) as [Hzero | Hpos]; [done |].
  injection Hstep as <-.
  simpl in Hloop. rewrite size_zero_empty in Hpos.
  destruct (keep_loop_spec _ _ _ Hloop Hpos) as [_ Hspec].
  rewrite Hspec, elem_of_list_to_set. split.
  - intros [Hgl Hrest]. split; [done |].
    intros gl' [-> | Hin]%elem_of_cons; [done | by apply Hrest].
  - intros [_ Hall]. split; [apply Hall; left |].
    intros gl' Hin. apply Hall. by right.
Qed.

Lemma common_genes_is_Some (genes : list (list G)) (g : G) :
  (∀ gl, gl ∈ genes → g ∈ gl) → is_Some (common_genes genes).
Proof.
  unfold common_genes. intros Hall.
  assert (∀ keep0 : gset G, g ∈ keep0 ∨ keep0 = ∅ →
            is_Some (foldlM keep_step keep0 genes)) as Hloop.
  { induction genes as [|gl genes IH]; intros keep0 Hkeep0; [by eexists |].
    rewrite foldlM_cons.
    assert (g ∈ gl) as Hgl by (apply Hall; left).
    assert (∃ keep1, keep_step keep0 gl = Some keep1 ∧ g ∈ keep1)
      as (keep1 & -> & Hg1).
    { unfold keep_step. cbv zeta.
      set (keep1 := if decide (size keep0 = 0) then list_to_set gl
                    else keep0 ∩ list_to_set gl).
      assert (g ∈ keep1) as Hg1.
      { unfold keep1. destruct (decide (size keep0 = 0)) as [Hz | Hnz].
        - by apply elem_of_list_to_set.
        - apply elem_of_intersection. split; [| by apply elem_of_list_to_set].
          destruct Hkeep0 as [Hin | ->]; [done |]. by rewrite size_empty in Hnz. }
      exists keep1. split; [| done]. apply decide_False.
      rewrite size_zero_empty. intros Hempty. rewrite Hempty in Hg1.
      by apply not_elem_of_empty in Hg1. }
    simpl. apply IH; [| by left]. intros gl' Hin. apply Hall. by right. }
  apply Hloop. by right.
Qed.

Lemma sorted_genes_Permutation (s : gset G) : sorted_genes gene_le s ≡ₚ elements s.
Proof. apply sorting.merge_sort_Permutation. Qed.

Lemma elem_of_sorted_genes (s : gset G) (g : G) : g ∈ sorted_genes gene_le s ↔ g ∈ s.
Proof. by rewrite sorted_genes_Permutation, elem_of_elements. Qed.

Lemma NoDup_sorted_genes (s : gset G) : NoDup (sorted_genes gene_le s).
Proof. rewrite sorted_genes_Permutation. apply NoDup_elements. Qed.

Lemma sorted_genes_sorted (s : gset G) : StronglySorted gene_le (sorted_genes gene_le s).
Proof. apply sorting.StronglySorted_merge_sort; apply _. Qed.

Lemma picked_columns (row : list R) (gene_list uniq_genes ret_genes : list G)
    (gene_idx : list nat) :
  Forall2 (λ idx g, uniq_genes !! idx = Some g) gene_idx ret_genes →
  (λ k, nth k ((λ k', nth k' row 0%R)
                 <$> ((λ g, first_index g gene_list) <$> uniq_genes)) 0%R)
    <$> gene_idx
  = (λ g, nth (first_index g gene_list) row 0%R) <$> ret_genes.
Proof.
  induction 1 as [|idx g gene_idx ret_genes Hidx _ IH]; [done |].
  rewrite !fmap_cons, IH. f_equal.
  apply nth_lookup_Some. by rewrite !list_lookup_fmap, Hidx.
Qed.

Lemma filter_genes_inv (keep_genes : gset G) (ret_genes : list G)
    (ds ds' : np.ndarray) (gene_list : list G) :
  filter_genes gene_le keep_genes ret_genes ds gene_list = Some ds' →
  ds' = np.mk_ndarray (length ret_genes)
          ((λ row, (λ g, nth (first_index g gene_list) row 0%R) <$> ret_genes)
             <$> np.data ds).
Proof.
  unfold filter_genes, unique. cbv zeta. intros Hf.
  destruct (take_cols ds _) as [ds1|] eqn:H1; [| done]. simpl in Hf.
  destruct (take_cols ds1 _) as [ds2|] eqn:H2; [| done]. simpl in Hf.
  destruct (mapM _ _) as [picked|] eqn:Hpicked; [| done]. simpl in Hf.
  destruct (decide (picked = ret_genes)) as [-> | Hne].
  2: { by rewrite option_guard_False in Hf. }
  rewrite option_guard_True in Hf by done. simpl in Hf. injection Hf as <-.
  apply take_cols_Some in H1 as [_ ->]. apply take_cols_Some in H2 as [_ ->].
  simpl. apply mapM_Some in Hpicked.
  pose proof (Forall2_length Hpicked) as Hlen.
  rewrite Hlen. f_equal.
  rewrite <- list_fmap_compose. apply list_fmap_ext. intros _ row _. simpl.
  by apply picked_columns.
Qed.

Lemma merge_loop_spec (keep_genes : gset G) (ret_genes : list G)
    (genes : list (list G)) (orig : list np.ndarray) (n : nat) :
  ∀ (i : nat) (cur res : list np.ndarray),
    foldlM (λ datasets i,
              gene_list ← genes !! i;
              ds ← datasets !! i;
              ds ← filter_genes gene_le keep_genes ret_genes ds gene_list;
              Some (<[i := ds]> datasets))
           cur (seq i n) = Some res →
    length cur = length orig →
    (∀ j, i ≤ j → cur !! j = orig !! j) →
    length res = length orig
    ∧ (∀ j, j < i → res !! j = cur !! j)
    ∧ ∀ j ds, i ≤ j < i + n → orig !! j = Some ds →
        ∃ gene_list ds',
          genes !! j = Some gene_list
          ∧ filter_genes gene_le keep_genes ret_genes ds gene_list = Some ds'
          ∧ res !! j = Some ds'.
Proof.
  induction n as [|n IH]; intros i cur res Hloop Hlen Hlater.
  { simpl in Hloop. injection Hloop as <-. split_and!; [done | done |].
    intros j ds Hj. lia. }
  simpl in Hloop.
  destruct (genes !! i) as [gene_list|] eqn:Hgl; [| done]. simpl in Hloop.
  destruct (cur !! i) as [ds_i|] eqn:Hi; [| done]. simpl in Hloop.
  destruct (filter_genes gene_le keep_genes ret_genes ds_i gene_list)
    as [ds_i'|] eqn:Hf; [| done].
  simpl in Hloop.
  destruct (IH (S i) _ _ Hloop) as (Hlen' & Hbefore & Hdone).
  { by rewrite length_insert. }
  { intros j Hj. rewrite list_lookup_insert_ne by lia. apply Hlater. lia. }
  split_and!.
  - done.
  - intros j Hj. rewrite Hbefore by lia. apply list_lookup_insert_ne. lia.
  - intros j ds Hj Hds. destruct (decide (j = i)) as [-> | Hne].
    + rewrite <- Hlater, Hi in Hds by lia. injection Hds as <-.
      exists gene_list, ds_i'. split_and!; [done | done |].
      rewrite Hbefore by lia. apply list_lookup_insert_eq.
      by eapply lookup_lt_Some.
    + apply Hdone; [lia | done].
Qed.

Lemma merge_datasets_inv (datasets datasets' : list np.ndarray)
    (genes : list (list G)) (ret_genes : list G) :
  merge_datasets gene_le datasets genes = Some (datasets', ret_genes) →
  ∃ keep_genes,
    common_genes genes = Some keep_genes
    ∧ ret_genes = sorted_genes gene_le keep_genes
    ∧ length datasets' = length datasets
    ∧ ∀ j ds, datasets !! j = Some ds →
        ∃ gene_list ds',
          genes !! j = Some gene_list
          ∧ filter_genes gene_le keep_genes ret_genes ds gene_list = Some ds'
          ∧ datasets' !! j = Some ds'.
Proof.
  unfold merge_datasets. intros Hm.
  destruct (common_genes genes) as [keep_genes|] eqn:Hkeep; [| done].
  simpl in Hm.
  destruct (foldlM _ datasets (seq 0 (length datasets))) as [res|] eqn:Hloop;
    [| done].
  simpl in Hm. injection Hm as <- <-.
  destruct (merge_loop_spec _ _ _ datasets _ _ _ _ Hloop) as (Hlen & _ & Hdone);
    [done | done |].
  exists keep_genes. split_and!; [done | done | done |].
  intros j ds Hds. apply Hdone; [| done].
  apply lookup_lt_Some in Hds. lia.
Qed.

(** The genes that [merge_datasets] returns are the genes that occur in
    every gene list, each of them once, in ascending order. *)
Theorem merge_datasets_common_genes (datasets datasets' : list np.ndarray)
    (genes : list (list G)) (ret_genes : list G) :
  merge_datasets gene_le datasets genes = Some (datasets', ret_genes) →
  StronglySorted gene_le ret_genes
  ∧ NoDup ret_genes
  ∧ ∀ g, g ∈ ret_genes ↔ genes ≠ [] ∧ ∀ gene_list, gene_list ∈ genes → g ∈ gene_list.
Proof.
  intros Hm.
  destruct (merge_datasets_inv _ _ _ _ Hm) as (keep_genes & Hkeep & -> & _).
  split_and!.
  - apply sorted_genes_sorted.
  - apply NoDup_sorted_genes.
  - intros g. rewrite elem_of_sorted_genes. by apply common_genes_spec.
Qed.

(** [merge_datasets] keeps the number of datasets and of rows, and column
    [k] of every dataset it returns is the column that the dataset had at
    the first occurrence of the [k]-th returned gene in its gene list; in
    particular every returned dataset has one column per returned gene,
    and the same gene in the same column. *)
Theorem merge_datasets_columns (datasets datasets' : list np.ndarray)
    (genes : list (list G)) (ret_genes : list G) (j : nat) (ds : np.ndarray) :
  merge_datasets gene_le datasets genes = Some (datasets', ret_genes) →
  datasets !! j = Some ds →
  length datasets' = length datasets
  ∧ ∃ gene_list,
      genes !! j = Some gene_list
      ∧ datasets' !! j
        = Some (np.mk_ndarray (length ret_genes)
                  ((λ row, (λ g, nth (first_index g gene_list) row 0%R)
                             <$> ret_genes) <$> np.data ds)).
Proof.
  intros Hm Hds.
  destruct (merge_datasets_inv _ _ _ _ Hm) as (keep_genes & _ & _ & Hlen & Hall).
  split; [done |].
  destruct (Hall j ds Hds) as (gene_list & ds' & Hgl & Hf & Hres).
  exists gene_list. split; [done |].
  by rewrite Hres, (filter_genes_inv _ _ _ _ _ Hf).
Qed.

Lemma first_index_lookup (g : G) (gene_list : list G) :
  g ∈ gene_list → gene_list !! first_index g gene_list = Some g.
Proof.
  intros Hin. unfold first_index.
  destruct (list_find_elem_of (λ x, x = g) gene_list g Hin eq_refl) as [[i x] Hfind].
  rewrite Hfind. simpl. apply list_find_Some in Hfind as (Hi & -> & _). done.
Qed.

Lemma zip_seq_lookup (l : list G) (k : nat) (g : G) (i : nat) :
  (g, i) ∈ zip l (seq k (length l)) → l !! (i - k) = Some g ∧ k ≤ i.
Proof.
  intros [p Hp]%list_elem_of_lookup.
  apply lookup_zip_with_Some in Hp as (g' & i' & [= <- <-] & Hg & Hi).
  apply lookup_seq in Hi as [-> Hlt]. split; [| lia].
  by replace (k + p - k) with p by lia.
Qed.

Lemma zip_seq_sorted (l : list G) :
  StronglySorted gene_le l →
  ∀ k, StronglySorted (by_gene gene_le) (zip l (seq k (length l))).
Proof.
  induction 1 as [|x l Hl IH Hx]; intros k; simpl; constructor; [apply IH |].
  apply list.Forall_forall. intros [g i] Hin.
  rewrite list.Forall_forall in Hx.
  unfold by_gene. simpl. apply Hx.
  apply zip_seq_lookup in Hin as [Hin _]. by eapply list_elem_of_lookup_2.
Qed.

Lemma argsort_genes_sorted (l : list G) :
  StronglySorted gene_le l → NoDup l →
  argsort_genes gene_le l = seq 0 (length l).
Proof.
  intros Hsorted Hnd. unfold argsort_genes.
  assert (sorting.merge_sort (by_gene gene_le) (zip l (seq 0 (length l)))
          = zip l (seq 0 (length l))) as ->.
  { apply (sorting.StronglySorted_unique_strong (by_gene gene_le)).
    - intros [g1 i1] [g2 i2] H1 H2 H12 H21.
      rewrite sorting.merge_sort_Permutation in H1.
      apply zip_seq_lookup in H1 as [H1 _], H2 as [H2 _].
      unfold by_gene in H12, H21. simpl in *.
      assert (g1 = g2) as <- by (by apply (anti_symm gene_le)).
      rewrite !Nat.sub_0_r in *. f_equal.
      by eapply NoDup_lookup.
    - apply sorting.StronglySorted_merge_sort.
      + intros a b c Hab Hbc. unfold by_gene in *. by etransitivity.
      + intros a b. unfold by_gene. apply (total gene_le).
    - by apply zip_seq_sorted.
    - apply sorting.merge_sort_Permutation. }
  apply snd_zip. by rewrite length_seq.
Qed.

Lemma picked_filter (keep_genes : gset G) (l pre : list G) :
  mapM (λ idx, (pre ++ l) !! idx)
       (filter (λ idx, default false ((λ g, bool_decide (g ∈ keep_genes))
                                        <$> (pre ++ l) !! idx))
               (seq (length pre) (length l)))
  = Some (filter (λ g, g ∈ keep_genes) l).
Proof.
  revert pre. induction l as [|x l IH]; intros pre; [done |].
  simpl. rewrite !filter_cons, list_lookup_middle by done. simpl.
  specialize (IH (pre ++ [x])).
  rewrite <- app_assoc, length_app in IH. simpl in IH.
  rewrite Nat.add_1_r in IH.
  destruct (decide (x ∈ keep_genes)) as [Hin | Hout].
  - rewrite bool_decide_eq_true_2 by done.
    rewrite (decide_True (P := Is_true true)) by exact I.
    rewrite ?(decide_True (P := x ∈ keep_genes)) by done.
    simpl. rewrite list_lookup_middle by done. simpl. by rewrite IH.
  - rewrite bool_decide_eq_false_2 by done.
    rewrite (decide_False (P := Is_true false)) by (intros []).
    rewrite ?(decide_False (P := x ∈ keep_genes)) by done.
    exact IH.
Qed.

Lemma filter_sorted_genes (keep_genes : gset G) (gene_list : list G) :
  (∀ g, g ∈ keep_genes → g ∈ gene_list) →
  filter (λ g, g ∈ keep_genes) (sorted_genes gene_le (list_to_set gene_list))
  = sorted_genes gene_le keep_genes.
Proof.
  intros Hsub. apply (sorting.StronglySorted_unique gene_le).
  - by apply StronglySorted_filter, sorted_genes_sorted.
  - apply sorted_genes_sorted.
  - apply NoDup_Permutation.
    + apply list.NoDup_filter, NoDup_sorted_genes.
    + apply NoDup_sorted_genes.
    + intros g. rewrite list_elem_of_filter, !elem_of_sorted_genes,
        elem_of_list_to_set. split; [by intros [? _] | auto].
Qed.

Lemma filter_genes_is_Some (keep_genes : gset G) (ds : np.ndarray)
    (gene_list : list G) :
  (∀ g, g ∈ keep_genes → g ∈ gene_list) →
  length gene_list ≤ np.shape1 ds →
  is_Some (filter_genes gene_le keep_genes (sorted_genes gene_le keep_genes)
             ds gene_list).
Proof.
  intros Hsub Hcols. unfold filter_genes, unique. cbv zeta.
  set (uniq_genes := sorted_genes gene_le (list_to_set gene_list)).
  destruct (take_cols_is_Some ds ((λ g, first_index g gene_list) <$> uniq_genes))
    as [ds1 H1].
  { rewrite Forall_fmap. apply list.Forall_forall. intros g Hg. simpl.
    apply elem_of_sorted_genes, elem_of_list_to_set in Hg.
    apply first_index_lookup, lookup_lt_Some in Hg. lia. }
  rewrite H1. simpl.
  rewrite argsort_genes_sorted
    by (apply sorted_genes_sorted || apply NoDup_sorted_genes).
  apply take_cols_Some in H1 as [_ ->].
  pose proof (picked_filter keep_genes uniq_genes []) as Hpicked.
  simpl in Hpicked.
  destruct (take_cols_is_Some
              (np.mk_ndarray (length ((λ g, first_index g gene_list) <$> uniq_genes))
                 ((λ row, (λ k, nth k row 0%R)
                            <$> ((λ g, first_index g gene_list) <$> uniq_genes))
                    <$> np.data ds))
              (filter (λ idx, default false ((λ g, bool_decide (g ∈ keep_genes))
                                               <$> uniq_genes !! idx))
                      (seq 0 (length uniq_genes))))
    as [ds2 H2].
  { simpl. apply list.Forall_forall. intros k [_ Hk]%list_elem_of_filter.
    apply elem_of_seq in Hk. rewrite length_fmap. lia. }
  rewrite H2. simpl. rewrite Hpicked. simpl.
  unfold uniq_genes. rewrite filter_sorted_genes by done.
  rewrite option_guard_True by done. by eexists.
Qed.

Lemma merge_loop_is_Some (keep_genes : gset G) (genes : list (list G))
    (orig : list np.ndarray) (n : nat) :
  (∀ g gene_list, g ∈ keep_genes → gene_list ∈ genes → g ∈ gene_list) →
  length orig ≤ length genes →
  (∀ j ds gene_list, orig !! j = Some ds → genes !! j = Some gene_list →
                     length gene_list ≤ np.shape1 ds) →
  ∀ (i : nat) (cur : list np.ndarray),
    length cur = length orig →
    (∀ j, i ≤ j → cur !! j = orig !! j) →
    i + n ≤ length orig →
    is_Some (foldlM (λ datasets i,
                       gene_list ← genes !! i;
                       ds ← datasets !! i;
                       ds ← filter_genes gene_le keep_genes
                              (sorted_genes gene_le keep_genes) ds gene_list;
                       Some (<[i := ds]> datasets))
                    cur (seq i n)).
Proof.
  intros Hsub Hlen Hcols. induction n as [|n IH]; intros i cur Hcur Hlater Hle;
    [by eexists |].
  simpl.
  destruct (lookup_lt_is_Some_2 genes i) as [gene_list Hgl]; [lia |].
  destruct (lookup_lt_is_Some_2 cur i) as [ds Hds]; [lia |].
  rewrite Hgl, Hds. simpl.
  destruct (filter_genes_is_Some keep_genes ds gene_list) as [ds' Hf].
  { intros g Hg. apply (Hsub g gene_list Hg). by eapply list_elem_of_lookup_2. }
  { apply (Hcols i); [| done]. by rewrite <- Hlater. }
  rewrite Hf. simpl. apply IH.
  - by rewrite length_insert.
  - intros j Hj. rewrite list_lookup_insert_ne by lia. apply Hlater. lia.
  - lia.
Qed.

(** [merge_datasets] returns, that is, neither [exit(1)] is reached nor does
    the assertion [np.array_equal(uniq_genes[gene_idx], ret_genes)] fail,
    whenever some gene occurs in every gene list, every dataset has a gene
    list and at least as many columns as its gene list has entries. *)
Theorem merge_datasets_succeeds (datasets : list np.ndarray)
    (genes : list (list G)) (g : G) :
  (∀ gene_list, gene_list ∈ genes → g ∈ gene_list) →
  length datasets ≤ length genes →
  (∀ j ds gene_list, datasets !! j = Some ds → genes !! j = Some gene_list →
                     length gene_list ≤ np.shape1 ds) →
  ∃ datasets' ret_genes,
    merge_datasets gene_le datasets genes = Some (datasets', ret_genes).
Proof.
  intros Hcommon Hlen Hcols. unfold merge_datasets.
  destruct (common_genes_is_Some genes g Hcommon) as [keep_genes Hkeep].
  rewrite Hkeep. simpl.
  destruct (merge_loop_is_Some keep_genes genes datasets (length datasets))
    with (i := 0) (cur := datasets) as [res Hres]; try done.
  { intros g' gene_list Hg' Hin.
    by apply (proj1 (common_genes_spec _ _ Hkeep g') Hg'). }
  rewrite Hres. simpl. by exists res, (sorted_genes gene_le keep_genes).
Qed.

(** *** Dimensionality reduction and [process_data] *)

Variable reduce_dimensionality : np.ndarray → nat → option np.ndarray.
Variable dispersion : np.ndarray → option (list R).
Variable argsort : list R → list nat.

Lemma split_loop_spec (X : np.ndarray) (datasets : list np.ndarray) :
  ∀ (out : list np.ndarray) (base : nat),
    (foldl (λ '(datasets_dimred, base) ds,
              (datasets_dimred ++ [np.slice_rows X base (base + np.shape0 ds)],
               base + np.shape0 ds))
           (out, base) datasets).1
    = out ++ split_rows X base datasets.
Proof.
  induction datasets as [|ds datasets IH]; intros out base; simpl.
  { by rewrite app_nil_r. }
  rewrite IH, <- app_assoc. done.
Qed.

Lemma split_rows_shapes (X : np.ndarray) (datasets : list np.ndarray) (base : nat) :
  base + total_cells datasets ≤ np.shape0 X →
  Forall2 (λ ds o, np.shape0 o = np.shape0 ds ∧ np.shape1 o = np.shape1 X)
          datasets (split_rows X base datasets).
Proof.
  revert base. induction datasets as [|ds datasets IH]; intros base Hle; simpl;
    constructor.
  - unfold total_cells in Hle. rewrite fmap_cons in Hle. simpl in Hle.
    split; [| done]. apply shape0_slice_rows. lia.
  - apply IH. unfold total_cells in *. rewrite fmap_cons in Hle. simpl in Hle. lia.
Qed.

Lemma split_rows_concat (X : np.ndarray) (datasets : list np.ndarray) (base : nat) :
  concat (np.data <$> split_rows X base datasets)
  = take (total_cells datasets) (drop base (np.data X)).
Proof.
  revert base. induction datasets as [|ds datasets IH]; intros base; simpl.
  { by rewrite take_0. }
  rewrite IH. unfold total_cells. rewrite fmap_cons. simpl.
  replace (base + np.shape0 ds - base) with (np.shape0 ds) by lia.
  rewrite <- take_take_drop, drop_drop. done.
Qed.

(** [dimensionality_reduce] returns one matrix per dataset.  When the
    reduction keeps the number of rows, the [k]-th of them has the rows of
    the [k]-th dataset and the columns of the reduced matrix, and stacking
    the returned matrices gives the reduced matrix back. *)
Theorem dimensionality_reduce_split (datasets datasets_dimred : list np.ndarray)
    (dimred : nat) :
  dimensionality_reduce reduce_dimensionality datasets dimred = Some datasets_dimred →
  ∃ X X',
    np.concatenate datasets = Some X
    ∧ reduce_dimensionality X dimred = Some X'
    ∧ length datasets_dimred = length datasets
    ∧ (np.shape0 X' = np.shape0 X →
       Forall2 (λ ds o, np.shape0 o = np.shape0 ds ∧ np.shape1 o = np.shape1 X')
               datasets datasets_dimred
       ∧ np.concatenate datasets_dimred = Some X').
Proof.
  unfold dimensionality_reduce. intros Hrun.
  destruct (np.concatenate datasets) as [X|] eqn:HX; [| done]. simpl in Hrun.
  destruct (reduce_dimensionality X dimred) as [X'|] eqn:HX'; [| done].
  simpl in Hrun. injection Hrun as <-. rewrite split_loop_spec. simpl.
  exists X, X'. split_and!; [done | done | |].
  { clear. generalize 0. induction datasets as [|ds l IH]; intros base; simpl;
      [done | by rewrite IH]. }
  intros Hrows. pose proof (concatenate_shape0 _ _ HX) as Htotal.
  assert (Forall2 (λ ds o, np.shape0 o = np.shape0 ds ∧ np.shape1 o = np.shape1 X')
                  datasets (split_rows X' 0 datasets)) as Hshapes.
  { apply split_rows_shapes. lia. }
  split; [done |].
  pose proof (split_rows_concat X' datasets 0) as Hcat.
  rewrite drop_0, take_ge in Hcat by (unfold np.shape0 in *; lia).
  destruct (split_rows X' 0 datasets) as [|o out] eqn:Hout.
  { apply Forall2_nil_inv_r in Hshapes as ->. by unfold np.concatenate in HX. }
  assert (∀ b, b ∈ o :: out → np.shape1 b = np.shape1 X') as Hcols.
  { intros b [k Hk]%list_elem_of_lookup.
    by destruct (Forall2_lookup_r _ _ _ _ _ Hshapes Hk) as (d & _ & _ & H1). }
  unfold np.concatenate.
  assert (forallb (λ b, Nat.eqb (np.shape1 b) (np.shape1 o)) (o :: out) = true) as ->.
  { apply forallb_forall. intros b Hb%list_elem_of_In. apply Nat.eqb_eq.
    rewrite (Hcols b Hb). symmetry. apply Hcols. left. }
  rewrite Hcat, (Hcols o) by left. by destruct X'.
Qed.

Lemma highly_variable_inv (datasets datasets' : list np.ndarray)
    (genes genes' : list G) :
  highly_variable gene_le dispersion argsort datasets genes = Some (datasets', genes') →
  genes' = []
  ∧ datasets' = (λ ds, np.mk_ndarray 0 ((λ _, []) <$> np.data ds)) <$> datasets.
Proof.
  unfold highly_variable. intros Hrun.
  destruct (np.concatenate datasets) as [X|]; [| done]. simpl in Hrun.
  destruct (dispersion X) as [disp|]; [| done]. simpl in Hrun.
  match type of Hrun with
  | context [@filter ?A ?B ?F ?P ?D ?l] => assert (@filter A B F P D l = []) as Hnone
  end.
  { generalize (imap pair genes). intros l. induction l as [|ig l IH]; [done |].
    rewrite filter_cons. destruct (decide _) as [Hin | _]; [| done].
    by apply not_elem_of_empty in Hin. }
  match type of Hrun with
  | context [mapM ?f datasets] =>
      assert (mapM f datasets
              = Some ((λ ds, np.mk_ndarray 0 ((λ _, []) <$> np.data ds))
                        <$> datasets)) as Hcols
  end.
  { apply mapM_Some. rewrite Forall2_fmap_r.
    apply Forall_Forall2_diag, list.Forall_forall. intros ds _.
    simpl. rewrite Hnone. unfold take_cols.
    rewrite option_guard_True by constructor. done. }
  rewrite Hcols in Hrun. simpl in Hrun. injection Hrun as <- <-.
  split; [| done]. unfold sorted_genes. by rewrite elements_empty.
Qed.

Lemma highly_variable_datasets (datasets datasets' : list np.ndarray)
    (genes genes' : list G) :
  highly_variable gene_le dispersion argsort datasets genes = Some (datasets', genes') →
  datasets ≠ [].
Proof.
  unfold highly_variable. intros Hrun ->. done.
Qed.

(** scikit-learn's [normalize] refuses a matrix without columns
    ([check_array] asks for at least one feature). *)
Variable normalize : np.ndarray → option np.ndarray.
Hypothesis normalize_min_features : ∀ a, np.shape1 a = 0 → normalize a = None.

(** The number of genes that the highly-variable filter of [process_data]
    keeps is the module constant [HVG = 0], not the argument [hvg].  So
    whenever the filter runs ([0 < hvg < len(genes)]), [process_data] does
    not return: stacking an empty list of datasets raises, and otherwise the
    filter cuts every dataset down to no column at all, which [normalize]
    refuses for the first of them. *)
Theorem process_data_hvg_raises (datasets : list np.ndarray)
    (genes : list G) (hvg dimred : Z) :
  (0 < hvg < Z.of_nat (length genes))%Z →
  process_data gene_le reduce_dimensionality dispersion argsort normalize
    datasets genes hvg dimred = None.
Proof.
  unfold process_data. intros Hhvg.
  rewrite decide_True by done.
  destruct (highly_variable _ _ _ datasets genes) as [[datasets' genes']|] eqn:Hhv;
    [| done].
  simpl. pose proof (highly_variable_datasets _ _ _ _ Hhv) as Hne.
  apply highly_variable_inv in Hhv as [-> ->].
  destruct datasets as [|ds datasets]; [done |].
  rewrite fmap_cons. simpl. by rewrite normalize_min_features.
Qed.

End PreprocessingProperties.

(** * Concrete instances *)

Lemma mnn_mutual_witness :
  ∃ match1 match2,
    directional one_point_search no_annoy one_point one_point 1 false = Some match1
    ∧ directional one_point_search no_annoy one_point one_point 1 false = Some match2
    ∧ (0%Z, 0%Z) ∈ match1 ∧ (0%Z, 0%Z) ∈ match2.
Proof.
  apply (mnn_mutual one_point_search no_annoy one_point one_point 1 false
           (match_of_ind 1 [[0%Z]] ∩ swap_pairs (match_of_ind 1 [[0%Z]]))).
  - reflexivity.
  - vm_compute. reflexivity.
Defined.

Lemma assemble_visit_cap_witness :
  ∃ st',
    assemble_step ∅ SIGMA None false
      (mk_assembly [one_point; one_point] None [[0; 1]] {[ 0 := 3; 1 := 3 ]}) (0, 1)
      = Some st'
    ∧ st_datasets st' = [one_point; one_point]
    ∧ st_expr_datasets st' = None
    ∧ st_panoramas st' = [[0; 1]]
    ∧ st_ds_assembled st' = visit 1 (visit 0 {[ 0 := 3; 1 := 3 ]}).
Proof.
  refine (assemble_visit_cap ∅ SIGMA None false
            (mk_assembly [one_point; one_point] None [[0; 1]] {[ 0 := 3; 1 := 3 ]})
            0 1 _ _); vm_compute; lia.
Defined.

Lemma find_alignments_alpha_monotone_witness :
  alignments_of [((0, 1), 1 # 2); ((0, 2), 1 # 5)] (1 # 4)
    ⊆ alignments_of [((0, 1), 1 # 2); ((0, 2), 1 # 5)] (1 # 10)
  ∧ length (alignments_of [((0, 1), 1 # 2); ((0, 2), 1 # 5)] (1 # 4))
    ≤ length (alignments_of [((0, 1), 1 # 2); ((0, 2), 1 # 5)] (1 # 10)).
Proof.
  refine (find_alignments_alpha_monotone
            [((0, 1), 1 # 2); ((0, 2), 1 # 5)] (1 # 10) (1 # 4) _).
  unfold Qle. simpl. lia.
Defined.

Lemma line_table :
  find_alignments_table line_search no_annoy normalize_unit line_datasets 1 false true
  = Some (line_scores, line_matches).
Proof. vm_compute. reflexivity. Qed.

Lemma find_alignments_threshold_sorted_witness :
  ∃ scored : score_table,
    find_alignments line_search no_annoy normalize_unit line_datasets 1 false (1 # 3) true
    = Some (fst <$> scored, line_matches)
    ∧ scored ≡ₚ filter (λ kv, (1 # 3 < kv.2)%Q) line_scores
    ∧ StronglySorted descending scored.
Proof.
  exact (find_alignments_threshold_sorted line_search no_annoy normalize_unit
           line_datasets 1 false (1 # 3) true line_scores line_matches line_table).
Defined.

Lemma line_alignments :
  find_alignments line_search no_annoy normalize_unit line_datasets 1 false (1 # 3) true
  = Some ([(1, 2); (0, 2)], line_matches).
Proof. vm_compute. reflexivity. Qed.

Lemma match_of_one_point : match_of_ind 1 [[0%Z]] = {[ (0%Z, 0%Z) ]}.
Proof. vm_compute. reflexivity. Qed.

Lemma fill_table_interval_lookup_witness :
  ∃ itree_ds_idx itree_pos_base,
    build_itrees [one_point] 0 0 0 IntervalTree.empty IntervalTree.empty
    = Some (itree_ds_idx, itree_pos_base)
    ∧ (∀ d r, (d, r) ∈ match_of_ind 1 [[0%Z]] →
         ∃ owner start,
           IntervalTree.at_ r itree_ds_idx = [owner]
           ∧ IntervalTree.at_ r itree_pos_base = [start]
           ∧ 0 ≤ IntervalTree.data owner < 0 + length [one_point]
           ∧ (0 ≤ r - IntervalTree.data start)%Z)
    ∧ is_Some (fill_table one_point_search no_annoy ∅ 1 one_point [one_point] 0 1 false).
Proof.
  refine (fill_table_interval_lookup one_point_search no_annoy ∅ 1 one_point
            [one_point] 0 1 false one_point (match_of_ind 1 [[0%Z]]) _ _ _ _).
  - repeat constructor.
  - reflexivity.
  - reflexivity.
  - intros d r. rewrite match_of_one_point, elem_of_singleton.
    intros [= -> ->]. unfold one_point, np.shape0. simpl. lia.
Defined.

Lemma three_points_alignments :
  find_alignments one_point_search no_annoy normalize_unit three_points 1 false ALPHA false
  = Some ([(0, 1)], {[ (0, 1) := {[ (0%Z, 0%Z) ]} ]}).
Proof. vm_compute. reflexivity. Qed.

Lemma connect_partition_witness :
  ∃ panoramas,
    connect one_point_search no_annoy normalize_unit three_points 1 false ALPHA
    = Some panoramas
    ∧ is_partition panoramas 3
    ∧ concat panoramas ≡ₚ seq 0 3.
Proof.
  exact (connect_partition one_point_search no_annoy normalize_unit three_points
           1 false ALPHA _ _ three_points_alignments).
Defined.



Lemma batch_bias_batched_unbatched_counterexample :
  np.shape1 moving_block = np.shape1 no_points
  ∧ np.shape0 no_points = np.shape0 no_points
  ∧ np.shape1 no_points = np.shape1 moving_block
  ∧ batch_bias moving_block no_points no_points None SIGMA = None
  ∧ is_Some (batch_bias moving_block no_points no_points (Some 1) SIGMA).
Proof.
  split; [reflexivity |]. split; [reflexivity |]. split; [reflexivity |].
  split; [reflexivity |]. by eexists.
Qed.

Lemma batch_bias_batched_unbatched_witness :
  batch_bias moving_block matched_points matched_bias (Some 2) SIGMA
  = batch_bias moving_block matched_points matched_bias None SIGMA
  ∧ (0 < np.shape0 moving_block → 0 < np.shape1 moving_block →
     is_Some (batch_bias moving_block matched_points matched_bias None SIGMA)).
Proof.
  refine (batch_bias_batched_unbatched moving_block matched_points matched_bias
            2 SIGMA _ _ _ _ _);
    [reflexivity | reflexivity | reflexivity | unfold np.shape0; simpl; lia | lia].
Defined.

(** ** An edge inside one panorama *)

#[local] Arguments assemble_step : simpl never.

#[local] Arguments sklearn.rbf_kernel : simpl never.
#[local] Arguments np.dot : simpl never.
#[local] Arguments np.add : simpl never.
#[local] Arguments np.sub : simpl never.
#[local] Arguments np.div : simpl never.
#[local] Arguments np.vadd : simpl never.
#[local] Arguments np.take_rows : simpl never.
#[local] Arguments np.concatenate : simpl never.
#[local] Arguments np.sum_axis1 : simpl never.
#[local] Arguments np.transpose : simpl never.
#[local] Arguments np.tile : simpl never.
#[local] Arguments np.zeros : simpl never.
#[local] Arguments np.zeros1 : simpl never.
#[local] Arguments py_range : simpl never.
#[local] Arguments batch_bias : simpl never.
#[local] Arguments transform : simpl never.
#[local] Arguments concat_members : simpl never.
#[local] Arguments matches_to_panorama : simpl never.
#[local] Arguments merge_matches_i : simpl never.
#[local] Arguments merge_matches_j : simpl never.
#[local] Arguments base_index : simpl never.
#[local] Arguments write_back : simpl never.
#[local] Arguments smoothed_bias : simpl never.


#[local] Arguments IZR : simpl never.
#[local] Arguments Rdiv : simpl never.
#[local] Arguments Rminus : simpl never.
#[local] Arguments exp : simpl never.

(** Unfolds the array operations of one correction down to equations between
    real numbers. *)
Ltac unfold_correction :=
  unfold np.add, np.sub, np.elementwise, np.same_shape, np.shape0, smoothed_bias,
    numerator_rows, denominator_rows, kernel_row, np.inner, np.vsum, sklearn.sqdist;
  simpl.

(** Closes an equation between real numbers in which every weight is the
    exponential of one and the same argument. *)
Ltac weights_cancel :=
  match goal with
  | |- context [exp ?a] =>
      let Hw := fresh "Hw" in
      pose proof (exp_pos a) as Hw; generalize dependent (exp a); intros; field; lra
  end.

Lemma triangle_alignments :
  alignments_of triangle_scores ALPHA = [(1, 2); (0, 2); (0, 1)].
Proof. vm_compute. reflexivity. Qed.

Lemma triangle_step_12 :
  assemble_step triangle_matches 2 None false triangle_start (1, 2)
  = Some triangle_after_12.
Proof.
  rewrite (assemble_step_both_unassigned _ _ _ _ _ 1 2
             (np.mk_ndarray 1 [[1%R]]) (np.mk_ndarray 1 [[3%R]; [5%R]]));
    [| vm_compute; lia | reflexivity | reflexivity | reflexivity | reflexivity].
  unfold np.shape0. simpl.
  etransitivity.
  { eapply (map_to_panorama_eval _ _ _ 1 0 [2]
              (np.mk_ndarray 1 [[1%R]]) (np.mk_ndarray 1 [[3%R]; [5%R]])
              (np.mk_ndarray 1 [[1%R]]) (np.mk_ndarray 1 [[3%R]])
              (np.mk_ndarray 1 [[(3 - 1)%R]]) (np.mk_ndarray 1 [[3%R]])
              [(0%Z, 0%Z)]);
      try reflexivity; try (unfold np.shape0; simpl; lia).
    unfold_correction. do 4 f_equal. weights_cancel. }
  reflexivity.
Qed.

Lemma triangle_step_02 :
  assemble_step triangle_matches 2 None false triangle_after_12 (0, 2)
  = Some triangle_after_02.
Proof.
  rewrite (assemble_step_first_unassigned _ _ _ _ _ 0 2 0);
    [| vm_compute; lia | reflexivity | reflexivity].
  etransitivity.
  { eapply (map_to_panorama_eval _ _ _ 0 0 [2; 1]
              (np.mk_ndarray 1 [[0%R]]) (np.mk_ndarray 1 [[3%R]; [5%R]; [3%R]])
              (np.mk_ndarray 1 [[0%R]; [0%R]]) (np.mk_ndarray 1 [[5%R]; [3%R]])
              (np.mk_ndarray 1 [[(5 - 0)%R]; [(3 - 0)%R]]) (np.mk_ndarray 1 [[4%R]])
              [(0%Z, 1%Z); (0%Z, 2%Z)]);
      try reflexivity; try (unfold np.shape0; simpl; lia).
    unfold_correction. do 4 f_equal. weights_cancel. }
  reflexivity.
Qed.

Lemma triangle_step_01 :
  assemble_step triangle_matches 2 None false triangle_after_02 (0, 1)
  = Some triangle_after_01.
Proof.
  rewrite (assemble_step_both_assigned _ _ _ _ _ 0 1 0 0);
    [| vm_compute; lia | reflexivity | reflexivity].
  etransitivity.
  { eapply (merge_same_panorama_eval _ _ _ _ 0 1 0 [2; 1; 0]
              (np.mk_ndarray 1 [[3%R]; [5%R]; [3%R]; [4%R]])
              (np.mk_ndarray 1 [[4%R]; [4%R]]) (np.mk_ndarray 1 [[3%R]; [3%R]])
              (np.mk_ndarray 1 [[(3 - 4)%R]; [(3 - 4)%R]])
              (np.mk_ndarray 1 [[2%R]; [4%R]; [2%R]; [3%R]])
              3%Z 2%Z [(3%Z, 2%Z)] [(3%Z, 2%Z); (3%Z, 2%Z)]
              [np.mk_ndarray 1 [[3%R]]; np.mk_ndarray 1 [[2%R]];
               np.mk_ndarray 1 [[2%R]; [4%R]]]);
      try reflexivity; try (unfold np.shape0; simpl; lia).
    unfold_correction. do 2 f_equal.
    repeat (f_equal; [f_equal; weights_cancel |]).
    do 2 f_equal. weights_cancel. }
  reflexivity.
Qed.

Lemma assemble_same_panorama_counterexample :
  alignments_of triangle_scores ALPHA = [(1, 2); (0, 2); (0, 1)]
  ∧ assemble_loop triangle_matches 2 None false triangle_start [(1, 2); (0, 2)]
    = Some triangle_after_02
  ∧ containing (st_panoramas triangle_after_02) 0 = [0]
  ∧ containing (st_panoramas triangle_after_02) 1 = [0]
  ∧ ¬ (VISIT_CAP < visits (visit 1 (visit 0 (st_ds_assembled triangle_after_02))) 0
       ∧ VISIT_CAP < visits (visit 1 (visit 0 (st_ds_assembled triangle_after_02))) 1)
  ∧ assemble_step triangle_matches 2 None false triangle_after_02 (0, 1)
    = Some triangle_after_01
  ∧ st_datasets triangle_after_01 ≠ st_datasets triangle_after_02.
Proof.
  split; [exact triangle_alignments |]. split.
  { unfold assemble_loop. rewrite foldlM_cons, triangle_step_12. simpl.
    rewrite triangle_step_02. reflexivity. }
  split; [reflexivity |]. split; [reflexivity |].
  split; [vm_compute; lia |]. split; [exact triangle_step_01 |].
  unfold triangle_after_01, triangle_after_02. simpl.
  intros Heq. injection Heq as Heq _. lra.
Qed.

Lemma assemble_same_panorama_witness :
  ∃ panorama curr_ds base_i base_j match1 match_ bias corrected,
    st_panoramas triangle_after_02 !! 0 = Some panorama
    ∧ 0 ∈ panorama ∧ 1 ∈ panorama
    ∧ concat_members (st_datasets triangle_after_02) panorama = Some curr_ds
    ∧ base_index (st_datasets triangle_after_02) 0 panorama 0 = Some base_i
    ∧ base_index (st_datasets triangle_after_02) 1 panorama 0 = Some base_j
    ∧ merge_matches_i (st_datasets triangle_after_02) triangle_matches 0 1 base_j
        panorama [] = Some match1
    ∧ merge_matches_j (st_datasets triangle_after_02) triangle_matches 0 1 base_i
        panorama match1 = Some match_
    ∧ (NoDup panorama →
       match_ = shifted base_i base_j (matches_between triangle_matches 0 1)
                ++ shifted base_i base_j (matches_between triangle_matches 0 1))
    ∧ transform curr_ds curr_ds match_.*1 match_.*2 2 false None = Some bias
    ∧ np.add curr_ds bias = Some corrected
    ∧ write_back corrected (st_datasets triangle_after_02) panorama
      = Some (st_datasets triangle_after_01)
    ∧ st_panoramas triangle_after_01 = st_panoramas triangle_after_02
    ∧ (∀ q, q ∉ panorama →
         st_datasets triangle_after_01 !! q = st_datasets triangle_after_02 !! q)
    ∧ (false = false →
       st_expr_datasets triangle_after_01 = st_expr_datasets triangle_after_02).
Proof.
  refine (assemble_same_panorama triangle_matches 2 None false
            triangle_after_02 triangle_after_01 0 1 0 _ _ _ triangle_step_01).
  - vm_compute. lia.
  - reflexivity.
  - reflexivity.
Defined.

(** ** Instances of the further properties *)

Lemma connect_one_edge : connect_alignments 3 [(0, 1)] = Some [[0; 1]; [2]].
Proof. vm_compute. reflexivity. Qed.

Lemma connect_joins_endpoints_witness : together [[0; 1]; [2]] 0 1.
Proof.
  refine (connect_joins_endpoints 3 [(0, 1)] [[0; 1]; [2]] 0 1 connect_one_edge _).
  left.
Defined.

Lemma connect_panorama_linked_witness : linked [(0, 1)] 0 1.
Proof.
  refine (connect_panorama_linked 3 [(0, 1)] [[0; 1]; [2]] 0 1 connect_one_edge _).
  exists [0; 1]. split; [left |]. split; [left | right; left].
Defined.

Lemma connect_untouched_singleton_witness : [2] ∈ [[0; 1]; [2]].
Proof.
  refine (connect_untouched_singleton 3 [(0, 1)] [[0; 1]; [2]] 2 connect_one_edge _ _).
  - lia.
  - intros i j [= -> ->]%list_elem_of_singleton. lia.
Defined.

Lemma three_points_scored :
  find_alignments_table one_point_search no_annoy normalize_unit three_points 1 false true
  = Some ([((0, 1), 1%Q)], {[ (0, 1) := {[ (0%Z, 0%Z) ]} ]}).
Proof. vm_compute. reflexivity. Qed.

Lemma matches_rows_valid_witness :
  0 < 1
  ∧ ∃ ds_i ds_j,
      three_points !! 0 = Some ds_i ∧ three_points !! 1 = Some ds_j
      ∧ (0 ≤ 0 < Z.of_nat (np.shape0 ds_i))%Z
      ∧ (0 ≤ 0 < Z.of_nat (np.shape0 ds_j))%Z.
Proof.
  refine (matches_rows_valid one_point_search no_annoy normalize_unit (λ _, eq_refl)
            three_points 1 false true _ _ 0 1 {[ (0%Z, 0%Z) ]} 0%Z 0%Z
            three_points_scored _ _).
  - reflexivity.
  - by apply elem_of_singleton.
Defined.

Lemma find_alignments_edges_witness :
  NoDup [(0, 1)]
  ∧ ∀ i j, (i, j) ∈ [(0, 1)] →
      i < j < length three_points
      ∧ ∃ m, ({[ (0, 1) := {[ (0%Z, 0%Z) ]} ]} : match_table) !! (i, j) = Some m
             ∧ ((0 <= ALPHA)%Q → m ≠ ∅).
Proof.
  exact (find_alignments_edges one_point_search no_annoy normalize_unit three_points
           1 false false ALPHA _ _ three_points_alignments).
Defined.

Lemma three_points_unaligned :
  find_alignments one_point_search no_annoy normalize_unit three_points 1 false 1 false
  = Some ([], {[ (0, 1) := {[ (0%Z, 0%Z) ]} ]}).
Proof. vm_compute. reflexivity. Qed.

Lemma no_alignment_above_one_witness :
  ([] : list (nat * nat)) = []
  ∧ assemble one_point_search no_annoy normalize_unit three_points 1 SIGMA false 1
      None None false
    = Some (mk_assembly three_points None [] ∅)
  ∧ connect one_point_search no_annoy normalize_unit three_points 1 false 1
    = Some ((λ i, [i]) <$> seq 0 (length three_points)).
Proof.
  refine (no_alignment_above_one one_point_search no_annoy normalize_unit three_points
            1 SIGMA false 1 None None false _ _ _ three_points_unaligned).
  unfold Qle. simpl. lia.
Defined.

Lemma three_points_step :
  assemble_step {[ (0, 1) := {[ (0%Z, 0%Z) ]} ]} SIGMA None false
    (mk_assembly three_points None [] ∅) (0, 1)
  = Some pair_assembled.
Proof.
  rewrite (assemble_step_both_unassigned _ _ _ _ _ 0 1 one_point one_point);
    [| vm_compute; lia | reflexivity | reflexivity | reflexivity | reflexivity].
  unfold np.shape0. simpl.
  etransitivity.
  { eapply (map_to_panorama_eval _ _ _ 1 0 [0] one_point one_point one_point one_point
              (np.mk_ndarray 1 [[(0 - 0)%R]]) one_point [(0%Z, 0%Z)]);
      try reflexivity; try (unfold np.shape0; simpl; lia).
    unfold_correction. do 4 f_equal. weights_cancel. }
  reflexivity.
Qed.

Lemma three_points_assembled :
  assemble one_point_search no_annoy normalize_unit three_points 1 SIGMA false ALPHA
    None None false
  = Some pair_assembled.
Proof.
  unfold assemble. rewrite decide_False by (vm_compute; lia).
  rewrite three_points_alignments. simpl.
  unfold assemble_loop. rewrite foldlM_cons, three_points_step. reflexivity.
Qed.

Lemma assemble_panoramas_disjoint_witness :
  NoDup (concat (st_panoramas pair_assembled))
  ∧ (∀ d, d ∈ concat (st_panoramas pair_assembled) → d < length three_points)
  ∧ ∀ d, length (containing (st_panoramas pair_assembled) d) ≤ 1.
Proof.
  exact (assemble_panoramas_disjoint one_point_search no_annoy normalize_unit
           three_points 1 SIGMA false ALPHA None None false pair_assembled
           three_points_assembled).
Defined.

Lemma assemble_keeps_shapes_witness :
  length (st_datasets pair_assembled) = length three_points
  ∧ same_shapes three_points (st_datasets pair_assembled)
  ∧ option_Forall2 same_shapes None (st_expr_datasets pair_assembled).
Proof.
  exact (assemble_keeps_shapes one_point_search no_annoy normalize_unit
           three_points 1 SIGMA false ALPHA None None false pair_assembled
           three_points_assembled).
Defined.

Lemma assemble_unaligned_unchanged_witness :
  st_datasets pair_assembled !! 2 = three_points !! 2
  ∧ st_expr_datasets pair_assembled ≫= (λ es, es !! 2)
    = (None : option (list np.ndarray)) ≫= (λ es, es !! 2)
  ∧ 2 ∉ concat (st_panoramas pair_assembled).
Proof.
  refine (assemble_unaligned_unchanged one_point_search no_annoy normalize_unit
            three_points 1 SIGMA false ALPHA None None false pair_assembled
            _ _ 2 three_points_assembled three_points_alignments _).
  intros i j [= -> ->]%list_elem_of_singleton. lia.
Defined.

Lemma one_point_nn :
  nn one_point_search one_point one_point 1 2 = Some {[ (0%Z, 0%Z) ]}.
Proof. vm_compute. reflexivity. Qed.

Lemma nn_matches_witness :
  ∃ ind,
    one_point_search 1 2 one_point one_point = Some ind
    ∧ ∀ a b, (a, b) ∈ ({[ (0%Z, 0%Z) ]} : gset (Z * Z))
        ↔ ∃ k row, k < np.shape0 one_point ∧ ind !! k = Some row
                   ∧ a = Z.of_nat k ∧ b ∈ row.
Proof.
  exact (nn_matches one_point_search one_point one_point 1 2 _ one_point_nn).
Defined.

Lemma one_point_nn_approx :
  nn_approx annoy_first one_point one_point 1 manhattan 10 = Some {[ (0%Z, 0%Z) ]}.
Proof. vm_compute. reflexivity. Qed.

Lemma nn_approx_matches_witness :
  (0%Z, 0%Z) ∈ ({[ (0%Z, 0%Z) ]} : gset (Z * Z))
  ↔ ∃ k v row, np.data one_point !! k = Some v
               ∧ annoy_first manhattan 10 one_point v 1 = Some row
               ∧ 0%Z = Z.of_nat k ∧ 0%Z ∈ row.
Proof.
  exact (nn_approx_matches annoy_first one_point one_point 1 manhattan 10 _
           one_point_nn_approx 0%Z 0%Z).
Defined.

Lemma one_point_mnn :
  mnn one_point_search no_annoy one_point one_point 1 false = Some {[ (0%Z, 0%Z) ]}.
Proof. vm_compute. reflexivity. Qed.

Lemma mnn_symmetric_witness :
  mnn one_point_search no_annoy one_point one_point 1 false
  = Some (swap_pairs {[ (0%Z, 0%Z) ]}).
Proof.
  exact (mnn_symmetric one_point_search no_annoy one_point one_point 1 false _
           one_point_mnn).
Defined.

#[local] Arguments mnn : simpl never.

Lemma two_points_accum_step :
  accum_step one_point_search no_annoy 1 SIGMA false None two_points 0
  = Some two_points.
Proof.
  unfold accum_step.
  change (two_points !! (0 + 1)) with (Some one_point).
  change (np.concatenate (take (0 + 1) two_points)) with (Some one_point).
  cbn [mbind option_bind]. rewrite one_point_mnn.
  cbn [mbind option_bind]. rewrite elements_singleton. simpl.
  unfold transform.
  change (np.take_rows one_point [0%Z]) with (Some one_point).
  simpl. unfold two_points, one_point. do 6 f_equal.
  unfold np.inner, np.column, np.vsum. simpl. weights_cancel.
Qed.

Lemma two_points_accum :
  assemble_accum one_point_search no_annoy two_points 1 SIGMA false None
  = Some two_points.
Proof.
  unfold assemble_accum. rewrite decide_False by (vm_compute; lia).
  simpl. rewrite two_points_accum_step. reflexivity.
Qed.

Lemma assemble_accum_keeps_reference_witness :
  length two_points = length two_points
  ∧ two_points !! 0 = two_points !! 0
  ∧ same_shapes two_points two_points.
Proof.
  exact (assemble_accum_keeps_reference one_point_search no_annoy two_points 1 SIGMA
           false None two_points two_points_accum).
Defined.

Lemma assemble_accum_sequential_witness :
  accumulated one_point_search no_annoy 1 SIGMA false None two_points 1 one_point.
Proof.
  refine (assemble_accum_sequential one_point_search no_annoy two_points 1 SIGMA
            false None two_points 1 one_point two_points_accum _ _).
  - lia.
  - reflexivity.
Defined.

(** ** Instances for gene lists and preprocessing *)

Lemma nat_le_total_order : TotalOrder Nat.le.
Proof.
  split; [apply _ |]. intros x y. unfold strict.
  destruct (Nat.lt_trichotomy x y) as [Hlt | [Heq | Hgt]].
  - left. lia.
  - right. by left.
  - right. right. lia.
Qed.

Lemma gene_datasets_merged :
  merge_datasets Nat.le gene_datasets gene_lists = Some (merged_datasets, [3; 5]).
Proof. vm_compute. reflexivity. Qed.

Lemma merge_datasets_common_genes_witness :
  StronglySorted Nat.le [3; 5]
  ∧ NoDup [3; 5]
  ∧ ∀ g, g ∈ [3; 5]
      ↔ gene_lists ≠ [] ∧ ∀ gene_list, gene_list ∈ gene_lists → g ∈ gene_list.
Proof.
  exact (merge_datasets_common_genes Nat.le (TotalOrder0 := nat_le_total_order)
           gene_datasets merged_datasets gene_lists [3; 5] gene_datasets_merged).
Defined.

Lemma merge_datasets_columns_witness :
  length merged_datasets = length gene_datasets
  ∧ ∃ gene_list,
      gene_lists !! 0 = Some gene_list
      ∧ merged_datasets !! 0
        = Some (np.mk_ndarray (length [3; 5])
                  ((λ row, (λ g, nth (first_index g gene_list) row 0%R) <$> [3; 5])
                     <$> [[1%R; 2%R; 3%R]])).
Proof.
  refine (merge_datasets_columns Nat.le gene_datasets merged_datasets gene_lists
            [3; 5] 0 (np.mk_ndarray 3 [[1%R; 2%R; 3%R]]) gene_datasets_merged _).
  reflexivity.
Defined.

Lemma merge_datasets_succeeds_witness :
  ∃ datasets' ret_genes,
    merge_datasets Nat.le gene_datasets gene_lists = Some (datasets', ret_genes).
Proof.
  refine (merge_datasets_succeeds Nat.le (TotalOrder0 := nat_le_total_order)
            gene_datasets gene_lists 3 _ _ _).
  - intros gene_list Hin. unfold gene_lists in Hin.
    apply elem_of_cons in Hin as [-> | Hin]; [right; left |].
    apply list_elem_of_singleton in Hin as ->. left.
  - simpl. lia.
  - intros [|[|j]] ds gene_list Hds Hgl; simpl in Hds, Hgl; try done.
    + injection Hds as <-. injection Hgl as <-. simpl. lia.
    + injection Hds as <-. injection Hgl as <-. simpl. lia.
Defined.

Lemma blocks_reduced :
  dimensionality_reduce reduce_identity [moving_block; reference_block] DIMRED
  = Some [moving_block; reference_block].
Proof. vm_compute. reflexivity. Qed.

Lemma dimensionality_reduce_split_witness :
  ∃ X X',
    np.concatenate [moving_block; reference_block] = Some X
    ∧ reduce_identity X DIMRED = Some X'
    ∧ length [moving_block; reference_block] = length [moving_block; reference_block]
    ∧ (np.shape0 X' = np.shape0 X →
       Forall2 (λ ds o, np.shape0 o = np.shape0 ds ∧ np.shape1 o = np.shape1 X')
               [moving_block; reference_block] [moving_block; reference_block]
       ∧ np.concatenate [moving_block; reference_block] = Some X').
Proof.
  exact (dimensionality_reduce_split reduce_identity [moving_block; reference_block]
           [moving_block; reference_block] DIMRED blocks_reduced).
Defined.

Lemma process_data_hvg_raises_witness :
  process_data Nat.le reduce_identity flat_dispersion argsort_identity
    normalize_checked gene_datasets [3; 5; 7] 2 (Z.of_nat DIMRED)
  = None.
Proof.
  refine (process_data_hvg_raises Nat.le reduce_identity flat_dispersion
            argsort_identity normalize_checked _ gene_datasets [3; 5; 7] 2
            (Z.of_nat DIMRED) _).
  - intros a Ha. unfold normalize_checked. rewrite Ha. case_guard; [lia | reflexivity].
  - simpl. lia.
Defined.

Lemma assemble_step_joins_witness :
  grown [] (st_panoramas pair_assembled)
  ∧ (¬ (VISIT_CAP < visits (visit 1 (visit 0 ∅)) 0
        ∧ VISIT_CAP < visits (visit 1 (visit 0 ∅)) 1) →
     together (st_panoramas pair_assembled) 0 1).
Proof.
  exact (assemble_step_joins {[ (0, 1) := {[ (0%Z, 0%Z) ]} ]} SIGMA None false
           (mk_assembly three_points None [] ∅) pair_assembled 0 1
           three_points_step).
Defined.

Lemma assemble_joins_low_degree_witness :
  together (st_panoramas pair_assembled) 0 1.
Proof.
  refine (assemble_joins_low_degree one_point_search no_annoy normalize_unit
            three_points 1 SIGMA false ALPHA None None false pair_assembled
            [(0, 1)] _ 0 1 three_points_assembled three_points_alignments _ _).
  - left.
  - left. vm_compute. lia.
Defined.
